(** * advanced-vector: RawMemory<T> and Vector<T>

    A shallow embedding of [vector.h].  The header separates raw storage
    ([RawMemory<T>]) from object lifetime ([Vector<T>]); the embedding keeps
    that split: a region of raw memory is a list of slots, each of which is
    either uninitialized ([None]) or holds a constructed element
    ([Some x]).

    Conventions.
    - [size_t] values are natural numbers: the sizes that occur are bounded
      by what the allocation capability grants.
    - A [T*] that owns a region is modelled together with that region
      ([ptr]); the region without slots is [nullptr].  [RawMemory] is
      move-only in the header, so a region never has two owners.
    - Iterators ([T*] into the vector's block) are offsets from [begin()];
      [begin()] and [end()] themselves come with the block they point
      into.
    - The element type [T] and the allocator are capabilities
      ([Element], [Allocator]); their operations may throw, which they
      decide from a state [W] of their own.
    - Every call into a capability is recorded in a trace, most recent
      first, so that "constructed", "destroyed" and "released" are
      observable.
    - A method maps the object [this] and the state to the new state, the
      new value of [this] and an [outcome]. *)

From stdpp Require Import base tactics option list gmap.

Set Default Proof Using "Type".

(** ** Outcomes, events, state *)

Inductive outcome (X : Type) : Type :=
| Return (x : X)   (* normal completion *)
| Throw            (* an exception leaves the call *)
| Abort.           (* a failed [assert], or undefined behaviour *)
Arguments Return {X} x.
Arguments Throw {X}.
Arguments Abort {X}.

(** An exceptional outcome seen at another result type. *)
Definition propagate {X Y : Type} (o : outcome X) : outcome Y :=
  match o with
  | Throw => Throw
  | _ => Abort
  end.

Inductive event (T A : Type) : Type :=
| EvNew (n : nat)                (* operator new(n * sizeof(T)) *)
| EvDelete (live : list T)       (* operator delete(buf); [live]: the elements still constructed in the region *)
| EvValueInit                    (* T() *)
| EvConstruct (a : A)            (* T(args...) *)
| EvCopy (x : T)                 (* T(const T&) *)
| EvMove (x : T)                 (* T(T&&) *)
| EvCopyAssign (d x : T)         (* d = x *)
| EvMoveAssign (d x : T)         (* d = std::move(x) *)
| EvDestroy (x : T).             (* x.~T() *)
Arguments EvNew {T A} n.
Arguments EvDelete {T A} live.
Arguments EvValueInit {T A}.
Arguments EvConstruct {T A} a.
Arguments EvCopy {T A} x.
Arguments EvMove {T A} x.
Arguments EvCopyAssign {T A} d x.
Arguments EvMoveAssign {T A} d x.
Arguments EvDestroy {T A} x.

Record state (T A W : Type) : Type := State {
  world : W;
  trace : list (event T A)
}.
Arguments State {T A W} world trace.
Arguments world {T A W} s.
Arguments trace {T A W} s.

(** ** The capabilities the header is generic over *)

(** The allocation functions.  [operator_new n] is asked for room for [n]
    elements and answers whether it succeeded ([false]: [std::bad_alloc]);
    [operator_delete n] gets a region of [n] elements back. *)
Class Allocator (W : Type) : Type := {
  operator_new : nat → W → W * bool;
  operator_delete : nat → W → W
}.

(** The element type.  A constructor answers [None] when it throws.
    A move hands back the moved-from source as well; an assignment hands
    back the assigned-to object, also when it throws. *)
Class Element (T A W : Type) : Type := {
  value_init : W → W * option T;               (* T() *)
  construct : A → W → W * option T;            (* T(std::forward<Args>(args)...) *)
  copy_construct : T → W → W * option T;       (* T(const T&) *)
  move_construct : T → W → W * T * option T;   (* T(T&&): source afterwards, new object *)
  copy_assign : T → T → W → W * T * bool;      (* dst = src: dst afterwards, completed? *)
  move_assign : T → T → W → W * T * T * bool;  (* dst = std::move(src): dst, src afterwards, completed? *)
  destroy : T → W → W;                         (* ~T(), never throws *)
  is_nothrow_move_constructible_v : bool;
  is_copy_constructible_v : bool
}.

(** ** Calls into the element type, recorded in the trace *)

Module elem.
Section elem.
Context {T A W : Type} `{!Element T A W}.
Local Abbreviation state := (state T A W).

Definition log (e : event T A) (s : state) (w : W) : state :=
    State w (e :: trace s).

Definition value_init (s : state) : state * option T :=
    let '(w, r) := value_init (world s) in (log EvValueInit s w, r).

Definition construct (a : A) (s : state) : state * option T :=
    let '(w, r) := construct a (world s) in (log (EvConstruct a) s w, r).

Definition copy_construct (x : T) (s : state) : state * option T :=
    let '(w, r) := copy_construct x (world s) in (log (EvCopy x) s w, r).

Definition move_construct (x : T) (s : state) : state * T * option T :=
    let '(w, x', r) := move_construct x (world s) in (log (EvMove x) s w, x', r).

Definition copy_assign (d x : T) (s : state) : state * T * bool :=
    let '(w, d', ok) := copy_assign d x (world s) in (log (EvCopyAssign d x) s w, d', ok).

Definition move_assign (d x : T) (s : state) : state * T * T * bool :=
    let '(w, d', x', ok) := move_assign d x (world s) in
    (log (EvMoveAssign d x) s w, d', x', ok).

Definition destroy (x : T) (s : state) : state :=
    log (EvDestroy x) s (destroy x (world s)).
End elem.
End elem.

(** ** Raw memory regions *)

(** A [T*] to the start of a region of raw memory, together with the slots
    of that region.  [Allocate] hands out a region only for a non-zero
    number of elements, so the region without slots stands for
    [nullptr]. *)
Abbreviation ptr T := (list (option T)).

Section region.
Context {T : Type}.
Local Abbreviation ptr := (ptr T).

Definition nullptr : ptr := [].

(** Number of slots behind a pointer. *)
Definition extent (p : ptr) : nat := length p.

(** The element constructed at [p + i], if there is one. *)
Definition load (p : ptr) (i : nat) : option T :=
  match p !! i with
  | Some o => o
  | None => None
  end.

(** The region after slot [p + i] has become [o]. *)
Definition poke (p : ptr) (i : nat) (o : option T) : ptr := <[i := o]> p.

(** The elements constructed in the region, in address order. *)
Definition live (p : ptr) : list T := omap id p.
End region.

(** ** The algorithms of <memory> and <algorithm> that the header calls

    They are not part of the header; they are written as the loops the C++
    standard describes.  Pointers are a region and an offset into it.
    When construction throws, the uninitialized_* algorithms destroy what
    they have constructed (the standard leaves the order open; here the
    most recently constructed element goes first) and rethrow.
    Constructing outside the region, or reading, assigning to or destroying
    a slot that holds no element, is undefined behaviour. *)

Module std.
Section std.
Context {T A W : Type} `{!Element T A W}.
Local Abbreviation state := (state T A W).
Local Abbreviation ptr := (ptr T).

(** std::destroy_at(p + i) *)
Definition destroy_at (p : ptr) (i : nat) (s : state) : state * ptr * outcome unit :=
  match load p i with
  | Some x => (elem.destroy x s, poke p i None, Return tt)
  | None => (s, p, Abort)
  end.

(** std::destroy_n(p + first, n) *)
Fixpoint destroy_n (p : ptr) (first n : nat) (s : state) : state * ptr * outcome unit :=
  match n with
  | 0 => (s, p, Return tt)
  | S n' =>
      match destroy_at p first s with
      | (s1, p1, Return _) => destroy_n p1 (S first) n' s1
      | r => r
      end
  end.

(** std::destroy(p + first, p + last) *)
Definition destroy (p : ptr) (first last : nat) (s : state) : state * ptr * outcome unit :=
  destroy_n p first (last - first) s.

(** std::uninitialized_value_construct_n(p + first, n) *)
Fixpoint uninitialized_value_construct_n (p : ptr) (first n : nat) (s : state)
  : state * ptr * outcome unit :=
  match n with
  | 0 => (s, p, Return tt)
  | S n' =>
      if decide (first < extent p) then
        match elem.value_init s with
        | (s1, Some y) =>
            match uninitialized_value_construct_n (poke p first (Some y)) (S first) n' s1 with
            | (s2, p2, Throw) =>
                let '(s3, p3, _) := destroy_at p2 first s2 in (s3, p3, Throw)
            | r => r
            end
        | (s1, None) => (s1, p, Throw)
        end
      else (s, p, Abort)
  end.

(** std::uninitialized_copy_n(src + first, n, dst + d_first) *)
Fixpoint uninitialized_copy_n (src : ptr) (first n : nat) (dst : ptr) (d_first : nat)
    (s : state) : state * ptr * outcome unit :=
  match n with
  | 0 => (s, dst, Return tt)
  | S n' =>
      match load src first with
      | Some x =>
          if decide (d_first < extent dst) then
            match elem.copy_construct x s with
            | (s1, Some y) =>
                match uninitialized_copy_n src (S first) n'
                        (poke dst d_first (Some y)) (S d_first) s1 with
                | (s2, dst2, Throw) =>
                    let '(s3, dst3, _) := destroy_at dst2 d_first s2 in (s3, dst3, Throw)
                | r => r
                end
            | (s1, None) => (s1, dst, Throw)
            end
          else (s, dst, Abort)
      | None => (s, dst, Abort)
      end
  end.

(** std::uninitialized_copy(src + first, src + last, dst + d_first) *)
Definition uninitialized_copy (src : ptr) (first last : nat) (dst : ptr) (d_first : nat)
    (s : state) : state * ptr * outcome unit :=
  uninitialized_copy_n src first (last - first) dst d_first s.

(** std::uninitialized_move_n(src + first, n, dst + d_first); the source
    region is returned as the moves leave it. *)
Fixpoint uninitialized_move_n (src : ptr) (first n : nat) (dst : ptr) (d_first : nat)
    (s : state) : state * ptr * ptr * outcome unit :=
  match n with
  | 0 => (s, src, dst, Return tt)
  | S n' =>
      match load src first with
      | Some x =>
          if decide (d_first < extent dst) then
            match elem.move_construct x s with
            | (s1, x', Some y) =>
                match uninitialized_move_n (poke src first (Some x')) (S first) n'
                        (poke dst d_first (Some y)) (S d_first) s1 with
                | (s2, src2, dst2, Throw) =>
                    let '(s3, dst3, _) := destroy_at dst2 d_first s2 in
                    (s3, src2, dst3, Throw)
                | r => r
                end
            | (s1, x', None) => (s1, poke src first (Some x'), dst, Throw)
            end
          else (s, src, dst, Abort)
      | None => (s, src, dst, Abort)
      end
  end.

(** std::uninitialized_move(src + first, src + last, dst + d_first) *)
Definition uninitialized_move (src : ptr) (first last : nat) (dst : ptr) (d_first : nat)
    (s : state) : state * ptr * ptr * outcome unit :=
  uninitialized_move_n src first (last - first) dst d_first s.

(** The body of std::move(p + first, p + last, p + d_first), [n] elements to
    go: [*d_first++ = std::move( *first++ )]. *)
Fixpoint move_loop (p : ptr) (first d_first n : nat) (s : state) : state * ptr * outcome unit :=
  match n with
  | 0 => (s, p, Return tt)
  | S n' =>
      match load p first, load p d_first with
      | Some x, Some d =>
          let '(s1, d', x', ok) := elem.move_assign d x s in
          let p1 := poke (poke p first (Some x')) d_first (Some d') in
          if ok then move_loop p1 (S first) (S d_first) n' s1 else (s1, p1, Throw)
      | _, _ => (s, p, Abort)
      end
  end.

(** std::move(p + first, p + last, p + d_first), within one region *)
Definition move (p : ptr) (first last d_first : nat) (s : state) : state * ptr * outcome unit :=
  move_loop p first d_first (last - first) s.

(** The body of std::move_backward, [n] elements to go:
    [*(--d_last) = std::move( *(--last) )]. *)
Fixpoint move_backward_loop (p : ptr) (last d_last n : nat) (s : state)
  : state * ptr * outcome unit :=
  match n with
  | 0 => (s, p, Return tt)
  | S n' =>
      match load p (last - 1), load p (d_last - 1) with
      | Some x, Some d =>
          let '(s1, d', x', ok) := elem.move_assign d x s in
          let p1 := poke (poke p (last - 1) (Some x')) (d_last - 1) (Some d') in
          if ok then move_backward_loop p1 (last - 1) (d_last - 1) n' s1 else (s1, p1, Throw)
      | _, _ => (s, p, Abort)
      end
  end.

(** std::move_backward(p + first, p + last, p + d_last), within one region *)
Definition move_backward (p : ptr) (first last d_last : nat) (s : state)
  : state * ptr * outcome unit :=
  move_backward_loop p last d_last (last - first) s.
End std.
End std.

(** ** class RawMemory<T> *)

Module RawMemory.
Section RawMemory.
Context {T A W : Type} `{!Allocator W}.
Local Abbreviation state := (state T A W).
Local Abbreviation ptr := (ptr T).

Record t : Type := Build {
  buffer_ : ptr;
  capacity_ : nat
}.

(** static T* Allocate(size_t n) *)
Definition Allocate (n : nat) (s : state) : state * outcome ptr :=
  if decide (n ≠ 0) then
    let '(w, ok) := operator_new n (world s) in
    if ok then (elem.log (EvNew n) s w, Return (replicate n None))
    else (elem.log (EvNew n) s w, Throw)
  else (s, Return nullptr).

(** static void Deallocate(T* buf) noexcept; [operator delete(nullptr)]
    does nothing. *)
Definition Deallocate (buf : ptr) (s : state) : state :=
  match buf with
  | [] => s
  | _ => elem.log (EvDelete (live buf)) s (operator_delete (extent buf) (world s))
  end.

(** RawMemory() = default *)
Definition default : t := Build nullptr 0.

(** explicit RawMemory(size_t capacity) *)
Definition make (capacity : nat) (s : state) : state * outcome t :=
  match Allocate capacity s with
  | (s1, Return buf) => (s1, Return (Build buf capacity))
  | (s1, o) => (s1, propagate o)
  end.

(** RawMemory(RawMemory&& other) noexcept: the new object and [other]
    afterwards. *)
Definition move_ctor (other : t) : t * t :=
  (Build (buffer_ other) (capacity_ other), Build nullptr 0).

(** RawMemory& operator=(RawMemory&& rhs) noexcept: [this] and [rhs]
    afterwards.  [same] says whether [this == &rhs]. *)
Definition move_assign (same : bool) (this rhs : t) (s : state) : state * t * t :=
  if negb same then
    let s1 := Deallocate (buffer_ this) s in
    (s1, Build (buffer_ rhs) (capacity_ rhs), Build nullptr 0)
  else (s, this, rhs).

(** ~RawMemory() *)
Definition dtor (this : t) (s : state) : state :=
  Deallocate (buffer_ this) s.

(** T& operator[](size_t index) noexcept: the element in the slot;
    [None] when the assert fails or the slot holds no element. *)
Definition index (this : t) (i : nat) : option T :=
  if decide (i < capacity_ this) then load (buffer_ this) i else None.

(** T* operator+(size_t offset) noexcept: the buffer and the offset into
    it; [None] when the assert fails.  The address one past the last slot
    is allowed.  The [const] overloads of [operator+], [operator[]] and
    [GetAddress] are the same functions. *)
Definition plus (this : t) (offset : nat) : option (ptr * nat) :=
  if decide (offset ≤ capacity_ this) then Some (buffer_ this, offset) else None.

(** void Swap(RawMemory& other) noexcept: [this] and [other] afterwards. *)
Definition Swap (this other : t) : t * t :=
  (Build (buffer_ other) (capacity_ other), Build (buffer_ this) (capacity_ this)).

(** T* GetAddress() noexcept *)
Definition GetAddress (this : t) : ptr := buffer_ this.

(** size_t Capacity() const *)
Definition Capacity (this : t) : nat := capacity_ this.

(** The object after a write through its buffer pointer left the region
    as [p]. *)
Definition written (this : t) (p : ptr) : t := Build p (capacity_ this).
End RawMemory.
Arguments t T : clear implicits.
Arguments Build {T} buffer_ capacity_.
End RawMemory.

(** ** class Vector<T> *)

(** The argument packs the header forwards to a constructor of [T]:
    [Args&&...] of [Emplace] and [EmplaceBack], and the [const T&] and
    [T&&] of [PushBack] and [Insert]. *)
Inductive args (T A : Type) : Type :=
| Forward (a : A)
| ConstRef (value : T)
| RvalueRef (value : T).
Arguments Forward {T A} a.
Arguments ConstRef {T A} value.
Arguments RvalueRef {T A} value.

Module Vector.
Section Vector.
Context {T A W : Type} `{!Allocator W} `{!Element T A W}.
Local Abbreviation state := (state T A W).
Local Abbreviation ptr := (ptr T).
Local Abbreviation RawMemory := (RawMemory.t T).

Record t : Type := Build {
  data_ : RawMemory;
  size_ : nat
}.

(** [new (place) T(std::forward<Args>(args)...)]: the constructor call.
    With a [T&&] the source belongs to the caller; what the move leaves in
    it is not the vector's concern. *)
Definition emplace (a : args T A) (s : state) : state * option T :=
  match a with
  | Forward a => elem.construct a s
  | ConstRef value => elem.copy_construct value s
  | RvalueRef value => let '(s1, _, r) := elem.move_construct value s in (s1, r)
  end.

(** Vector() = default *)
Definition default : t := Build RawMemory.default 0.

(** explicit Vector(size_t size) *)
Definition make (size : nat) (s : state) : state * outcome t :=
  match RawMemory.make size s with
  | (s1, Return data) =>
      match std.uninitialized_value_construct_n (RawMemory.GetAddress data) 0 size s1 with
      | (s2, p, Return _) => (s2, Return (Build (RawMemory.written data p) size))
      | (s2, p, o) => (RawMemory.dtor (RawMemory.written data p) s2, propagate o)
      end
  | (s1, o) => (s1, propagate o)
  end.

(** Vector(const Vector& other) *)
Definition copy_ctor (other : t) (s : state) : state * outcome t :=
  match RawMemory.make (size_ other) s with
  | (s1, Return data) =>
      match std.uninitialized_copy_n (RawMemory.GetAddress (data_ other)) 0 (size_ other)
              (RawMemory.GetAddress data) 0 s1 with
      | (s2, p, Return _) => (s2, Return (Build (RawMemory.written data p) (size_ other)))
      | (s2, p, o) => (RawMemory.dtor (RawMemory.written data p) s2, propagate o)
      end
  | (s1, o) => (s1, propagate o)
  end.

(** Vector(Vector&& other) noexcept: the new object and [other] afterwards. *)
Definition move_ctor (other : t) : t * t :=
  let '(data, other_data) := RawMemory.move_ctor (data_ other) in
  (Build data (size_ other), Build other_data 0).

(** ~Vector(), followed by the destructor of the member [data_]. *)
Definition dtor (this : t) (s : state) : state * outcome unit :=
  match std.destroy_n (RawMemory.GetAddress (data_ this)) 0 (size_ this) s with
  | (s1, p, Return _) => (RawMemory.dtor (RawMemory.written (data_ this) p) s1, Return tt)
  | (s1, p, o) => (s1, o)
  end.

(** void Swap(Vector& other) noexcept: [this] and [other] afterwards. *)
Definition Swap (this other : t) : t * t :=
  let '(data, other_data) := RawMemory.Swap (data_ this) (data_ other) in
  (Build data (size_ other), Build other_data (size_ this)).

(** size_t Size() const noexcept *)
Definition Size (this : t) : nat := size_ this.

(** size_t Capacity() const noexcept *)
Definition Capacity (this : t) : nat := RawMemory.Capacity (data_ this).

(** T& operator[](size_t index) noexcept *)
Definition index (this : t) (i : nat) : option T :=
  if decide (i < size_ this) then RawMemory.index (data_ this) i else None.

(** iterator begin() noexcept.  An iterator is a pointer into the block:
    the block and an offset into it. *)
Definition begin (this : t) : ptr * nat := (RawMemory.GetAddress (data_ this), 0).

(** iterator end() noexcept: [data_.GetAddress() + size_] *)
Definition end_ (this : t) : ptr * nat := (RawMemory.GetAddress (data_ this), size_ this).

(** const_iterator cbegin() const noexcept *)
Definition cbegin (this : t) : ptr * nat := (RawMemory.GetAddress (data_ this), 0).

(** const_iterator cend() const noexcept *)
Definition cend (this : t) : ptr * nat := (RawMemory.GetAddress (data_ this), size_ this).

(** const_iterator begin() const noexcept *)
Definition begin_const (this : t) : ptr * nat := cbegin this.

(** const_iterator end() const noexcept *)
Definition end_const (this : t) : ptr * nat := cend this.

(** The loops of the copy assignment,
    [for (size_t i = ...; i < bound; ++i) data_[i] = rhs.data_[i];]
    with [n] iterations to go. *)
Fixpoint assign_loop (data rhs_data : RawMemory) (i n : nat) (s : state)
  : state * RawMemory * outcome unit :=
  match n with
  | 0 => (s, data, Return tt)
  | S n' =>
      match RawMemory.index data i, RawMemory.index rhs_data i with
      | Some d, Some x =>
          let '(s1, d', ok) := elem.copy_assign d x s in
          let data1 := RawMemory.written data (poke (RawMemory.buffer_ data) i (Some d')) in
          if ok then assign_loop data1 rhs_data (S i) n' s1 else (s1, data1, Throw)
      | _, _ => (s, data, Abort)
      end
  end.

(** Vector& operator=(const Vector& rhs), inside [if (this != &rhs)]. *)
Definition copy_assign_body (this rhs : t) (s : state) : state * t * outcome unit :=
  if decide (RawMemory.Capacity (data_ this) < size_ rhs) then   (* rhs.size_ > data_.Capacity() *)
    match copy_ctor rhs s with
    | (s1, Return rhs_copy) =>
        let '(this1, rhs_copy1) := Swap this rhs_copy in
        let '(s2, o) := dtor rhs_copy1 s1 in
        (s2, this1, o)
    | (s1, o) => (s1, this, propagate o)
    end
  else if decide (size_ rhs < size_ this) then
    match assign_loop (data_ this) (data_ rhs) 0 (size_ rhs) s with
    | (s1, data1, Return _) =>
        match std.destroy_n (RawMemory.GetAddress data1) (size_ rhs)
                (size_ this - size_ rhs) s1 with
        | (s2, p, Return _) => (s2, Build (RawMemory.written data1 p) (size_ rhs), Return tt)
        | (s2, p, o) => (s2, Build (RawMemory.written data1 p) (size_ this), o)
        end
    | (s1, data1, o) => (s1, Build data1 (size_ this), o)
    end
  else
    match assign_loop (data_ this) (data_ rhs) 0 (size_ this) s with
    | (s1, data1, Return _) =>
        match std.uninitialized_copy_n (RawMemory.GetAddress (data_ rhs)) (size_ this)
                (size_ rhs - size_ this) (RawMemory.GetAddress data1) (size_ this) s1 with
        | (s2, p, Return _) => (s2, Build (RawMemory.written data1 p) (size_ rhs), Return tt)
        | (s2, p, o) => (s2, Build (RawMemory.written data1 p) (size_ this), o)
        end
    | (s1, data1, o) => (s1, Build data1 (size_ this), o)
    end.

(** Vector& operator=(Vector&& rhs) noexcept, inside [if (this != &rhs)]:
    [this] and [rhs] afterwards. *)
Definition move_assign_body (this rhs : t) (s : state) : state * t * t :=
  let '(s1, data, rhs_data) := RawMemory.move_assign false (data_ this) (data_ rhs) s in
  (s1, Build data (size_ rhs), Build rhs_data 0).

(** void UninitializedMoveOrCopy(InputIt first, InputIt last, OutputIt d_first) *)
Definition UninitializedMoveOrCopy (src : ptr) (first last : nat) (dst : ptr) (d_first : nat)
    (s : state) : state * ptr * ptr * outcome unit :=
  if is_nothrow_move_constructible_v || negb is_copy_constructible_v then
    std.uninitialized_move src first last dst d_first s
  else
    let '(s1, dst1, o) := std.uninitialized_copy src first last dst d_first s in
    (s1, src, dst1, o).

(** void UninitializedMoveOrCopyN(InputIt first, size_t size, OutputIt d_first) *)
Definition UninitializedMoveOrCopyN (src : ptr) (first size : nat) (dst : ptr) (d_first : nat)
    (s : state) : state * ptr * ptr * outcome unit :=
  if is_nothrow_move_constructible_v || negb is_copy_constructible_v then
    std.uninitialized_move_n src first size dst d_first s
  else
    let '(s1, dst1, o) := std.uninitialized_copy_n src first size dst d_first s in
    (s1, src, dst1, o).

(** void Reserve(size_t new_capacity) *)
Definition Reserve (new_capacity : nat) (this : t) (s : state) : state * t * outcome unit :=
  if decide (new_capacity ≤ RawMemory.Capacity (data_ this)) then (s, this, Return tt)
  else
    match RawMemory.make new_capacity s with
    | (s1, Return new_data) =>
        match UninitializedMoveOrCopyN (RawMemory.GetAddress (data_ this)) 0 (size_ this)
                (RawMemory.GetAddress new_data) 0 s1 with
        | (s2, p, q, Return _) =>
            match std.destroy_n p 0 (size_ this) s2 with
            | (s3, p3, Return _) =>
                let '(data, new_data1) :=
                  RawMemory.Swap (RawMemory.written (data_ this) p3)
                    (RawMemory.written new_data q) in
                (RawMemory.dtor new_data1 s3, Build data (size_ this), Return tt)
            | (s3, p3, o) => (s3, Build (RawMemory.written (data_ this) p3) (size_ this), o)
            end
        | (s2, p, q, o) =>
            (RawMemory.dtor (RawMemory.written new_data q) s2,
             Build (RawMemory.written (data_ this) p) (size_ this), o)
        end
    | (s1, o) => (s1, this, propagate o)
    end.

(** void Resize(size_t new_size) *)
Definition Resize (new_size : nat) (this : t) (s : state) : state * t * outcome unit :=
  if decide (new_size < size_ this) then
    match std.destroy_n (RawMemory.GetAddress (data_ this)) new_size
            (size_ this - new_size) s with
    | (s1, p, Return _) => (s1, Build (RawMemory.written (data_ this) p) new_size, Return tt)
    | (s1, p, o) => (s1, Build (RawMemory.written (data_ this) p) (size_ this), o)
    end
  else
    match Reserve new_size this s with
    | (s1, this1, Return _) =>
        match std.uninitialized_value_construct_n (RawMemory.GetAddress (data_ this1))
                (size_ this1) (new_size - size_ this1) s1 with
        | (s2, p, Return _) =>
            (s2, Build (RawMemory.written (data_ this1) p) new_size, Return tt)
        | (s2, p, o) => (s2, Build (RawMemory.written (data_ this1) p) (size_ this1), o)
        end
    | r => r
    end.

(** T& EmplaceBackImpl(Args&&... args); the reference returned is the
    offset of the slot it refers to. *)
Definition EmplaceBackImpl (a : args T A) (this : t) (s : state) : state * t * outcome nat :=
  let finish (s' : state) (this' : t) : state * t * outcome nat :=
    (* ++size_; return data_[size_ - 1]; *)
    let this1 := Build (data_ this') (S (size_ this')) in
    match RawMemory.index (data_ this1) (size_ this1 - 1) with
    | Some _ => (s', this1, Return (size_ this1 - 1))
    | None => (s', this1, Abort)
    end in
  if decide (size_ this < RawMemory.Capacity (data_ this)) then
    if decide (size_ this < extent (RawMemory.GetAddress (data_ this))) then
      match emplace a s with
      | (s1, Some x) =>
          finish s1 (Build (RawMemory.written (data_ this)
                             (poke (RawMemory.GetAddress (data_ this)) (size_ this) (Some x)))
                       (size_ this))
      | (s1, None) => (s1, this, Throw)
      end
    else (s, this, Abort)
  else
    match RawMemory.make (if decide (size_ this = 0) then 1 else size_ this * 2) s with
    | (s1, Return new_data) =>
        if decide (size_ this < extent (RawMemory.GetAddress new_data)) then
          match emplace a s1 with
          | (s2, Some x) =>
              match UninitializedMoveOrCopyN (RawMemory.GetAddress (data_ this)) 0 (size_ this)
                      (poke (RawMemory.GetAddress new_data) (size_ this) (Some x)) 0 s2 with
              | (s3, p, q, Return _) =>
                  match std.destroy_n p 0 (size_ this) s3 with
                  | (s4, p4, Return _) =>
                      let '(data, new_data1) :=
                        RawMemory.Swap (RawMemory.written (data_ this) p4)
                          (RawMemory.written new_data q) in
                      finish (RawMemory.dtor new_data1 s4) (Build data (size_ this))
                  | (s4, p4, o) =>
                      (s4, Build (RawMemory.written (data_ this) p4) (size_ this), propagate o)
                  end
              | (s3, p, q, Throw) =>
                  let '(s4, q4, _) := std.destroy_at q (size_ this) s3 in
                  (RawMemory.dtor (RawMemory.written new_data q4) s4,
                   Build (RawMemory.written (data_ this) p) (size_ this), Throw)
              | (s3, p, q, Abort) =>
                  (s3, Build (RawMemory.written (data_ this) p) (size_ this), Abort)
              end
          | (s2, None) => (RawMemory.dtor new_data s2, this, Throw)
          end
        else (s1, this, Abort)
    | (s1, o) => (s1, this, propagate o)
    end.

(** void PushBack(const T& value) *)
Definition PushBack (value : T) (this : t) (s : state) : state * t * outcome unit :=
  let '(s1, this1, o) := EmplaceBackImpl (ConstRef value) this s in
  (s1, this1, match o with Return _ => Return tt | _ => propagate o end).


(** T& EmplaceBack(Args&&... args) *)
Definition EmplaceBack (a : A) (this : t) (s : state) : state * t * outcome nat :=
  EmplaceBackImpl (Forward a) this s.

(** void PopBack() noexcept *)
Definition PopBack (this : t) (s : state) : state * t * outcome unit :=
  if decide (size_ this ≠ 0) then
    match std.destroy_at (RawMemory.GetAddress (data_ this)) (size_ this - 1) s with
    | (s1, p, Return _) =>
        (s1, Build (RawMemory.written (data_ this) p) (size_ this - 1), Return tt)
    | (s1, p, o) => (s1, this, o)
    end
  else (s, this, Abort).

(** iterator Emplace(const_iterator pos, Args&&... args); [pos] and the
    iterator returned are offsets from [begin()]. *)
Definition Emplace (pos : nat) (a : args T A) (this : t) (s : state)
  : state * t * outcome nat :=
  if decide (pos ≤ size_ this) then
    let pos_it := pos in
    if decide (size_ this < RawMemory.Capacity (data_ this)) then
      if decide (pos = size_ this) then
        if decide (size_ this < extent (RawMemory.GetAddress (data_ this))) then
          match emplace a s with
          | (s1, Some x) =>
              (s1,
               Build (RawMemory.written (data_ this)
                        (poke (RawMemory.GetAddress (data_ this)) (size_ this) (Some x)))
                 (S (size_ this)),
               Return pos_it)
          | (s1, None) => (s1, this, Throw)
          end
        else (s, this, Abort)
      else
        match emplace a s with                        (* T copy{args...}; *)
        | (s1, Some copy) =>
            (* new (begin() + size_) T(std::move(data_[size_ - 1])); *)
            match RawMemory.index (data_ this) (size_ this - 1) with
            | Some last =>
                if decide (size_ this < extent (RawMemory.GetAddress (data_ this))) then
                  match elem.move_construct last s1 with
                  | (s2, last', Some y) =>
                      let p2 := poke (poke (RawMemory.GetAddress (data_ this))
                                        (size_ this - 1) (Some last'))
                                  (size_ this) (Some y) in
                      match std.move_backward p2 pos_it (size_ this - 1) (size_ this) s2 with
                      | (s3, p3, Return _) =>
                          (* *pos_it = std::move(copy); *)
                          match load p3 pos_it with
                          | Some d =>
                              let '(s4, d', copy', ok) := elem.move_assign d copy s3 in
                              let p4 := poke p3 pos_it (Some d') in
                              if ok then
                                (elem.destroy copy' s4,
                                 Build (RawMemory.written (data_ this) p4) (S (size_ this)),
                                 Return pos_it)
                              else
                                (elem.destroy copy' s4,
                                 Build (RawMemory.written (data_ this) p4) (size_ this),
                                 Throw)
                          | None =>
                              (s3, Build (RawMemory.written (data_ this) p3) (size_ this), Abort)
                          end
                      | (s3, p3, Throw) =>
                          (* catch (...) { std::destroy_at(begin() + size_); throw; } *)
                          let '(s4, p4, _) := std.destroy_at p3 (size_ this) s3 in
                          (elem.destroy copy s4,
                           Build (RawMemory.written (data_ this) p4) (size_ this), Throw)
                      | (s3, p3, Abort) =>
                          (s3, Build (RawMemory.written (data_ this) p3) (size_ this), Abort)
                      end
                  | (s2, last', None) =>
                      (elem.destroy copy s2,
                       Build (RawMemory.written (data_ this)
                                (poke (RawMemory.GetAddress (data_ this))
                                   (size_ this - 1) (Some last')))
                         (size_ this),
                       Throw)
                  end
                else (s1, this, Abort)
            | None => (s1, this, Abort)
            end
        | (s1, None) => (s1, this, Throw)
        end
    else
      match RawMemory.make (if decide (size_ this = 0) then 1 else size_ this * 2) s with
      | (s1, Return new_data) =>
          if decide (pos < extent (RawMemory.GetAddress new_data)) then
            match emplace a s1 with
            | (s2, Some x) =>
                let new_pos_it := pos in
                match UninitializedMoveOrCopy (RawMemory.GetAddress (data_ this)) 0 pos_it
                        (poke (RawMemory.GetAddress new_data) pos (Some x)) 0 s2 with
                | (s3, p, q, Return _) =>
                    match UninitializedMoveOrCopy p pos_it (size_ this) q (pos_it + 1) s3 with
                    | (s4, p4, q4, Return _) =>
                        match std.destroy_n p4 0 (size_ this) s4 with
                        | (s5, p5, Return _) =>
                            let '(data, new_data1) :=
                              RawMemory.Swap (RawMemory.written (data_ this) p5)
                                (RawMemory.written new_data q4) in
                            (RawMemory.dtor new_data1 s5, Build data (S (size_ this)),
                             Return new_pos_it)
                        | (s5, p5, o) =>
                            (s5, Build (RawMemory.written (data_ this) p5) (size_ this),
                             propagate o)
                        end
                    | (s4, p4, q4, Throw) =>
                        (* catch (...) { std::destroy(new_data.GetAddress(), new_pos_it + 1); throw; } *)
                        let '(s5, q5, _) := std.destroy q4 0 (new_pos_it + 1) s4 in
                        (RawMemory.dtor (RawMemory.written new_data q5) s5,
                         Build (RawMemory.written (data_ this) p4) (size_ this), Throw)
                    | (s4, p4, q4, Abort) =>
                        (s4, Build (RawMemory.written (data_ this) p4) (size_ this), Abort)
                    end
                | (s3, p, q, Throw) =>
                    (* catch (...) { std::destroy_at(new_pos_it); throw; } *)
                    let '(s4, q4, _) := std.destroy_at q new_pos_it s3 in
                    (RawMemory.dtor (RawMemory.written new_data q4) s4,
                     Build (RawMemory.written (data_ this) p) (size_ this), Throw)
                | (s3, p, q, Abort) =>
                    (s3, Build (RawMemory.written (data_ this) p) (size_ this), Abort)
                end
            | (s2, None) => (RawMemory.dtor new_data s2, this, Throw)
            end
          else (s1, this, Abort)
      | (s1, o) => (s1, this, propagate o)
      end
  else (s, this, Abort).

(** iterator Erase(const_iterator pos) *)
Definition Erase (pos : nat) (this : t) (s : state) : state * t * outcome nat :=
  if decide (pos < size_ this) then
    let diff := pos in
    let pos_it := diff in
    match
      (if decide (pos ≠ size_ this - 1) then
         std.move (RawMemory.GetAddress (data_ this)) (pos_it + 1) (size_ this) pos_it s
       else (s, RawMemory.GetAddress (data_ this), Return tt))
    with
    | (s1, p, Return _) =>
        match PopBack (Build (RawMemory.written (data_ this) p) (size_ this)) s1 with
        | (s2, this2, Return _) => (s2, this2, Return diff)
        | (s2, this2, o) => (s2, this2, propagate o)
        end
    | (s1, p, o) => (s1, Build (RawMemory.written (data_ this) p) (size_ this), propagate o)
    end
  else (s, this, Abort).

(** iterator Insert(const_iterator pos, const T& value) *)
Definition Insert (pos : nat) (value : T) (this : t) (s : state) : state * t * outcome nat :=
  Emplace pos (ConstRef value) this s.

(** iterator Insert(const_iterator pos, T&& value) *)
Definition Insert_rvalue (pos : nat) (value : T) (this : t) (s : state)
  : state * t * outcome nat :=
  Emplace pos (RvalueRef value) this s.

(** *** Operations on two objects

    [this != &rhs] compares addresses: the objects live in a store and
    are named by their address there. *)

(** Vector& operator=(const Vector& rhs) *)
Definition copy_assign (this rhs : nat) (σ : gmap nat t) (s : state)
  : state * gmap nat t * outcome unit :=
  match σ !! this, σ !! rhs with
  | Some v, Some r =>
      if decide (this ≠ rhs) then
        let '(s1, v1, o) := copy_assign_body v r s in (s1, <[this := v1]> σ, o)
      else (s, σ, Return tt)
  | _, _ => (s, σ, Abort)
  end.

(** Vector& operator=(Vector&& rhs) noexcept *)
Definition move_assign (this rhs : nat) (σ : gmap nat t) (s : state)
  : state * gmap nat t * outcome unit :=
  match σ !! this, σ !! rhs with
  | Some v, Some r =>
      if decide (this ≠ rhs) then
        let '(s1, v1, r1) := move_assign_body v r s in
        (s1, <[rhs := r1]> (<[this := v1]> σ), Return tt)
      else (s, σ, Return tt)
  | _, _ => (s, σ, Abort)
  end.

(** void Swap(Vector& other) noexcept, on objects in the store *)
Definition Swap_at (this other : nat) (σ : gmap nat t) : option (gmap nat t) :=
  match σ !! this, σ !! other with
  | Some v, Some r =>
      let '(v1, r1) := Swap v r in Some (<[other := r1]> (<[this := v1]> σ))
  | _, _ => None
  end.
End Vector.
Arguments t T : clear implicits.
Arguments Build {T} data_ size_.
End Vector.

(** ** The abstract view of a vector *)

Section view.
Context {T A W : Type} `{!Allocator W} `{!Element T A W}.
Local Abbreviation state := (state T A W).

(** The vector that holds the elements [xs] in a block of [cap] slots. *)
Definition repr (xs : list T) (cap : nat) : Vector.t T :=
  Vector.Build
    (RawMemory.Build ((Some <$> xs) ++ replicate (cap - length xs) None) cap)
    (length xs).

(** A vector whose slot [size_] holds the constructed element [y] although
    it lies outside [[0, size_)]. *)
Definition torn (xs : list T) (y : T) (cap : nat) : Vector.t T :=
  Vector.Build
    (RawMemory.Build ((Some <$> xs) ++ Some y :: replicate (cap - S (length xs)) None) cap)
    (length xs).

(** The class invariant: [size_ <= capacity], the block has [capacity]
    slots, the slots [[0, size_)] hold constructed elements and the slots
    [[size_, capacity)] are uninitialized. *)
Definition invariant (v : Vector.t T) : Prop :=
  Vector.size_ v ≤ Vector.Capacity v ∧
  extent (RawMemory.buffer_ (Vector.data_ v)) = Vector.Capacity v ∧
  (∀ i, i < Vector.size_ v → is_Some (load (RawMemory.buffer_ (Vector.data_ v)) i)) ∧
  (∀ i, Vector.size_ v ≤ i < Vector.Capacity v →
        load (RawMemory.buffer_ (Vector.data_ v)) i = None).

(** The values of the elements at [[0, size_)]. *)
Definition elements (v : Vector.t T) : list T :=
  live (take (Vector.size_ v) (RawMemory.buffer_ (Vector.data_ v))).

(** The new capacity the growth paths ask for. *)
Definition grown (cap : nat) : nat := Nat.max 1 (2 * cap).

(** The request for a block of [n] slots: the new state and whether the
    block was granted. *)
Definition alloc (n : nat) (s : state) : state * bool :=
  if decide (n ≠ 0) then
    let '(w, ok) := operator_new n (world s) in (elem.log (EvNew n) s w, ok)
  else (s, true).

(** The release of a block of [cap] slots in which no element is left. *)
Definition release (cap : nat) (s : state) : state :=
  RawMemory.Deallocate (replicate cap None) s.

(** An event that releases a region in which elements are still
    constructed: their destructors can no longer run. *)
Definition leaks (e : event T A) : Prop :=
  match e with
  | EvDelete (_ :: _) => True
  | _ => False
  end.

(** No region has been released with constructed elements in it. *)
Definition leak_free (s : state) : Prop := Forall (λ e, ¬ leaks e) (trace s).

(** *** What the loops do to the element values

    Each function runs the calls of one loop on the values alone. *)

(** Destroy [xs] front to back. *)
Definition destroy_all (xs : list T) (s : state) : state :=
  foldl (λ s x, elem.destroy x s) s xs.

(** Value-initialize [n] elements; when one throws, the ones built are
    destroyed again, last first. *)
Fixpoint init_all (n : nat) (s : state) : state * option (list T) :=
  match n with
  | 0 => (s, Some [])
  | S n' =>
      match elem.value_init s with
      | (s1, Some y) =>
          match init_all n' s1 with
          | (s2, Some ys) => (s2, Some (y :: ys))
          | (s2, None) => (elem.destroy y s2, None)
          end
      | (s1, None) => (s1, None)
      end
  end.

(** Copy-construct from each of [xs]. *)
Fixpoint copy_all (xs : list T) (s : state) : state * option (list T) :=
  match xs with
  | [] => (s, Some [])
  | x :: xs' =>
      match elem.copy_construct x s with
      | (s1, Some y) =>
          match copy_all xs' s1 with
          | (s2, Some ys) => (s2, Some (y :: ys))
          | (s2, None) => (elem.destroy y s2, None)
          end
      | (s1, None) => (s1, None)
      end
  end.

(** Move-construct from each of [xs]; also what the moves leave of [xs]. *)
Fixpoint move_all (xs : list T) (s : state) : state * list T * option (list T) :=
  match xs with
  | [] => (s, [], Some [])
  | x :: xs' =>
      match elem.move_construct x s with
      | (s1, x', Some y) =>
          match move_all xs' s1 with
          | (s2, rs, Some ys) => (s2, x' :: rs, Some (y :: ys))
          | (s2, rs, None) => (elem.destroy y s2, x' :: rs, None)
          end
      | (s1, x', None) => (s1, x' :: xs', None)
      end
  end.

(** The migration of [UninitializedMoveOrCopy]: by move or by copy. *)
Definition migrates_by_move : bool :=
  is_nothrow_move_constructible_v || negb is_copy_constructible_v.

Definition migrate_all (xs : list T) (s : state) : state * list T * option (list T) :=
  if migrates_by_move then move_all xs s
  else let '(s1, r) := copy_all xs s in (s1, xs, r).

(** Copy-assign [xs] over [ds], element by element, up to the first
    assignment that throws. *)
Fixpoint assign_all (ds xs : list T) (s : state) : state * list T * bool :=
  match ds, xs with
  | d :: ds', x :: xs' =>
      let '(s1, d', ok) := elem.copy_assign d x s in
      if ok then
        let '(s2, r, ok2) := assign_all ds' xs' s1 in (s2, d' :: r, ok2)
      else (s1, d' :: ds', false)
  | _, _ => (s, ds, true)
  end.

(** Move-assign along a chain: [d] is assigned from the first of [xs],
    what is left of that one from the next, and so on. *)
Fixpoint move_chain (d : T) (xs : list T) (s : state) : state * list T * bool :=
  match xs with
  | [] => (s, [d], true)
  | x :: xs' =>
      let '(s1, d', x', ok) := elem.move_assign d x s in
      if ok then
        let '(s2, r, ok2) := move_chain x' xs' s1 in (s2, d' :: r, ok2)
      else (s1, d' :: x' :: xs', false)
  end.
End view.

(** *** Assumptions on an element type *)

(** [noexcept] on the move constructor means what it says. *)
Class NothrowSound (T A W : Type) `{!Element T A W} : Prop :=
  nothrow_move_sound :
    is_nothrow_move_constructible_v = true →
    ∀ x w, is_Some (move_construct x w).2.

(** Copies and moves carry the value over: a copy equals its source, a
    moved-to object equals what the source was. *)
Class ValueSemantics (T A W : Type) `{!Element T A W} : Prop := {
  copy_construct_value x w w' y : copy_construct x w = (w', Some y) → y = x;
  move_construct_value x w w' x' y : move_construct x w = (w', x', Some y) → y = x;
  copy_assign_value d x w w' d' : copy_assign d x w = (w', d', true) → d' = x;
  move_assign_value d x w w' d' x' : move_assign d x w = (w', d', x', true) → d' = x
}.

(** Nothing throws: neither the allocator nor the element type. *)
Class NeverThrows (T A W : Type) `{!Allocator W} `{!Element T A W} : Prop := {
  new_succeeds n w : (operator_new n w).2 = true;
  value_init_succeeds w : is_Some (value_init w).2;
  construct_succeeds a w : is_Some (construct a w).2;
  copy_construct_succeeds x w : is_Some (copy_construct x w).2;
  move_construct_succeeds x w : is_Some (move_construct x w).2;
  copy_assign_succeeds d x w : (copy_assign d x w).2 = true;
  move_assign_succeeds d x w : (move_assign d x w).2 = true
}.

(** ** Traversals, allocator calls and client loops *)

Section view_more.
Context {T A W : Type} `{!Allocator W} `{!Element T A W}.
Local Abbreviation state := (state T A W).

(** What the traversal [for (it = first; it != last; ++it)] of a range of
    one block reads through [*it]: the slots from [first] up to [last]. *)
Definition range (first last : ptr T * nat) : list (option T) :=
  (λ i, load first.1 i) <$> seq first.2 (last.2 - first.2).

(** [last - first] for two iterators into one block. *)
Definition distance (first last : ptr T * nat) : nat := last.2 - first.2.

(** The calls of the allocation functions a state has recorded. *)
Definition allocator_call (e : event T A) : bool :=
  match e with
  | EvNew _ | EvDelete _ => true
  | _ => false
  end.

Definition allocator_calls (s : state) : list (event T A) :=
  List.filter allocator_call (trace s).


(** The sizes of the blocks requested, most recent first. *)
Definition requests (s : state) : list nat :=
  omap (λ e, match e with EvNew n => Some n | _ => None end) (trace s).

(** The client loop [for (const T& x : values) v.PushBack(x);], up to the
    first call that does not return. *)
Fixpoint PushBack_all (values : list T) (this : Vector.t T) (s : state)
  : state * Vector.t T * outcome unit :=
  match values with
  | [] => (s, this, Return tt)
  | x :: rest =>
      match Vector.PushBack x this s with
      | (s1, this1, Return _) => PushBack_all rest this1 s1
      | r => r
      end
  end.

(** What a recorded call does to the number of elements alive: a
    constructor adds one, the destructor takes one away. *)
Definition lifetime_change (e : event T A) : Z :=
  match e with
  | EvValueInit | EvConstruct _ | EvCopy _ | EvMove _ => 1
  | EvDestroy _ => -1
  | _ => 0
  end.

(** The constructor calls minus the destructor calls a state has
    recorded. *)
Definition alive (s : state) : Z :=
  foldr (λ e n, (lifetime_change e + n)%Z) 0%Z (trace s).

(** The call that constructs the new element from the arguments of an
    [Emplace], [EmplaceBack], [PushBack] or [Insert]. *)
Definition emplace_event (a : args T A) : event T A :=
  match a with
  | Forward a => EvConstruct a
  | ConstRef value => EvCopy value
  | RvalueRef value => EvMove value
  end.

(** The slots an allocator that keeps count can still hand out. *)
Definition available (free : W → nat) (s : state) : nat := free (world s).

End view_more.

(** A quantity of the state that no operation of the element type
    changes. *)
Class ElemStable {T A W : Type} `{!Element T A W} {X : Type} (f : state T A W → X) : Prop := {
  stable_value_init s : f (elem.value_init s).1 = f s;
  stable_construct a s : f (elem.construct a s).1 = f s;
  stable_copy_construct x s : f (elem.copy_construct x s).1 = f s;
  stable_move_construct x s : f (elem.move_construct x s).1.1 = f s;
  stable_copy_assign d x s : f (elem.copy_assign d x s).1.1 = f s;
  stable_move_assign d x s : f (elem.move_assign d x s).1.1.1 = f s;
  stable_destroy x s : f (elem.destroy x s) = f s
}.

(** An allocator that keeps count: [free] is the number of slots it can
    still hand out.  A request that is granted takes its slots from the
    count, a refused request takes nothing, a release gives the slots back,
    and the operations of the element type leave the count alone. *)
Class Conserving (T A W : Type) `{!Allocator W} `{!Element T A W} (free : W → nat) : Prop := {
  free_new n w :
    free (operator_new n w).1 + (if (operator_new n w).2 then n else 0) = free w;
  free_delete n w : free (operator_delete n w) = free w + n;
  free_value_init w : free (value_init w).1 = free w;
  free_construct a w : free (construct a w).1 = free w;
  free_copy_construct x w : free (copy_construct x w).1 = free w;
  free_move_construct x w : free (move_construct x w).1.1 = free w;
  free_copy_assign d x w : free (copy_assign d x w).1.1 = free w;
  free_move_assign d x w : free (move_assign d x w).1.1.1 = free w;
  free_destroy x w : free (destroy x w) = free w
}.
(** ** A probe element type

    Elements are numbers; a moved-from element is [0].  The world counts
    down to an injected fault: with [faults = k > 0] the k-th operation
    that is able to throw does so, with [faults = 0] nothing throws.
    [heap] is the number of element slots the allocator can still hand
    out.  The two flags choose the traits of the type. *)

Module probe.
Record oracle : Type := Oracle {
  faults : nat;
  heap : nat
}.

Definition tick (w : oracle) : oracle * bool :=
  match faults w with
  | 0 => (w, false)
  | 1 => (Oracle 0 (heap w), true)
  | S k => (Oracle k (heap w), false)
  end.

#[export] Instance allocator : Allocator oracle := {
  operator_new n w :=
    if decide (n ≤ heap w) then (Oracle (faults w) (heap w - n), true) else (w, false);
  operator_delete n w := Oracle (faults w) (heap w + n)
}.

Definition element (nothrow_move copyable : bool) : Element nat nat oracle := {|
  value_init w := let '(w1, thrown) := tick w in (w1, if thrown then None else Some 0);
  construct a w := let '(w1, thrown) := tick w in (w1, if thrown then None else Some a);
  copy_construct x w := let '(w1, thrown) := tick w in (w1, if thrown then None else Some x);
  move_construct x w :=
    if nothrow_move then (w, 0, Some x)
    else let '(w1, thrown) := tick w in
         if thrown then (w1, x, None) else (w1, 0, Some x);
  copy_assign d x w := let '(w1, thrown) := tick w in (w1, if thrown then d else x, negb thrown);
  move_assign d x w :=
    let '(w1, thrown) := tick w in
    if thrown then (w1, d, x, false) else (w1, x, 0, true);
  destroy x w := w;
  is_nothrow_move_constructible_v := nothrow_move;
  is_copy_constructible_v := copyable
|}.

(** A state with nothing recorded yet. *)
Definition start (faults heap : nat) : state nat nat oracle := State (Oracle faults heap) [].

(** A vector holding [xs] in a block of [cap] slots. *)
Definition vec (xs : list nat) (cap : nat) : Vector.t nat :=
  Vector.Build
    (RawMemory.Build
       ((Some <$> xs) ++ replicate (cap - length xs) None) cap)
    (length xs).

(** An element type and an allocator that never throw: plain numbers. *)
#[export] Instance plain_allocator : Allocator unit := {
  operator_new n w := (w, true);
  operator_delete n w := w
}.

Definition plain : Element nat nat unit := {|
  value_init w := (w, Some 0);
  construct a w := (w, Some a);
  copy_construct x w := (w, Some x);
  move_construct x w := (w, x, Some x);
  copy_assign d x w := (w, x, true);
  move_assign d x w := (w, x, x, true);
  destroy x w := w;
  is_nothrow_move_constructible_v := true;
  is_copy_constructible_v := true
|}.

Definition plain_start : state nat nat unit := State tt [].
End probe.

(** ** Proof automation *)

(** Unfolds the accessors of [RawMemory] and [Vector] on records written
    out. *)
Ltac simp_repr :=
  unfold repr, Vector.Capacity, RawMemory.GetAddress, RawMemory.Capacity,
    RawMemory.written, RawMemory.Swap, RawMemory.dtor;
  cbn [Vector.data_ Vector.size_ RawMemory.buffer_ RawMemory.capacity_ app].

(** Normalises lengths and the bracketing of appended lists. *)
Ltac list_norm :=
  repeat progress
    (rewrite ?fmap_app, ?length_app, ?length_fmap, ?length_replicate, ?length_take,
       ?length_drop, ?length_rev, <- ?app_assoc;
     cbn [length fmap list_fmap app] in *).

(** Closes an equation between two vectors that differ in how their
    block and size are written. *)
Ltac repr_solve :=
  simp_repr; list_norm; rewrite ?app_nil_r, <- ?replicate_add;
  repeat match goal with
         | |- @eq nat _ _ => lia
         | |- context [?x :: replicate ?k ?x] =>
             change (x :: replicate k x) with (replicate (S k) x)
         | |- context [replicate _ ?x ++ replicate _ ?x] => rewrite <- replicate_add
         | |- RawMemory.Deallocate _ _ = RawMemory.Deallocate _ _ => progress f_equal
         | |- context [replicate ?k _] =>
             progress (replace k with 0 by lia); cbn [replicate]; rewrite ?app_nil_r
         | |- @eq (list _) _ _ => progress f_equal
         | |- @eq (Vector.t _) _ _ => progress f_equal
         | |- @eq (RawMemory.t _) _ _ => progress f_equal
         end.

(** * Proofs *)

(** ** Slots *)

Section slots.
Context {T : Type}.
Implicit Types (l r p : ptr T) (o : option T) (xs : list T).

Lemma load_middle l o r i : i = length l → load (l ++ o :: r) i = o.
Proof. intros ->. unfold load. by rewrite list_lookup_middle. Qed.

Lemma poke_middle l o o' r i : i = length l → poke (l ++ o :: r) i o' = l ++ o' :: r.
Proof.
  intros ->. unfold poke.
  replace (length l) with (length l + 0) by lia.
  by rewrite insert_app_r.
Qed.

Lemma extent_middle l o r i : i = length l → i < extent (l ++ o :: r).
Proof. intros ->. unfold extent. rewrite length_app. simpl. lia. Qed.

Lemma snoc_middle {X} (k : list X) a k' : k ++ a :: k' = (k ++ [a]) ++ k'.
Proof. by rewrite <- app_assoc. Qed.

Lemma length_snoc {X} (k : list X) a : length (k ++ [a]) = S (length k).
Proof. rewrite length_app. simpl. lia. Qed.

Lemma live_app l r : live (l ++ r) = live l ++ live r.
Proof. unfold live. apply omap_app. Qed.

Lemma live_Some xs : live (Some <$> xs) = xs.
Proof. unfold live. induction xs as [|x xs IH]; [done|]. cbn. by f_equal. Qed.

Lemma live_None n : live (replicate n (@None T)) = [].
Proof. unfold live. induction n as [|n IH]; [done|]. by cbn. Qed.
End slots.

(** ** The library loops on the values *)

Section loops.
Context {T A W : Type} `{!Allocator W} `{!Element T A W}.
Local Abbreviation state := (state T A W).
Implicit Types (l r : ptr T) (xs ys : list T) (s : state).

Lemma destroy_all_cons x xs s : destroy_all (x :: xs) s = destroy_all xs (elem.destroy x s).
Proof. done. Qed.

Lemma destroy_all_app xs ys s : destroy_all (xs ++ ys) s = destroy_all ys (destroy_all xs s).
Proof. unfold destroy_all. apply foldl_app. Qed.

Lemma destroy_at_spec l x r i s :
  i = length l →
  std.destroy_at (l ++ Some x :: r) i s = (elem.destroy x s, l ++ None :: r, Return tt).
Proof.
  intros Hi. unfold std.destroy_at.
  by rewrite load_middle, poke_middle.
Qed.

Lemma destroy_n_spec xs : ∀ l r i s,
  i = length l →
  std.destroy_n (l ++ (Some <$> xs) ++ r) i (length xs) s
  = (destroy_all xs s, l ++ replicate (length xs) None ++ r, Return tt).
Proof.
  induction xs as [|x xs IH]; intros l r i s Hi; [done|].
  cbn [length fmap list_fmap app std.destroy_n replicate].
  rewrite destroy_at_spec by done.
  rewrite snoc_middle, IH by (rewrite length_snoc; lia).
  by rewrite <- snoc_middle.
Qed.

Lemma uninitialized_value_construct_n_spec n : ∀ l r i s,
  i = length l →
  std.uninitialized_value_construct_n (l ++ replicate n None ++ r) i n s
  = match init_all n s with
    | (s', Some ys) => (s', l ++ (Some <$> ys) ++ r, Return tt)
    | (s', None) => (s', l ++ replicate n None ++ r, Throw)
    end.
Proof.
  induction n as [|n IH]; intros l r i s Hi; [done|].
  cbn [std.uninitialized_value_construct_n init_all replicate app].
  rewrite decide_True by by apply extent_middle.
  destruct (elem.value_init s) as [s1 [y|]]; [|done].
  rewrite poke_middle by done.
  rewrite snoc_middle, IH by (rewrite length_snoc; lia).
  destruct (init_all n s1) as [s2 [ys|]].
  - by rewrite <- snoc_middle.
  - rewrite <- snoc_middle. by rewrite destroy_at_spec.
Qed.

Lemma uninitialized_copy_n_spec xs : ∀ l1 r1 l2 r2 i j s,
  i = length l1 → j = length l2 →
  std.uninitialized_copy_n (l1 ++ (Some <$> xs) ++ r1) i (length xs)
    (l2 ++ replicate (length xs) None ++ r2) j s
  = match copy_all xs s with
    | (s', Some ys) => (s', l2 ++ (Some <$> ys) ++ r2, Return tt)
    | (s', None) => (s', l2 ++ replicate (length xs) None ++ r2, Throw)
    end.
Proof.
  induction xs as [|x xs IH]; intros l1 r1 l2 r2 i j s Hi Hj; [done|].
  cbn [std.uninitialized_copy_n copy_all replicate app length fmap list_fmap].
  rewrite load_middle by done.
  rewrite decide_True by by apply extent_middle.
  destruct (elem.copy_construct x s) as [s1 [y|]]; [|done].
  rewrite poke_middle by done.
  rewrite (snoc_middle l1), (snoc_middle l2), IH by (rewrite length_snoc; lia).
  destruct (copy_all xs s1) as [s2 [ys|]].
  - by rewrite <- snoc_middle.
  - rewrite <- snoc_middle. by rewrite destroy_at_spec.
Qed.

Lemma uninitialized_move_n_spec xs : ∀ l1 r1 l2 r2 i j s,
  i = length l1 → j = length l2 →
  std.uninitialized_move_n (l1 ++ (Some <$> xs) ++ r1) i (length xs)
    (l2 ++ replicate (length xs) None ++ r2) j s
  = match move_all xs s with
    | (s', rs, Some ys) =>
        (s', l1 ++ (Some <$> rs) ++ r1, l2 ++ (Some <$> ys) ++ r2, Return tt)
    | (s', rs, None) =>
        (s', l1 ++ (Some <$> rs) ++ r1, l2 ++ replicate (length xs) None ++ r2, Throw)
    end.
Proof.
  induction xs as [|x xs IH]; intros l1 r1 l2 r2 i j s Hi Hj; [done|].
  cbn [std.uninitialized_move_n move_all replicate app length fmap list_fmap].
  rewrite load_middle by done.
  rewrite decide_True by by apply extent_middle.
  destruct (elem.move_construct x s) as [[s1 x'] [y|]].
  - rewrite !poke_middle by done.
    rewrite (snoc_middle l1), (snoc_middle l2), IH by (rewrite length_snoc; lia).
    destruct (move_all xs s1) as [[s2 rs] [ys|]].
    + by rewrite <- !snoc_middle.
    + rewrite <- !snoc_middle. by rewrite destroy_at_spec.
  - by rewrite poke_middle.
Qed.

Lemma move_loop_spec xs : ∀ l d r i j s,
  j = length l → i = S j →
  std.move_loop (l ++ Some d :: (Some <$> xs) ++ r) i j (length xs) s
  = let '(s', vs, ok) := move_chain d xs s in
    (s', l ++ (Some <$> vs) ++ r, if ok then Return tt else Throw).
Proof.
  induction xs as [|x xs IH]; intros l d r i j s Hj Hi; [done|].
  cbn [std.move_loop move_chain length fmap list_fmap app].
  rewrite (snoc_middle l), load_middle by (rewrite length_snoc; lia).
  rewrite <- snoc_middle, load_middle by done.
  destruct (elem.move_assign d x s) as [[[s1 d'] x'] ok].
  rewrite (snoc_middle l), poke_middle by (rewrite length_snoc; lia).
  rewrite <- snoc_middle, poke_middle by done.
  destruct ok; [|done].
  rewrite (snoc_middle l), IH by (rewrite ?length_snoc; lia).
  destruct (move_chain x' xs s1) as [[s2 vs] ok2].
  by rewrite <- snoc_middle.
Qed.

Lemma move_backward_loop_spec ys : ∀ l d r i j s,
  i = length l + length ys → j = S i →
  std.move_backward_loop (l ++ (Some <$> rev ys) ++ Some d :: r) i j (length ys) s
  = let '(s', vs, ok) := move_chain d ys s in
    (s', l ++ (Some <$> rev vs) ++ r, if ok then Return tt else Throw).
Proof.
  induction ys as [|x ys IH]; intros l d r i j s Hi Hj.
  { cbn. done. }
  cbn [std.move_backward_loop move_chain length rev].
  rewrite fmap_app. cbn [fmap list_fmap].
  rewrite <- (app_assoc (Some <$> rev ys)). cbn [app].
  assert (Hlen : length (l ++ (Some <$> rev ys)) = length l + length ys)
    by by rewrite length_app, length_fmap, length_rev.
  rewrite (app_assoc l), load_middle by (rewrite Hlen; simpl in *; lia).
  rewrite (snoc_middle (l ++ _)), load_middle
    by (rewrite length_snoc, Hlen; simpl in *; lia).
  destruct (elem.move_assign d x s) as [[[s1 d'] x'] ok].
  rewrite <- snoc_middle, poke_middle by (rewrite Hlen; simpl in *; lia).
  rewrite (snoc_middle (l ++ _)), poke_middle
    by (rewrite length_snoc, Hlen; simpl in *; lia).
  rewrite <- snoc_middle, <- app_assoc.
  destruct ok.
  - rewrite IH by (simpl in *; lia).
    destruct (move_chain x' ys s1) as [[s2 vs] ok2].
    cbn [rev]. rewrite fmap_app, <- app_assoc. done.
  - cbn [rev]. rewrite !fmap_app, <- !app_assoc. done.
Qed.

Lemma assign_loop_spec ds : ∀ xs l r l' r' cap cap' i s,
  i = length l → i = length l' → length xs = length ds →
  i + length ds ≤ cap → i + length ds ≤ cap' →
  Vector.assign_loop (RawMemory.Build (l ++ (Some <$> ds) ++ r) cap)
    (RawMemory.Build (l' ++ (Some <$> xs) ++ r') cap') i (length ds) s
  = let '(s', ds', ok) := assign_all ds xs s in
    (s', RawMemory.Build (l ++ (Some <$> ds') ++ r) cap,
     if ok then Return tt else Throw).
Proof.
  induction ds as [|d ds IH]; intros xs l r l' r' cap cap' i s Hl Hl' Hlen Hc Hc'.
  { by destruct xs. }
  destruct xs as [|x xs]; [done|].
  cbn [Vector.assign_loop assign_all length fmap list_fmap app] in *.
  unfold RawMemory.index. cbn [RawMemory.buffer_ RawMemory.capacity_].
  rewrite !decide_True by lia.
  rewrite !load_middle by done.
  destruct (elem.copy_assign d x s) as [[s1 d'] ok].
  unfold RawMemory.written. cbn [RawMemory.buffer_ RawMemory.capacity_].
  rewrite poke_middle by done.
  destruct ok; [|done].
  rewrite (snoc_middle l), (snoc_middle l'), IH by (rewrite ?length_snoc; lia).
  destruct (assign_all ds xs s1) as [[s2 ds'] ok2].
  by rewrite <- snoc_middle.
Qed.
End loops.

(** ** Lengths *)

Section lengths.
Context {T A W : Type} `{!Allocator W} `{!Element T A W}.
Local Abbreviation state := (state T A W).
Implicit Types (xs ys ds rs : list T) (s : state).

Lemma init_all_length n : ∀ s s' ys, init_all n s = (s', Some ys) → length ys = n.
Proof.
  induction n as [|n IH]; intros s s' ys; cbn [init_all].
  { by intros [= <- <-]. }
  destruct (elem.value_init s) as [s1 [y|]]; [|done].
  destruct (init_all n s1) as [s2 [zs|]] eqn:E; [|done].
  intros [= <- <-]. cbn. f_equal. eauto.
Qed.

Lemma copy_all_length xs : ∀ s s' ys, copy_all xs s = (s', Some ys) → length ys = length xs.
Proof.
  induction xs as [|x xs IH]; intros s s' ys; cbn [copy_all].
  { by intros [= <- <-]. }
  destruct (elem.copy_construct x s) as [s1 [y|]]; [|done].
  destruct (copy_all xs s1) as [s2 [zs|]] eqn:E; [|done].
  intros [= <- <-]. cbn. f_equal. eauto.
Qed.

Lemma move_all_length xs : ∀ s s' rs r,
  move_all xs s = (s', rs, r) →
  length rs = length xs ∧ ∀ ys, r = Some ys → length ys = length xs.
Proof.
  induction xs as [|x xs IH]; intros s s' rs r; cbn [move_all].
  { intros [= <- <- <-]. split; [done|]. by intros ys [= <-]. }
  destruct (elem.move_construct x s) as [[s1 x'] [y|]].
  - destruct (move_all xs s1) as [[s2 rs'] [zs|]] eqn:E;
      intros [= <- <- <-]; destruct (IH _ _ _ _ E) as [H1 H2]; cbn.
    + split; [lia|]. intros ys [= <-]. cbn. f_equal. eauto.
    + split; [lia|done].
  - intros [= <- <- <-]. done.
Qed.

Lemma migrate_all_length xs s s' rs r :
  migrate_all xs s = (s', rs, r) →
  length rs = length xs ∧ ∀ ys, r = Some ys → length ys = length xs.
Proof.
  unfold migrate_all. destruct migrates_by_move.
  - apply move_all_length.
  - destruct (copy_all xs s) as [s1 r1] eqn:E. intros [= <- <- <-].
    split; [done|]. intros ys ->. eauto using copy_all_length.
Qed.

Lemma assign_all_length ds : ∀ xs s s' ds' ok,
  assign_all ds xs s = (s', ds', ok) → length ds' = length ds.
Proof.
  induction ds as [|d ds IH]; intros xs s s' ds' ok; cbn [assign_all].
  { by intros [= <- <- <-]. }
  destruct xs as [|x xs]; [by intros [= <- <- <-]|].
  destruct (elem.copy_assign d x s) as [[s1 d'] ok1].
  destruct ok1; [|by intros [= <- <- <-]].
  destruct (assign_all ds xs s1) as [[s2 r] ok2] eqn:E.
  intros [= <- <- <-]. cbn. f_equal. eauto.
Qed.

Lemma move_chain_length xs : ∀ d s s' vs ok,
  move_chain d xs s = (s', vs, ok) → length vs = S (length xs).
Proof.
  induction xs as [|x xs IH]; intros d s s' vs ok; cbn [move_chain].
  { by intros [= <- <- <-]. }
  destruct (elem.move_assign d x s) as [[[s1 d'] x'] ok1].
  destruct ok1; [|by intros [= <- <- <-]].
  destruct (move_chain x' xs s1) as [[s2 r] ok2] eqn:E.
  intros [= <- <- <-]. cbn. f_equal. eauto.
Qed.
End lengths.

(** ** The methods on the abstract view *)

Section methods.
Context {T A W : Type} `{!Allocator W} `{!Element T A W}.
Local Abbreviation state := (state T A W).
Implicit Types (xs ys ds rs : list T) (s : state) (v : Vector.t T).

Lemma repr_eq ys cap n :
  length ys = n →
  Vector.Build (RawMemory.Build ((Some <$> ys) ++ replicate (cap - n) None) cap) n
  = repr ys cap.
Proof. by intros <-. Qed.

Lemma repr_nil cap :
  repr (@nil T) cap = Vector.Build (RawMemory.Build (replicate cap None) cap) 0.
Proof. unfold repr. cbn. by rewrite Nat.sub_0_r. Qed.

Lemma RawMemory_make_spec n s :
  RawMemory.make n s
  = let '(s1, ok) := alloc n s in
    if ok then (s1, Return (RawMemory.Build (replicate n None) n)) else (s1, Throw).
Proof.
  unfold RawMemory.make, RawMemory.Allocate, alloc.
  destruct (decide (n ≠ 0)) as [Hn|Hn].
  - by destruct (operator_new n (world s)) as [w [|]].
  - by replace n with 0 by lia.
Qed.

Lemma UninitializedMoveOrCopyN_spec xs r1 r2 s :
  Vector.UninitializedMoveOrCopyN ((Some <$> xs) ++ r1) 0 (length xs)
    (replicate (length xs) None ++ r2) 0 s
  = match migrate_all xs s with
    | (s', rs, Some ys) => (s', (Some <$> rs) ++ r1, (Some <$> ys) ++ r2, Return tt)
    | (s', rs, None) => (s', (Some <$> rs) ++ r1, replicate (length xs) None ++ r2, Throw)
    end.
Proof.
  unfold Vector.UninitializedMoveOrCopyN, migrate_all, migrates_by_move.
  destruct (_ || _).
  - apply (uninitialized_move_n_spec xs [] r1 [] r2); done.
  - rewrite (uninitialized_copy_n_spec xs [] r1 [] r2) by done.
    by destruct (copy_all xs s) as [s1 [ys|]].
Qed.

Lemma replicate_split (n m : nat) :
  n ≤ m → replicate m (@None T) = replicate n None ++ replicate (m - n) None.
Proof. intros H. rewrite <- replicate_add. f_equal. lia. Qed.

Lemma destroy_n_prefix xs (r : ptr T) n s :
  length xs = n →
  std.destroy_n ((Some <$> xs) ++ r) 0 n s
  = (destroy_all xs s, replicate n None ++ r, Return tt).
Proof. intros <-. exact (destroy_n_spec xs [] r 0 s eq_refl). Qed.

Lemma uninitialized_value_construct_n_prefix n (r : ptr T) s :
  std.uninitialized_value_construct_n (replicate n None ++ r) 0 n s
  = match init_all n s with
    | (s', Some ys) => (s', (Some <$> ys) ++ r, Return tt)
    | (s', None) => (s', replicate n None ++ r, Throw)
    end.
Proof. exact (uninitialized_value_construct_n_spec n [] r 0 s eq_refl). Qed.

Lemma uninitialized_copy_n_prefix xs (r1 r2 : ptr T) s :
  std.uninitialized_copy_n ((Some <$> xs) ++ r1) 0 (length xs)
    (replicate (length xs) None ++ r2) 0 s
  = match copy_all xs s with
    | (s', Some ys) => (s', (Some <$> ys) ++ r2, Return tt)
    | (s', None) => (s', replicate (length xs) None ++ r2, Throw)
    end.
Proof. exact (uninitialized_copy_n_spec xs [] r1 [] r2 0 0 s eq_refl eq_refl). Qed.

Lemma Reserve_noop n v s :
  n ≤ Vector.Capacity v → Vector.Reserve n v s = (s, v, Return tt).
Proof. intros H. unfold Vector.Reserve. by rewrite decide_True. Qed.

Lemma Reserve_grow xs cap n s :
  length xs ≤ cap → cap < n →
  Vector.Reserve n (repr xs cap) s
  = let '(s1, ok) := alloc n s in
    if ok then
      match migrate_all xs s1 with
      | (s2, rs, Some ys) => (release cap (destroy_all rs s2), repr ys n, Return tt)
      | (s2, rs, None) => (release n s2, repr rs cap, Throw)
      end
    else (s1, repr xs cap, Throw).
Proof.
  intros Hle Hlt. unfold Vector.Reserve. simp_repr.
  rewrite decide_False by lia. rewrite RawMemory_make_spec.
  destruct (alloc n s) as [s1 [|]]; [|done]. simp_repr.
  rewrite (replicate_split (length xs) n) by lia.
  rewrite UninitializedMoveOrCopyN_spec.
  destruct (migrate_all xs s1) as [[s2 rs] [ys|]] eqn:E;
    apply migrate_all_length in E as [Hrs Hys].
  - rewrite destroy_n_prefix by done. simp_repr.
    unfold release. rewrite (replicate_split (length xs) cap) by lia.
    by rewrite repr_eq by eauto.
  - simp_repr. unfold release.
    rewrite <- (replicate_split (length xs) n) by lia.
    by rewrite repr_eq.
Qed.

Lemma replicate_room (n m : nat) :
  n < m → replicate (m - n) (@None T) = None :: replicate (m - S n) None.
Proof. intros H. replace (m - n) with (S (m - S n)) by lia. done. Qed.

Lemma replicate_hole (n m : nat) :
  n < m → replicate m (@None T) = replicate n None ++ None :: replicate (m - S n) None.
Proof.
  intros H. rewrite (replicate_split n m) by lia. by rewrite replicate_room.
Qed.

Lemma repr_snoc xs x cap n :
  length xs = n →
  Vector.Build
    (RawMemory.Build ((Some <$> xs) ++ Some x :: replicate (cap - S n) None) cap) (S n)
  = repr (xs ++ [x]) cap.
Proof.
  intros <-. unfold repr. rewrite fmap_app, length_app, <- app_assoc. cbn [length fmap list_fmap app].
  by replace (length xs + 1) with (S (length xs)) by lia.
Qed.

Lemma extent_repr xs cap :
  length xs ≤ cap → extent ((Some <$> xs) ++ replicate (cap - length xs) (@None T)) = cap.
Proof.
  intros H. unfold extent. rewrite length_app, length_fmap, length_replicate. lia.
Qed.

Lemma growth_eq n : (if decide (n = 0) then 1 else n * 2) = grown n.
Proof. unfold grown. case_decide; lia. Qed.

Lemma grown_gt n : n < grown n.
Proof. unfold grown. lia. Qed.

Lemma EmplaceBackImpl_room a xs cap s :
  length xs < cap →
  Vector.EmplaceBackImpl a (repr xs cap) s
  = match Vector.emplace a s with
    | (s1, Some x) => (s1, repr (xs ++ [x]) cap, Return (length xs))
    | (s1, None) => (s1, repr xs cap, Throw)
    end.
Proof.
  intros Hlt. unfold Vector.EmplaceBackImpl. simp_repr.
  rewrite decide_True by done.
  rewrite decide_True by (rewrite extent_repr; lia).
  destruct (Vector.emplace a s) as [s1 [x|]]; [|done].
  rewrite replicate_room by done.
  rewrite poke_middle by by rewrite length_fmap.
  unfold RawMemory.index. simp_repr.
  rewrite decide_True by lia.
  rewrite load_middle by (rewrite length_fmap; lia).
  rewrite repr_snoc by done. do 2 f_equal. lia.
Qed.

Lemma EmplaceBackImpl_full a xs s :
  Vector.EmplaceBackImpl a (repr xs (length xs)) s
  = let '(s1, ok) := alloc (grown (length xs)) s in
    if ok then
      match Vector.emplace a s1 with
      | (s2, Some x) =>
          match migrate_all xs s2 with
          | (s3, rs, Some ys) =>
              (release (length xs) (destroy_all rs s3),
               repr (ys ++ [x]) (grown (length xs)), Return (length xs))
          | (s3, rs, None) =>
              (release (grown (length xs)) (elem.destroy x s3), repr rs (length xs), Throw)
          end
      | (s2, None) => (release (grown (length xs)) s2, repr xs (length xs), Throw)
      end
    else (s1, repr xs (length xs), Throw).
Proof.
  unfold Vector.EmplaceBackImpl. simp_repr.
  rewrite decide_False by lia.
  rewrite growth_eq, RawMemory_make_spec.
  pose proof (grown_gt (length xs)) as Hg.
  destruct (alloc (grown (length xs)) s) as [s1 [|]]; [|done]. simp_repr.
  rewrite decide_True by (unfold extent; rewrite length_replicate; lia).
  destruct (Vector.emplace a s1) as [s2 [x|]]; [|done].
  rewrite (replicate_hole (length xs) (grown (length xs))) by done.
  rewrite poke_middle by by rewrite length_replicate.
  rewrite UninitializedMoveOrCopyN_spec.
  destruct (migrate_all xs s2) as [[s3 rs] [ys|]] eqn:E;
    apply migrate_all_length in E as [Hrs Hys].
  - specialize (Hys ys eq_refl).
    rewrite destroy_n_prefix by done. simp_repr.
    unfold RawMemory.index. simp_repr.
    rewrite decide_True by lia.
    rewrite load_middle by (rewrite length_fmap; lia).
    rewrite repr_snoc by done. unfold release.
    rewrite Nat.sub_diag, app_nil_r. do 2 f_equal. lia.
  - rewrite destroy_at_spec by by rewrite length_replicate.
    simp_repr. unfold release.
    rewrite <- replicate_hole by done.
    by rewrite repr_eq.
Qed.

Lemma elements_repr xs cap : elements (repr xs cap) = xs.
Proof.
  unfold elements. simp_repr.
  rewrite take_app_length' by by rewrite length_fmap.
  apply live_Some.
Qed.

Lemma PopBack_spec xs x cap s :
  length xs < cap →
  Vector.PopBack (repr (xs ++ [x]) cap) s = (elem.destroy x s, repr xs cap, Return tt).
Proof.
  intros Hlt. rewrite <- (repr_snoc xs x cap (length xs) eq_refl).
  unfold Vector.PopBack. simp_repr.
  rewrite decide_True by lia.
  rewrite destroy_at_spec by (rewrite length_fmap; lia).
  simp_repr. rewrite <- replicate_room by done.
  by replace (S (length xs) - 1) with (length xs) by lia.
Qed.

Lemma PopBack_empty cap s :
  Vector.PopBack (repr (@nil T) cap) s = (s, repr [] cap, Abort).
Proof. done. Qed.

Lemma Erase_spec l d r cap s :
  length (l ++ d :: r) ≤ cap →
  Vector.Erase (length l) (repr (l ++ d :: r) cap) s
  = let '(s1, vs, ok) := move_chain d r s in
    if ok then
      (elem.destroy (List.last vs d) s1, repr (l ++ List.removelast vs) cap, Return (length l))
    else (s1, repr (l ++ vs) cap, Throw).
Proof.
  intros Hle. rewrite length_app in Hle. cbn [length] in Hle.
  unfold Vector.Erase.
  assert (Hsz : Vector.size_ (repr (l ++ d :: r) cap) = length l + S (length r))
    by (cbn; by rewrite length_app).
  rewrite Hsz. rewrite decide_True by lia.
  destruct r as [|x r].
  - (* the last element: nothing moves *)
    rewrite decide_False by (cbn; lia).
    cbn [move_chain List.last List.removelast].
    replace (Vector.Build _ _) with (repr (l ++ [d]) cap).
    2:{ unfold repr. simp_repr. rewrite length_app. cbn. done. }
    rewrite PopBack_spec by (cbn in *; lia).
    by rewrite app_nil_r.
  - rewrite decide_True by (cbn; lia).
    unfold std.move. simp_repr.
    replace (length l + S (length (x :: r)) - (length l + 1)) with (length (x :: r))
      by (cbn; lia).
    rewrite fmap_app, <- app_assoc. cbn [fmap list_fmap app].
    change (Some x :: (Some <$> r) ++ ?k) with ((Some <$> x :: r) ++ k).
    rewrite move_loop_spec by (rewrite ?length_fmap; lia).
    destruct (move_chain d (x :: r) s) as [[s1 vs] ok] eqn:E.
    pose proof (move_chain_length _ _ _ _ _ _ E) as Hvs.
    destruct ok.
    + assert (Hne : vs ≠ []) by (intros ->; done).
      rewrite (app_removelast_last d Hne) at 1.
      assert (Hrl : length (List.removelast vs) = length (x :: r)).
      { rewrite (app_removelast_last d Hne), length_app in Hvs. cbn in *. lia. }
      replace (Vector.Build _ _) with (repr ((l ++ List.removelast vs) ++ [List.last vs d]) cap).
      2:{ repr_solve. }
      rewrite PopBack_spec by (rewrite length_app, Hrl; cbn in *; lia).
      done.
    + cbn [propagate]. do 2 f_equal; repr_solve.
Qed.

Lemma Resize_shrink n xs cap s :
  n < length xs → length xs ≤ cap →
  Vector.Resize n (repr xs cap) s
  = (destroy_all (drop n xs) s, repr (take n xs) cap, Return tt).
Proof.
  intros Hn Hle. unfold Vector.Resize. simp_repr.
  rewrite decide_True by done.
  rewrite <- (take_drop n xs) at 1. rewrite fmap_app, <- app_assoc.
  replace (length xs - n) with (length (drop n xs)) by (rewrite length_drop; lia).
  rewrite destroy_n_spec by (rewrite length_fmap, length_take; lia).
  simp_repr. rewrite <- replicate_add, length_drop.
  do 2 f_equal; repr_solve.
Qed.

Lemma Reserve_shape n xs cap s s1 v1 o :
  length xs ≤ cap →
  Vector.Reserve n (repr xs cap) s = (s1, v1, o) →
  ∃ ys c, length ys = length xs ∧ v1 = repr ys c ∧
    ((o = Return tt ∧ c = Nat.max cap n) ∨ (o = Throw ∧ c = cap)).
Proof.
  intros Hle. destruct (decide (n ≤ cap)) as [Hn|Hn].
  - rewrite Reserve_noop by done. intros [= <- <- <-].
    exists xs, cap. split_and!; [done..|]. left. split; [done|lia].
  - rewrite Reserve_grow by lia.
    destruct (alloc n s) as [s' [|]].
    + destruct (migrate_all xs s') as [[s2 rs] [ys|]] eqn:E;
        apply migrate_all_length in E as [Hrs Hys]; intros [= <- <- <-].
      * exists ys, n. split_and!; [eauto|done|]. left. split; [done|lia].
      * exists rs, cap. split_and!; [done..|]. by right.
    + intros [= <- <- <-]. exists xs, cap. split_and!; [done..|]. by right.
Qed.

Lemma Resize_grow n xs cap s :
  length xs ≤ cap → length xs ≤ n →
  Vector.Resize n (repr xs cap) s
  = match Vector.Reserve n (repr xs cap) s with
    | (s1, v1, Return _) =>
        match init_all (n - length xs) s1 with
        | (s2, Some zs) => (s2, repr (elements v1 ++ zs) (Vector.Capacity v1), Return tt)
        | (s2, None) => (s2, v1, Throw)
        end
    | r => r
    end.
Proof.
  intros Hle Hn. unfold Vector.Resize.
  rewrite decide_False by (cbn; lia).
  destruct (Vector.Reserve n (repr xs cap) s) as [[s1 v1] o] eqn:E.
  destruct (Reserve_shape _ _ _ _ _ _ _ Hle E) as (ys & c & Hys & -> & [[-> ->]|[-> ->]]);
    [|done].
  rewrite elements_repr. simp_repr. rewrite Hys.
  rewrite (replicate_split (n - length xs) (Nat.max cap n - length xs)) by lia.
  rewrite uninitialized_value_construct_n_spec by by rewrite length_fmap.
  destruct (init_all (n - length xs) s1) as [s2 [zs|]] eqn:Ez.
  - apply init_all_length in Ez. do 2 f_equal; repr_solve.
  - do 2 f_equal; repr_solve.
Qed.

Lemma Vector_make_spec n s :
  Vector.make n s
  = let '(s1, ok) := alloc n s in
    if ok then
      match init_all n s1 with
      | (s2, Some ys) => (s2, Return (repr ys n))
      | (s2, None) => (release n s2, Throw)
      end
    else (s1, Throw).
Proof.
  unfold Vector.make. rewrite RawMemory_make_spec.
  destruct (alloc n s) as [s1 [|]]; [|done]. simp_repr.
  rewrite <- (app_nil_r (replicate n None)).
  rewrite uninitialized_value_construct_n_prefix.
  destruct (init_all n s1) as [s2 [ys|]] eqn:E;
    [|unfold release; by rewrite app_nil_r].
  apply init_all_length in E. simp_repr. do 3 f_equal; repr_solve.
Qed.

Lemma copy_ctor_spec xs cap s :
  Vector.copy_ctor (repr xs cap) s
  = let '(s1, ok) := alloc (length xs) s in
    if ok then
      match copy_all xs s1 with
      | (s2, Some ys) => (s2, Return (repr ys (length xs)))
      | (s2, None) => (release (length xs) s2, Throw)
      end
    else (s1, Throw).
Proof.
  unfold Vector.copy_ctor. simp_repr. rewrite RawMemory_make_spec.
  destruct (alloc (length xs) s) as [s1 [|]]; [|done]. simp_repr.
  rewrite <- (app_nil_r (replicate (length xs) None)).
  rewrite uninitialized_copy_n_prefix.
  destruct (copy_all xs s1) as [s2 [ys|]] eqn:E;
    [|unfold release; by rewrite app_nil_r].
  apply copy_all_length in E. simp_repr. do 3 f_equal; repr_solve.
Qed.

Lemma dtor_spec xs cap s :
  length xs ≤ cap →
  Vector.dtor (repr xs cap) s = (release cap (destroy_all xs s), Return tt).
Proof.
  intros Hle. unfold Vector.dtor. simp_repr.
  rewrite destroy_n_prefix by done. simp_repr.
  unfold release. by rewrite <- replicate_split.
Qed.

Lemma Swap_repr xs cap ys cap' :
  Vector.Swap (repr xs cap) (repr ys cap') = (repr ys cap', repr xs cap).
Proof. done. Qed.

Lemma copy_assign_realloc ds cap xs cap' s :
  length ds ≤ cap → cap < length xs →
  Vector.copy_assign_body (repr ds cap) (repr xs cap') s
  = let '(s1, ok) := alloc (length xs) s in
    if ok then
      match copy_all xs s1 with
      | (s2, Some ys) => (release cap (destroy_all ds s2), repr ys (length xs), Return tt)
      | (s2, None) => (release (length xs) s2, repr ds cap, Throw)
      end
    else (s1, repr ds cap, Throw).
Proof.
  intros Hle Hlt. unfold Vector.copy_assign_body.
  rewrite decide_True by (cbn; lia).
  rewrite copy_ctor_spec.
  destruct (alloc (length xs) s) as [s1 [|]]; [|done].
  destruct (copy_all xs s1) as [s2 [ys|]]; [|done].
  rewrite Swap_repr, dtor_spec by done. done.
Qed.

Lemma assign_loop_prefix ds xs (r r' : ptr T) cap cap' n s :
  length ds = n → length xs = n → n ≤ cap → n ≤ cap' →
  Vector.assign_loop (RawMemory.Build ((Some <$> ds) ++ r) cap)
    (RawMemory.Build ((Some <$> xs) ++ r') cap') 0 n s
  = let '(s', ds', ok) := assign_all ds xs s in
    (s', RawMemory.Build ((Some <$> ds') ++ r) cap, if ok then Return tt else Throw).
Proof.
  intros <- Hxs Hc Hc'.
  exact (assign_loop_spec ds xs [] r [] r' cap cap' 0 s eq_refl eq_refl Hxs Hc Hc').
Qed.

Lemma copy_assign_shrink_split ds1 ds2 cap xs cap' s :
  length (ds1 ++ ds2) ≤ cap → length xs ≤ cap' →
  length ds1 = length xs → ds2 ≠ [] →
  Vector.copy_assign_body (repr (ds1 ++ ds2) cap) (repr xs cap') s
  = let '(s1, ds', ok) := assign_all ds1 xs s in
    if ok then (destroy_all ds2 s1, repr ds' cap, Return tt)
    else (s1, repr (ds' ++ ds2) cap, Throw).
Proof.
  intros Hle Hle' Hlen Hne. rewrite length_app in Hle.
  assert (0 < length ds2) by (destruct ds2; [done|cbn; lia]).
  unfold Vector.copy_assign_body. simp_repr.
  rewrite length_app.
  rewrite decide_False by lia. rewrite decide_True by lia.
  rewrite fmap_app, <- app_assoc.
  rewrite assign_loop_prefix by lia.
  destruct (assign_all ds1 xs s) as [[s1 ds'] ok] eqn:E.
  apply assign_all_length in E.
  destruct ok; [|do 2 f_equal; repr_solve].
  simp_repr.
  replace (length ds1 + length ds2 - length xs) with (length ds2) by lia.
  rewrite destroy_n_spec by (rewrite length_fmap; lia).
  do 2 f_equal; repr_solve.
Qed.

Lemma copy_assign_shrink ds cap xs cap' s :
  length ds ≤ cap → length xs ≤ cap' → length xs < length ds →
  Vector.copy_assign_body (repr ds cap) (repr xs cap') s
  = let '(s1, ds', ok) := assign_all (take (length xs) ds) xs s in
    if ok then (destroy_all (drop (length xs) ds) s1, repr ds' cap, Return tt)
    else (s1, repr (ds' ++ drop (length xs) ds) cap, Throw).
Proof.
  intros Hle Hle' Hlt.
  rewrite <- (take_drop (length xs) ds) at 1.
  apply copy_assign_shrink_split.
  - by rewrite take_drop.
  - done.
  - rewrite length_take. lia.
  - intros Hnil. apply (f_equal length) in Hnil. rewrite length_drop in Hnil.
    cbn in Hnil. lia.
Qed.

Lemma copy_assign_grow_split ds cap xs1 xs2 cap' s :
  length ds ≤ cap → length (xs1 ++ xs2) ≤ cap' → length (xs1 ++ xs2) ≤ cap →
  length xs1 = length ds →
  Vector.copy_assign_body (repr ds cap) (repr (xs1 ++ xs2) cap') s
  = let '(s1, ds', ok) := assign_all ds xs1 s in
    if ok then
      match copy_all xs2 s1 with
      | (s2, Some ys) => (s2, repr (ds' ++ ys) cap, Return tt)
      | (s2, None) => (s2, repr ds' cap, Throw)
      end
    else (s1, repr ds' cap, Throw).
Proof.
  intros Hle Hle' Hle'' Hlen. rewrite length_app in Hle', Hle''.
  unfold Vector.copy_assign_body. simp_repr.
  rewrite length_app.
  rewrite !decide_False by lia.
  rewrite fmap_app, <- app_assoc.
  rewrite assign_loop_prefix by lia.
  destruct (assign_all ds xs1 s) as [[s1 ds'] ok] eqn:E.
  apply assign_all_length in E.
  destruct ok; [|do 2 f_equal; repr_solve].
  simp_repr.
  replace (length xs1 + length xs2 - length ds) with (length xs2) by lia.
  rewrite (replicate_split (length xs2) (cap - length ds)) by lia.
  rewrite uninitialized_copy_n_spec by (rewrite length_fmap; lia).
  destruct (copy_all xs2 s1) as [s2 [ys|]] eqn:E2.
  - apply copy_all_length in E2. do 2 f_equal; repr_solve.
  - do 2 f_equal; repr_solve.
Qed.

Lemma copy_assign_grow ds cap xs cap' s :
  length ds ≤ cap → length xs ≤ cap' → length xs ≤ cap → length ds ≤ length xs →
  Vector.copy_assign_body (repr ds cap) (repr xs cap') s
  = let '(s1, ds', ok) := assign_all ds (take (length ds) xs) s in
    if ok then
      match copy_all (drop (length ds) xs) s1 with
      | (s2, Some ys) => (s2, repr (ds' ++ ys) cap, Return tt)
      | (s2, None) => (s2, repr ds' cap, Throw)
      end
    else (s1, repr ds' cap, Throw).
Proof.
  intros Hle Hle' Hle'' Hlt.
  rewrite <- (take_drop (length ds) xs) at 1.
  apply copy_assign_grow_split; rewrite ?take_drop, ?length_take; lia.
Qed.

Lemma move_assign_body_spec v r s :
  Vector.move_assign_body v r s
  = (RawMemory.Deallocate (RawMemory.buffer_ (Vector.data_ v)) s,
     Vector.Build (RawMemory.Build (RawMemory.buffer_ (Vector.data_ r))
                     (RawMemory.capacity_ (Vector.data_ r))) (Vector.size_ r),
     Vector.default).
Proof. done. Qed.

Lemma UninitializedMoveOrCopy_spec xs (l1 r1 l2 r2 src dst : ptr T) i j k s :
  src = l1 ++ (Some <$> xs) ++ r1 →
  dst = l2 ++ replicate (length xs) None ++ r2 →
  i = length l1 → k = i + length xs → j = length l2 →
  Vector.UninitializedMoveOrCopy src i k dst j s
  = match migrate_all xs s with
    | (s', rs, Some ys) =>
        (s', l1 ++ (Some <$> rs) ++ r1, l2 ++ (Some <$> ys) ++ r2, Return tt)
    | (s', rs, None) =>
        (s', l1 ++ (Some <$> rs) ++ r1, l2 ++ replicate (length xs) None ++ r2, Throw)
    end.
Proof.
  intros -> -> Hi Hk Hj.
  unfold Vector.UninitializedMoveOrCopy, migrate_all, migrates_by_move.
  unfold std.uninitialized_move, std.uninitialized_copy.
  replace (k - i) with (length xs) by lia.
  destruct (_ || _).
  - by apply uninitialized_move_n_spec.
  - rewrite uninitialized_copy_n_spec by done.
    by destruct (copy_all xs s) as [s1 [ys|]].
Qed.

Lemma move_backward_spec xs (l r p : ptr T) d i j k s :
  p = l ++ (Some <$> xs) ++ Some d :: r →
  i = length l → j = i + length xs → k = S j →
  std.move_backward p i j k s
  = let '(s', vs, ok) := move_chain d (rev xs) s in
    (s', l ++ (Some <$> rev vs) ++ r, if ok then Return tt else Throw).
Proof.
  intros -> Hi Hj Hk. unfold std.move_backward.
  replace (j - i) with (length (rev xs)) by (rewrite length_rev; lia).
  rewrite <- (rev_involutive xs) at 1.
  apply move_backward_loop_spec; rewrite ?length_rev; lia.
Qed.

Lemma Emplace_end_room a xs cap s :
  length xs < cap →
  Vector.Emplace (length xs) a (repr xs cap) s
  = match Vector.emplace a s with
    | (s1, Some x) => (s1, repr (xs ++ [x]) cap, Return (length xs))
    | (s1, None) => (s1, repr xs cap, Throw)
    end.
Proof.
  intros Hlt. unfold Vector.Emplace. simp_repr.
  rewrite !decide_True by (rewrite ?extent_repr; lia).
  destruct (Vector.emplace a s) as [s1 [x|]]; [|done].
  rewrite replicate_room by done.
  rewrite poke_middle by by rewrite length_fmap.
  by rewrite repr_snoc.
Qed.

Lemma Emplace_mid_room a l r z cap s :
  length (l ++ r ++ [z]) < cap →
  Vector.Emplace (length l) a (repr (l ++ r ++ [z]) cap) s
  = match Vector.emplace a s with
    | (s1, None) => (s1, repr (l ++ r ++ [z]) cap, Throw)
    | (s1, Some c) =>
        match elem.move_construct z s1 with
        | (s2, z', None) => (elem.destroy c s2, repr (l ++ r ++ [z']) cap, Throw)
        | (s2, z', Some y) =>
            let '(s3, vs, ok) := move_chain z' (rev r) s2 in
            if ok then
              let '(s4, d', c', ok') := elem.move_assign (List.last vs z') c s3 in
              if ok' then
                (elem.destroy c' s4,
                 repr (l ++ d' :: rev (List.removelast vs) ++ [y]) cap, Return (length l))
              else
                (elem.destroy c' s4, torn (l ++ d' :: rev (List.removelast vs)) y cap, Throw)
            else (elem.destroy c (elem.destroy y s3), repr (l ++ rev vs) cap, Throw)
        end
    end.
Proof.
  intros Hlt. rewrite !length_app in Hlt. cbn [length] in Hlt.
  unfold Vector.Emplace.
  assert (Hsz : Vector.size_ (repr (l ++ r ++ [z]) cap) = length l + length r + 1)
    by (cbn; rewrite !length_app; cbn; lia).
  rewrite Hsz.
  rewrite !decide_True by (simp_repr; lia).
  rewrite decide_False by lia.
  destruct (Vector.emplace a s) as [s1 [c|]]; [|done].
  unfold RawMemory.index. simp_repr.
  rewrite decide_True by lia.
  rewrite !fmap_app, <- !app_assoc. cbn [fmap list_fmap app].
  rewrite (app_assoc (Some <$> l)).
  rewrite load_middle by (list_norm; lia).
  rewrite decide_True by (unfold extent; list_norm; lia).
  destruct (elem.move_construct z s1) as [[s2 z'] [y|]].
  2:{ rewrite poke_middle by (list_norm; lia). do 2 f_equal. repr_solve. }
  rewrite poke_middle by (list_norm; lia).
  rewrite !length_app. cbn [length].
  rewrite (replicate_room (length l + (length r + 1)) cap) by lia.
  rewrite (snoc_middle (_ ++ _) (Some z')).
  rewrite poke_middle by (list_norm; lia).
  rewrite <- !app_assoc. cbn [app].
  erewrite (move_backward_spec r (Some <$> l)); [|reflexivity|list_norm; lia..].
  destruct (move_chain z' (rev r) s2) as [[s3 vs] ok] eqn:E.
  pose proof (move_chain_length _ _ _ _ _ _ E) as Hvs. rewrite length_rev in Hvs.
  assert (Hne : vs ≠ []) by (intros ->; done).
  destruct ok.
  - destruct (exists_last Hne) as (vs0 & w & ->).
    rewrite last_last, removelast_last, rev_unit.
    rewrite length_app in Hvs. cbn [length fmap list_fmap app] in *.
    rewrite load_middle by (list_norm; lia).
    destruct (elem.move_assign w c s3) as [[[s4 d'] c'] ok'].
    rewrite poke_middle by (list_norm; lia).
    destruct ok'; do 2 f_equal; unfold torn; repr_solve.
  - rewrite (app_assoc (Some <$> l)).
    rewrite destroy_at_spec by (list_norm; lia).
    do 2 f_equal. repr_solve.
Qed.

Lemma Emplace_full a l r s :
  Vector.Emplace (length l) a (repr (l ++ r) (length (l ++ r))) s
  = let '(s1, ok) := alloc (grown (length (l ++ r))) s in
    if ok then
      match Vector.emplace a s1 with
      | (s2, Some x) =>
          match migrate_all l s2 with
          | (s3, ls, Some ls') =>
              match migrate_all r s3 with
              | (s4, rs, Some rs') =>
                  (release (length (l ++ r)) (destroy_all (ls ++ rs) s4),
                   repr (ls' ++ x :: rs') (grown (length (l ++ r))), Return (length l))
              | (s4, rs, None) =>
                  (release (grown (length (l ++ r))) (destroy_all (ls' ++ [x]) s4),
                   repr (ls ++ rs) (length (l ++ r)), Throw)
              end
          | (s3, ls, None) =>
              (release (grown (length (l ++ r))) (elem.destroy x s3),
               repr (ls ++ r) (length (l ++ r)), Throw)
          end
      | (s2, None) => (release (grown (length (l ++ r))) s2, repr (l ++ r) (length (l ++ r)), Throw)
      end
    else (s1, repr (l ++ r) (length (l ++ r)), Throw).
Proof.
  unfold Vector.Emplace.
  pose proof (grown_gt (length (l ++ r))) as Hg.
  assert (Hsz : Vector.size_ (repr (l ++ r) (length (l ++ r))) = length (l ++ r)) by done.
  assert (Hcap : RawMemory.Capacity (Vector.data_ (repr (l ++ r) (length (l ++ r))))
                 = length (l ++ r)) by done.
  rewrite Hsz, Hcap.
  rewrite decide_True by (rewrite length_app; lia).
  rewrite decide_False by lia.
  rewrite growth_eq, RawMemory_make_spec.
  destruct (alloc (grown (length (l ++ r))) s) as [s1 [|]]; [|done].
  pose proof Hg as Hg'. rewrite length_app in Hg'.
  simp_repr.
  rewrite decide_True by (unfold extent; rewrite length_replicate, length_app; lia).
  destruct (Vector.emplace a s1) as [s2 [x|]]; [|done].
  rewrite (replicate_hole (length l) (grown (length (l ++ r))))
    by (rewrite length_app; lia).
  rewrite poke_middle by by rewrite length_replicate.
  simp_repr. rewrite Nat.sub_diag, fmap_app, <- app_assoc.
  erewrite (UninitializedMoveOrCopy_spec l [] _ [] _); [|reflexivity..|lia|done].
  destruct (migrate_all l s2) as [[s3 ls] [ls'|]] eqn:El;
    apply migrate_all_length in El as [Hls Hls'].
  2:{ cbn [app]. rewrite destroy_at_spec by by rewrite length_replicate.
      unfold release. do 2 f_equal; repr_solve. }
  specialize (Hls' ls' eq_refl). cbn [app].
  erewrite (UninitializedMoveOrCopy_spec r (Some <$> ls) _ ((Some <$> ls') ++ [Some x]) _);
    [ |reflexivity| |list_norm; lia..].
  2:{ rewrite <- app_assoc. cbn [app].
      rewrite (replicate_split (length r) (grown (length (l ++ r)) - S (length l)))
        by (rewrite length_app; lia).
      reflexivity. }
  destruct (migrate_all r s3) as [[s4 rs] [rs'|]] eqn:Er;
    apply migrate_all_length in Er as [Hrs Hrs'].
  - specialize (Hrs' rs' eq_refl).
    rewrite (app_assoc (Some <$> ls)), <- fmap_app.
    rewrite destroy_n_prefix by (list_norm; lia).
    unfold release. do 2 f_equal; [f_equal|]; repr_solve.
  - unfold std.destroy. rewrite <- !app_assoc. cbn [app].
    rewrite (snoc_middle (Some <$> ls') (Some x)).
    replace ((Some <$> ls') ++ [Some x]) with (Some <$> (ls' ++ [x]))
      by by rewrite fmap_app.
    rewrite destroy_n_prefix by (list_norm; lia).
    unfold release. do 2 f_equal; [f_equal|]; repr_solve.
Qed.

Lemma Emplace_full_at pos xs a s :
  pos ≤ length xs →
  Vector.Emplace pos a (repr xs (length xs)) s
  = let '(s1, ok) := alloc (grown (length xs)) s in
    if ok then
      match Vector.emplace a s1 with
      | (s2, Some x) =>
          match migrate_all (take pos xs) s2 with
          | (s3, ls, Some ls') =>
              match migrate_all (drop pos xs) s3 with
              | (s4, rs, Some rs') =>
                  (release (length xs) (destroy_all (ls ++ rs) s4),
                   repr (ls' ++ x :: rs') (grown (length xs)), Return pos)
              | (s4, rs, None) =>
                  (release (grown (length xs)) (destroy_all (ls' ++ [x]) s4),
                   repr (ls ++ rs) (length xs), Throw)
              end
          | (s3, ls, None) =>
              (release (grown (length xs)) (elem.destroy x s3),
               repr (ls ++ drop pos xs) (length xs), Throw)
          end
      | (s2, None) => (release (grown (length xs)) s2, repr xs (length xs), Throw)
      end
    else (s1, repr xs (length xs), Throw).
Proof.
  intros Hpos.
  pose proof (Emplace_full a (take pos xs) (drop pos xs) s) as H.
  rewrite take_drop, length_take in H.
  by replace (pos `min` length xs) with pos in H by lia.
Qed.
End methods.

(** ** The invariant and the abstract view *)

Section invariant.
Context {T : Type}.
Implicit Types (xs : list T) (v : Vector.t T) (p : ptr T).

Lemma all_Some p : Forall is_Some p → Some <$> live p = p.
Proof.
  unfold live. induction 1 as [|o p [x ->] _ IH]; [done|].
  cbn. by rewrite IH.
Qed.

Lemma all_None p : Forall (λ o, o = None) p → p = replicate (length p) None.
Proof. induction 1 as [|o p -> _ IH]; [done|]. cbn. by rewrite <- IH. Qed.

Lemma length_live_Some p : Forall is_Some p → length (live p) = length p.
Proof. intros H. rewrite <- (all_Some p H) at 2. by rewrite length_fmap. Qed.

Lemma invariant_repr xs cap : length xs ≤ cap → invariant (repr xs cap).
Proof.
  intros Hle. unfold invariant. simp_repr. split_and!.
  - done.
  - by apply extent_repr.
  - intros i Hi. unfold load.
    rewrite lookup_app_l by by rewrite length_fmap.
    rewrite list_lookup_fmap.
    destruct (lookup_lt_is_Some_2 xs i Hi) as [x ->]. by eexists.
  - intros i [Hi1 Hi2]. unfold load.
    rewrite lookup_app_r by by rewrite length_fmap.
    rewrite lookup_replicate_2; [done|]. rewrite length_fmap. lia.
Qed.

Lemma invariant_inv v :
  invariant v →
  v = repr (elements v) (Vector.Capacity v) ∧
  length (elements v) = Vector.size_ v ∧ Vector.size_ v ≤ Vector.Capacity v.
Proof.
  destruct v as [[buf cap] sz]. unfold invariant, elements. simp_repr.
  unfold extent. intros (Hsz & Hlen & Hlive & Hraw).
  assert (Htake : Forall is_Some (take sz buf)).
  { apply Forall_lookup. intros i o Hi.
    apply lookup_take_Some in Hi as [Hi Hlt].
    specialize (Hlive i Hlt). unfold load in Hlive. by rewrite Hi in Hlive. }
  assert (Hdrop : Forall (λ o, o = None) (drop sz buf)).
  { apply Forall_lookup. intros i o Hi. rewrite lookup_drop in Hi.
    assert (sz + i < cap) by (rewrite <- Hlen; eauto using lookup_lt_Some).
    specialize (Hraw (sz + i)). unfold load in Hraw. rewrite Hi in Hraw.
    apply Hraw. lia. }
  assert (Hl : length (live (take sz buf)) = sz).
  { rewrite length_live_Some by done. rewrite length_take. lia. }
  split_and!; [|done..].
  rewrite Hl. do 2 f_equal.
  rewrite all_Some by done.
  rewrite <- (take_drop sz buf) at 1. f_equal.
  rewrite (all_None _ Hdrop). rewrite length_drop. f_equal. lia.
Qed.

Lemma invariant_iff v :
  invariant v ↔ ∃ xs cap, length xs ≤ cap ∧ v = repr xs cap.
Proof.
  split.
  - intros H. destruct (invariant_inv v H) as (Hv & Hl & Hle).
    exists (elements v), (Vector.Capacity v). split; [lia|done].
  - intros (xs & cap & Hle & ->). by apply invariant_repr.
Qed.

Lemma not_invariant_torn xs y cap : ¬ invariant (torn xs y cap).
Proof.
  unfold invariant, torn. simp_repr. unfold extent.
  intros (Hsz & Hlen & _ & Hraw).
  rewrite length_app, length_fmap in Hlen. cbn [length] in Hlen.
  specialize (Hraw (length xs)).
  rewrite load_middle in Hraw by by rewrite length_fmap.
  discriminate Hraw. lia.
Qed.

Lemma size_repr xs cap : Vector.size_ (repr xs cap) = length xs.
Proof. done. Qed.

Lemma Capacity_repr xs cap : Vector.Capacity (repr xs cap) = cap.
Proof. done. Qed.
End invariant.

(** ** Element types that keep their promises *)

Section laws.
Context {T A W : Type} `{!Allocator W} `{!Element T A W}.
Local Abbreviation state := (state T A W).
Implicit Types (xs ys ds rs : list T) (s : state).

Lemma copy_all_value `{!ValueSemantics T A W} xs : ∀ s s' ys,
  copy_all xs s = (s', Some ys) → ys = xs.
Proof.
  induction xs as [|x xs IH]; intros s s' ys; cbn [copy_all].
  { by intros [= <- <-]. }
  unfold elem.copy_construct.
  destruct (copy_construct x (world s)) as [w [y|]] eqn:Ec; [|done].
  destruct (copy_all xs _) as [s2 [zs|]] eqn:E; [|done].
  intros [= <- <-]. f_equal; eauto using copy_construct_value.
Qed.

Lemma move_all_value `{!ValueSemantics T A W} xs : ∀ s s' rs ys,
  move_all xs s = (s', rs, Some ys) → ys = xs.
Proof.
  induction xs as [|x xs IH]; intros s s' rs ys; cbn [move_all].
  { by intros [= <- <- <-]. }
  unfold elem.move_construct.
  destruct (move_construct x (world s)) as [[w x'] [y|]] eqn:Ec; [|done].
  destruct (move_all xs _) as [[s2 rs'] [zs|]] eqn:E; [|done].
  intros [= <- <- <-]. f_equal; eauto using move_construct_value.
Qed.

Lemma migrate_all_value `{!ValueSemantics T A W} xs s s' rs ys :
  migrate_all xs s = (s', rs, Some ys) → ys = xs.
Proof.
  unfold migrate_all. destruct migrates_by_move.
  - apply move_all_value.
  - destruct (copy_all xs s) as [s1 r] eqn:E. intros [= <- <- ->].
    eauto using copy_all_value.
Qed.




Lemma assign_all_value `{!ValueSemantics T A W} ds : ∀ xs s s' ds',
  length xs = length ds → assign_all ds xs s = (s', ds', true) → ds' = xs.
Proof.
  induction ds as [|d ds IH]; intros [|x xs] s s' ds' Hlen; try done; cbn [assign_all].
  { by intros [= <- <-]. }
  unfold elem.copy_assign.
  destruct (copy_assign d x (world s)) as [[w d'] ok] eqn:Ec.
  destruct ok; [|done].
  destruct (assign_all ds xs _) as [[s2 r] ok2] eqn:E.
  intros [= <- <- ->]. cbn in Hlen.
  f_equal; [eauto using copy_assign_value|]. eapply IH; [|done]. lia.
Qed.


Lemma emplace_value `{!ValueSemantics T A W} value a s s' x :
  a = ConstRef value ∨ a = RvalueRef value →
  Vector.emplace a s = (s', Some x) → x = value.
Proof.
  intros [-> | ->]; cbn [Vector.emplace].
  - unfold elem.copy_construct.
    destruct (copy_construct value (world s)) as [w r] eqn:E.
    intros [= <- ->]. eauto using copy_construct_value.
  - unfold elem.move_construct.
    destruct (move_construct value (world s)) as [[w x'] r] eqn:E.
    intros [= <- ->]. eauto using move_construct_value.
Qed.

Lemma destroy_all_trace xs : ∀ s,
  trace (destroy_all xs s) = (EvDestroy <$> reverse xs) ++ trace s.
Proof.
  induction xs as [|x xs IH]; intros s; [done|].
  rewrite destroy_all_cons, IH, reverse_cons, fmap_app, <- app_assoc. done.
Qed.

Lemma split_at {X} (p : nat) (l : list X) :
  p < length l → ∃ l1 d l2, l = l1 ++ d :: l2 ∧ length l1 = p.
Proof.
  intros Hp. destruct (drop p l) as [|d l2] eqn:E.
  { apply (f_equal length) in E. rewrite length_drop in E. cbn in E. lia. }
  exists (take p l), d, l2. rewrite <- E, take_drop, length_take. split; [done|lia].
Qed.

Lemma split_last {X} (p : nat) (l : list X) :
  p < length l → ∃ l1 l2 z, l = l1 ++ l2 ++ [z] ∧ length l1 = p.
Proof.
  intros Hp. destruct (split_at p l Hp) as (l1 & d & l2 & -> & <-).
  assert (Hne : d :: l2 ≠ []) by done.
  destruct (exists_last Hne) as (l2' & z & Hz).
  exists l1, l2', z. by rewrite Hz.
Qed.

Lemma release_trace n s :
  trace (release n s) = if decide (n = 0) then trace s else EvDelete [] :: trace s.
Proof.
  unfold release, RawMemory.Deallocate. destruct n as [|n]; [done|].
  cbn [replicate]. rewrite decide_False by done. cbn [elem.log trace].
  change (None :: replicate n None) with (replicate (S n) (@None T)).
  by rewrite live_None.
Qed.

(** *** Nothing throws *)

Lemma alloc_succeeds `{!NeverThrows T A W} n s : (alloc n s).2 = true.
Proof.
  unfold alloc. case_decide; [|done].
  pose proof (new_succeeds n (world s)) as Hs.
  by destruct (operator_new n (world s)) as [w ok].
Qed.

Lemma emplace_succeeds `{!NeverThrows T A W} a s : is_Some (Vector.emplace a s).2.
Proof.
  destruct a as [a|value|value]; cbn [Vector.emplace].
  - unfold elem.construct. pose proof (construct_succeeds a (world s)) as Hs.
    by destruct (construct a (world s)).
  - unfold elem.copy_construct. pose proof (copy_construct_succeeds value (world s)) as Hs.
    by destruct (copy_construct value (world s)).
  - unfold elem.move_construct. pose proof (move_construct_succeeds value (world s)) as Hs.
    by destruct (move_construct value (world s)) as [[w x'] r].
Qed.


Lemma copy_all_succeeds `{!NeverThrows T A W} xs : ∀ s, is_Some (copy_all xs s).2.
Proof.
  induction xs as [|x xs IH]; intros s; cbn [copy_all]; [by eexists|].
  unfold elem.copy_construct. pose proof (copy_construct_succeeds x (world s)) as [y Hy].
  destruct (copy_construct x (world s)) as [w r]. cbn in Hy. subst r.
  specialize (IH (elem.log (EvCopy x) s w)).
  destruct (copy_all xs _) as [s2 [ys|]]; [by eexists|by destruct IH].
Qed.

Lemma move_all_succeeds `{!NeverThrows T A W} xs : ∀ s, is_Some (move_all xs s).2.
Proof.
  induction xs as [|x xs IH]; intros s; cbn [move_all]; [by eexists|].
  unfold elem.move_construct. pose proof (move_construct_succeeds x (world s)) as [y Hy].
  destruct (move_construct x (world s)) as [[w x'] r]. cbn in Hy. subst r.
  specialize (IH (elem.log (EvMove x) s w)).
  destruct (move_all xs _) as [[s2 rs] [ys|]]; [by eexists|by destruct IH].
Qed.

Lemma migrate_all_succeeds `{!NeverThrows T A W} xs s : is_Some (migrate_all xs s).2.
Proof.
  unfold migrate_all. destruct migrates_by_move; [apply move_all_succeeds|].
  pose proof (copy_all_succeeds xs s) as Hs.
  by destruct (copy_all xs s) as [s1 r].
Qed.


Lemma move_chain_succeeds `{!NeverThrows T A W} xs : ∀ d s, (move_chain d xs s).2 = true.
Proof.
  induction xs as [|x xs IH]; intros d s; cbn [move_chain]; [done|].
  unfold elem.move_assign. pose proof (move_assign_succeeds d x (world s)) as Hy.
  destruct (move_assign d x (world s)) as [[[w d'] x'] ok]. cbn in Hy. subst ok.
  specialize (IH x' (elem.log (EvMoveAssign d x) s w)).
  by destruct (move_chain x' xs _) as [[s2 r] ok2].
Qed.
End laws.

(** ** The probe types keep their promises *)

Section probe_laws.
Lemma probe_value_semantics nm cp : ValueSemantics nat nat probe.oracle (Element0 := probe.element nm cp).
Proof.
  split; cbn.
  - intros x w w' y. destruct (probe.tick w) as [w1 [|]]; congruence.
  - intros x w w' x' y. destruct nm; [congruence|].
    destruct (probe.tick w) as [w1 [|]]; congruence.
  - intros d x w w' d'. destruct (probe.tick w) as [w1 [|]]; cbn; congruence.
  - intros d x w w' d' x'. destruct (probe.tick w) as [w1 [|]]; congruence.
Qed.


Lemma plain_value_semantics : ValueSemantics nat nat unit (Element0 := probe.plain).
Proof. split; cbn; congruence. Qed.

Lemma plain_nothrow_sound : NothrowSound nat nat unit (Element0 := probe.plain).
Proof. intros _ x w. by eexists. Qed.

Lemma plain_never_throws :
  NeverThrows nat nat unit (Allocator0 := probe.plain_allocator) (Element0 := probe.plain).
Proof. split; cbn; try done; by eexists. Qed.
End probe_laws.

(** ** Releases of blocks *)

Create HintDb leak discriminated.

Section leaks.
Context {T A W : Type} `{!Allocator W} `{!Element T A W}.
Local Abbreviation state := (state T A W).
Implicit Types (xs ys ds rs : list T) (s : state) (v : Vector.t T).

Lemma leak_free_log e s w : ¬ leaks e → leak_free s → leak_free (elem.log e s w).
Proof. intros He Hs. unfold leak_free. cbn. by constructor. Qed.

Lemma leak_free_value_init s s' r :
  elem.value_init s = (s', r) → leak_free s → leak_free s'.
Proof.
  unfold elem.value_init. destruct (value_init (world s)) as [w o].
  intros [= <- <-]. apply leak_free_log. by intros [].
Qed.

Lemma leak_free_construct a s s' r :
  elem.construct a s = (s', r) → leak_free s → leak_free s'.
Proof.
  unfold elem.construct. destruct (construct a (world s)) as [w o].
  intros [= <- <-]. apply leak_free_log. by intros [].
Qed.

Lemma leak_free_copy_construct x s s' r :
  elem.copy_construct x s = (s', r) → leak_free s → leak_free s'.
Proof.
  unfold elem.copy_construct. destruct (copy_construct x (world s)) as [w o].
  intros [= <- <-]. apply leak_free_log. by intros [].
Qed.

Lemma leak_free_move_construct x s s' x' r :
  elem.move_construct x s = (s', x', r) → leak_free s → leak_free s'.
Proof.
  unfold elem.move_construct. destruct (move_construct x (world s)) as [[w y] o].
  intros [= <- <- <-]. apply leak_free_log. by intros [].
Qed.

Lemma leak_free_copy_assign d x s s' d' ok :
  elem.copy_assign d x s = (s', d', ok) → leak_free s → leak_free s'.
Proof.
  unfold elem.copy_assign. destruct (copy_assign d x (world s)) as [[w y] o].
  intros [= <- <- <-]. apply leak_free_log. by intros [].
Qed.

Lemma leak_free_move_assign d x s s' d' x' ok :
  elem.move_assign d x s = (s', d', x', ok) → leak_free s → leak_free s'.
Proof.
  unfold elem.move_assign. destruct (move_assign d x (world s)) as [[[w y] z] o].
  intros [= <- <- <- <-]. apply leak_free_log. by intros [].
Qed.

Lemma leak_free_destroy x s : leak_free s → leak_free (elem.destroy x s).
Proof. apply leak_free_log. by intros []. Qed.

Lemma leak_free_emplace a s s' r :
  Vector.emplace a s = (s', r) → leak_free s → leak_free s'.
Proof.
  destruct a as [a|value|value]; cbn [Vector.emplace].
  - apply leak_free_construct.
  - apply leak_free_copy_construct.
  - destruct (elem.move_construct value s) as [[s1 x'] o] eqn:E.
    intros [= <- <-]. eauto using leak_free_move_construct.
Qed.

Lemma leak_free_alloc n s s' ok : alloc n s = (s', ok) → leak_free s → leak_free s'.
Proof.
  unfold alloc. case_decide; [|by intros [= <- <-]].
  destruct (operator_new n (world s)) as [w o].
  intros [= <- <-]. apply leak_free_log. by intros [].
Qed.

Lemma leak_free_release n s : leak_free s → leak_free (release n s).
Proof.
  unfold release, RawMemory.Deallocate. destruct n as [|n]; [done|].
  cbn [replicate]. apply leak_free_log.
  change (None :: replicate n None) with (replicate (S n) (@None T)).
  rewrite live_None. by intros [].
Qed.

Lemma leak_free_destroy_all xs : ∀ s, leak_free s → leak_free (destroy_all xs s).
Proof.
  induction xs as [|x xs IH]; intros s Hs; [done|].
  rewrite destroy_all_cons. auto using leak_free_destroy.
Qed.

Lemma leak_free_init_all n : ∀ s s' r, init_all n s = (s', r) → leak_free s → leak_free s'.
Proof.
  induction n as [|n IH]; intros s s' r; cbn [init_all]; [by intros [= <- <-]|].
  destruct (elem.value_init s) as [s1 [y|]] eqn:E1.
  - destruct (init_all n s1) as [s2 [ys|]] eqn:E2; intros [= <- <-] Hs;
      eauto using leak_free_value_init, leak_free_destroy.
  - intros [= <- <-]. eauto using leak_free_value_init.
Qed.

Lemma leak_free_copy_all xs : ∀ s s' r, copy_all xs s = (s', r) → leak_free s → leak_free s'.
Proof.
  induction xs as [|x xs IH]; intros s s' r; cbn [copy_all]; [by intros [= <- <-]|].
  destruct (elem.copy_construct x s) as [s1 [y|]] eqn:E1.
  - destruct (copy_all xs s1) as [s2 [ys|]] eqn:E2; intros [= <- <-] Hs;
      eauto using leak_free_copy_construct, leak_free_destroy.
  - intros [= <- <-]. eauto using leak_free_copy_construct.
Qed.

Lemma leak_free_move_all xs : ∀ s s' rs r,
  move_all xs s = (s', rs, r) → leak_free s → leak_free s'.
Proof.
  induction xs as [|x xs IH]; intros s s' rs r; cbn [move_all]; [by intros [= <- <- <-]|].
  destruct (elem.move_construct x s) as [[s1 x'] [y|]] eqn:E1.
  - destruct (move_all xs s1) as [[s2 rs'] [ys|]] eqn:E2; intros [= <- <- <-] Hs;
      eauto using leak_free_move_construct, leak_free_destroy.
  - intros [= <- <- <-]. eauto using leak_free_move_construct.
Qed.

Lemma leak_free_migrate_all xs s s' rs r :
  migrate_all xs s = (s', rs, r) → leak_free s → leak_free s'.
Proof.
  unfold migrate_all. destruct migrates_by_move; [apply leak_free_move_all|].
  destruct (copy_all xs s) as [s1 o] eqn:E. intros [= <- <- <-].
  eauto using leak_free_copy_all.
Qed.

Lemma leak_free_assign_all ds : ∀ xs s s' ds' ok,
  assign_all ds xs s = (s', ds', ok) → leak_free s → leak_free s'.
Proof.
  induction ds as [|d ds IH]; intros [|x xs] s s' ds' ok; cbn [assign_all];
    try by intros [= <- <- <-].
  destruct (elem.copy_assign d x s) as [[s1 d'] [|]] eqn:E1.
  - destruct (assign_all ds xs s1) as [[s2 r] ok2] eqn:E2. intros [= <- <- <-] Hs.
    eauto using leak_free_copy_assign.
  - intros [= <- <- <-]. eauto using leak_free_copy_assign.
Qed.

Lemma leak_free_move_chain xs : ∀ d s s' vs ok,
  move_chain d xs s = (s', vs, ok) → leak_free s → leak_free s'.
Proof.
  induction xs as [|x xs IH]; intros d s s' vs ok; cbn [move_chain];
    [by intros [= <- <- <-]|].
  destruct (elem.move_assign d x s) as [[[s1 d'] x'] [|]] eqn:E1.
  - destruct (move_chain x' xs s1) as [[s2 r] ok2] eqn:E2. intros [= <- <- <-] Hs.
    eauto using leak_free_move_assign.
  - intros [= <- <- <-]. eauto using leak_free_move_assign.
Qed.
End leaks.

#[export] Hint Resolve leak_free_destroy leak_free_release leak_free_destroy_all
  leak_free_alloc leak_free_emplace leak_free_init_all leak_free_copy_all
  leak_free_move_all leak_free_migrate_all leak_free_assign_all leak_free_move_chain
  leak_free_move_construct leak_free_move_assign : leak.

(** ** What the methods return *)

Section results.
Context {T A W : Type} `{!Allocator W} `{!Element T A W}.
Local Abbreviation state := (state T A W).
Implicit Types (xs ys ds rs : list T) (s : state) (v : Vector.t T).

(** *** The invariant after each operation

    For any element type at all: no operation runs into undefined
    behaviour on a vector that satisfies the invariant (given the
    preconditions the header asserts), and every operation but one leaves
    the invariant in place however it ends.  The exception is [Emplace] in
    the middle of a block with room. *)




Lemma PopBack_invariant v s s' v' o :
  invariant v → Vector.size_ v ≠ 0 → Vector.PopBack v s = (s', v', o) →
  o = Return tt ∧ invariant v' ∧ Vector.size_ v' = Vector.size_ v - 1.
Proof.
  intros Hinv Hsz. apply invariant_iff in Hinv as (xs & cap & Hle & ->).
  rewrite size_repr in *.
  assert (Hne : xs ≠ []) by (intros ->; done).
  destruct (exists_last Hne) as (ys & x & ->).
  rewrite length_app in *. cbn [length] in *.
  rewrite PopBack_spec by lia. intros [= <- <- <-].
  split_and!; [done|apply invariant_repr; lia|rewrite size_repr; lia].
Qed.

Lemma Erase_invariant v p s s' v' o :
  invariant v → p < Vector.size_ v → Vector.Erase p v s = (s', v', o) →
  o ≠ Abort ∧ invariant v'.
Proof.
  intros Hinv Hp. apply invariant_iff in Hinv as (xs & cap & Hle & ->).
  rewrite size_repr in Hp.
  destruct (split_at p xs Hp) as (l & d & r & -> & <-).
  rewrite Erase_spec by done.
  destruct (move_chain d r s) as [[s1 vs] ok] eqn:Ec.
  apply move_chain_length in Ec.
  rewrite length_app in Hle. cbn [length] in Hle.
  destruct ok; intros [= <- <- <-]; (split; [done|]); apply invariant_repr.
  - assert (Hne : vs ≠ []) by (intros ->; done).
    rewrite (app_removelast_last d Hne), length_app in Ec. cbn in Ec.
    rewrite length_app. lia.
  - rewrite length_app. lia.
Qed.

Lemma Emplace_invariant v p a s s' v' o :
  invariant v → p ≤ Vector.size_ v → Vector.Emplace p a v s = (s', v', o) →
  o ≠ Abort ∧
  (invariant v' ∨
   o = Throw ∧ p < Vector.size_ v ∧ Vector.size_ v < Vector.Capacity v ∧
   ∃ ys y, length ys = Vector.size_ v ∧ v' = torn ys y (Vector.Capacity v)).
Proof.
  intros Hinv Hp. apply invariant_iff in Hinv as (xs & cap & Hle & ->).
  rewrite size_repr, Capacity_repr in *.
  destruct (decide (length xs = cap)) as [<-|Hne].
  - rewrite Emplace_full_at by done. pose proof (grown_gt (length xs)).
    destruct (alloc _ s) as [s1 [|]]; [|intros [= <- <- <-]; by auto using invariant_repr].
    destruct (Vector.emplace a s1) as [s2 [x|]];
      [|intros [= <- <- <-]; by auto using invariant_repr].
    destruct (migrate_all (take p xs) s2) as [[s3 ls] [ls'|]] eqn:E1;
      apply migrate_all_length in E1 as [Hls Hls']; rewrite length_take in Hls.
    2:{ intros [= <- <- <-]. split; [done|]. left. apply invariant_repr.
        rewrite length_app, length_drop. lia. }
    specialize (Hls' ls' eq_refl). rewrite length_take in Hls'.
    destruct (migrate_all (drop p xs) s3) as [[s4 rs] [rs'|]] eqn:E2;
      apply migrate_all_length in E2 as [Hrs Hrs']; rewrite length_drop in Hrs;
      intros [= <- <- <-]; (split; [done|]); left; apply invariant_repr.
    + specialize (Hrs' rs' eq_refl). rewrite length_drop in Hrs'.
      rewrite length_app. cbn. lia.
    + rewrite length_app. lia.
  - destruct (decide (p = length xs)) as [->|Hpne].
    + rewrite Emplace_end_room by lia.
      destruct (Vector.emplace a s) as [s1 [x|]]; intros [= <- <- <-];
        (split; [done|]); left; apply invariant_repr; [|done].
      rewrite length_app. cbn. lia.
    + destruct (split_last p xs) as (l & r & z & Hxs & <-); [lia|].
      rewrite Hxs in *. rewrite !length_app in Hle, Hne, Hp. cbn [length] in *.
      rewrite Emplace_mid_room by (rewrite !length_app; cbn; lia).
      destruct (Vector.emplace a s) as [s1 [c|]];
        [|intros [= <- <- <-]; split; [done|]; left; apply invariant_repr;
          rewrite !length_app; cbn; lia].
      destruct (elem.move_construct z s1) as [[s2 z'] [y|]];
        [|intros [= <- <- <-]; split; [done|]; left; apply invariant_repr;
          rewrite !length_app; cbn; lia].
      destruct (move_chain z' (rev r) s2) as [[s3 vs] ok] eqn:Ec.
      apply move_chain_length in Ec. rewrite length_rev in Ec.
      destruct ok.
      2:{ intros [= <- <- <-]. split; [done|]. left. apply invariant_repr.
          rewrite length_app, length_rev. lia. }
      assert (Hvne : vs ≠ []) by (intros ->; done).
      assert (Hrl : length (rev (List.removelast vs)) = length r).
      { rewrite length_rev. rewrite (app_removelast_last z' Hvne), length_app in Ec.
        cbn in Ec. lia. }
      destruct (elem.move_assign _ c s3) as [[[s4 d'] c'] ok']. destruct ok'.
      * intros [= <- <- <-]. split; [done|]. left. apply invariant_repr.
        rewrite !length_app. cbn. rewrite length_app, Hrl. cbn. lia.
      * intros [= <- <- <-]. split; [done|]. right.
        split_and!; [done|rewrite !length_app; cbn; lia..|].
        eexists _, y. split; [|reflexivity].
        rewrite !length_app. cbn. rewrite Hrl. lia.
Qed.




Lemma EmplaceBackImpl_total `{!NeverThrows T A W} xs cap a s :
  length xs ≤ cap →
  ∃ s' v', Vector.EmplaceBackImpl a (repr xs cap) s = (s', v', Return (length xs)).
Proof.
  intros Hle.
  pose proof (emplace_succeeds a) as He.
  destruct (decide (length xs = cap)) as [<-|Hne].
  - rewrite EmplaceBackImpl_full.
    pose proof (alloc_succeeds (grown (length xs)) s) as Ha.
    destruct (alloc _ s) as [s1 ok]. cbn in Ha. subst ok.
    specialize (He s1). destruct (Vector.emplace a s1) as [s2 [x|]]; [|by destruct He].
    pose proof (migrate_all_succeeds xs s2) as Hm.
    destruct (migrate_all xs s2) as [[s3 rs] [ys|]]; [eauto|by destruct Hm].
  - rewrite EmplaceBackImpl_room by lia.
    specialize (He s). destruct (Vector.emplace a s) as [s1 [x|]]; [eauto|by destruct He].
Qed.



Lemma Emplace_total `{!NeverThrows T A W} xs cap p a s :
  length xs ≤ cap → p ≤ length xs →
  ∃ s' v', Vector.Emplace p a (repr xs cap) s = (s', v', Return p).
Proof.
  intros Hle Hp.
  assert (Hm : ∀ ys s0, ∃ s1 rs zs, migrate_all ys s0 = (s1, rs, Some zs)).
  { intros ys s0. pose proof (migrate_all_succeeds ys s0) as [zs Hzs].
    destruct (migrate_all ys s0) as [[s1' rs] r]. cbn in Hzs. subst r. eauto. }
  assert (He : ∀ s0, ∃ s1 x, Vector.emplace a s0 = (s1, Some x)).
  { intros s0. pose proof (emplace_succeeds a s0) as [x Hx].
    destruct (Vector.emplace a s0) as [s1' r]. cbn in Hx. subst r. eauto. }
  destruct (decide (length xs = cap)) as [<-|Hne].
  - rewrite Emplace_full_at by done.
    pose proof (alloc_succeeds (grown (length xs)) s) as Ha.
    destruct (alloc _ s) as [s1 ok]. cbn in Ha. subst ok.
    destruct (He s1) as (s2 & x & ->).
    destruct (Hm (take p xs) s2) as (s3 & ls & ls' & ->).
    destruct (Hm (drop p xs) s3) as (s4 & rs & rs' & ->). eauto.
  - destruct (decide (p = length xs)) as [->|Hpne].
    + rewrite Emplace_end_room by lia. destruct (He s) as (s1 & x & ->). eauto.
    + destruct (split_last p xs) as (l & r & z & -> & <-); [lia|].
      rewrite Emplace_mid_room by lia.
      destruct (He s) as (s1 & c & ->).
      unfold elem.move_construct, elem.move_assign.
      pose proof (move_construct_succeeds z (world s1)) as [y Hy].
      destruct (move_construct z (world s1)) as [[w2 z'] o]. cbn in Hy. subst o.
      pose proof (move_chain_succeeds (rev r) z' (elem.log (EvMove z) s1 w2)) as Hc.
      destruct (move_chain z' (rev r) _) as [[s3 vs] ok]. cbn in Hc. subst ok.
      pose proof (move_assign_succeeds (List.last vs z') c (world s3)) as Hma.
      destruct (move_assign (List.last vs z') c (world s3)) as [[[w4 d'] c'] ok].
      cbn in Hma. subst ok. eauto.
Qed.

End results.

Section results_store.
Context {T A W : Type} `{!Allocator W} `{!Element T A W}.
Local Abbreviation state := (state T A W).
Implicit Types (s : state) (v r : Vector.t T) (σ : gmap nat (Vector.t T)).

Lemma copy_assign_store this rhs σ v r s :
  σ !! this = Some v → σ !! rhs = Some r → this ≠ rhs →
  Vector.copy_assign this rhs σ s
  = let '(s1, v1, o) := Vector.copy_assign_body v r s in (s1, <[this := v1]> σ, o).
Proof.
  intros Hv Hr Hne. unfold Vector.copy_assign.
  by rewrite Hv, Hr, decide_True by done.
Qed.
End results_store.
(** ** Quantities that the operations of the element type leave alone *)

Section stable.
Context {T A W : Type} `{!Allocator W} `{!Element T A W} {X : Type}.
Context (f : state T A W → X).
Local Abbreviation state := (state T A W).
Implicit Types (xs ys ds rs : list T) (s : state) (v : Vector.t T).


Lemma stable_construct_eq `{!ElemStable f} a s s' r : elem.construct a s = (s', r) → f s' = f s.
Proof. intros E. pose proof (stable_construct (f := f) a s) as Hs. by rewrite E in Hs. Qed.

Lemma stable_copy_construct_eq `{!ElemStable f} x s s' r : elem.copy_construct x s = (s', r) → f s' = f s.
Proof. intros E. pose proof (stable_copy_construct (f := f) x s) as Hs. by rewrite E in Hs. Qed.

Lemma stable_move_construct_eq `{!ElemStable f} x s s' x' r :
  elem.move_construct x s = (s', x', r) → f s' = f s.
Proof. intros E. pose proof (stable_move_construct (f := f) x s) as Hs. by rewrite E in Hs. Qed.



Lemma stable_emplace `{!ElemStable f} a s s' r : Vector.emplace a s = (s', r) → f s' = f s.
Proof.
  destruct a as [a|value|value]; cbn [Vector.emplace].
  - apply stable_construct_eq.
  - apply stable_copy_construct_eq.
  - destruct (elem.move_construct value s) as [[s1 x'] o] eqn:E.
    intros [= <- <-]. by eapply stable_move_construct_eq.
Qed.

Lemma stable_destroy_all `{!ElemStable f} xs : ∀ s, f (destroy_all xs s) = f s.
Proof.
  induction xs as [|x xs IH]; intros s; [done|].
  rewrite destroy_all_cons, IH. apply stable_destroy.
Qed.


Lemma stable_copy_all `{!ElemStable f} xs : ∀ s s' r, copy_all xs s = (s', r) → f s' = f s.
Proof.
  induction xs as [|x xs IH]; intros s s' r; cbn [copy_all]; [by intros [= <- <-]|].
  destruct (elem.copy_construct x s) as [s1 [y|]] eqn:E1;
    [|intros [= <- <-]; by eapply stable_copy_construct_eq].
  apply stable_copy_construct_eq in E1.
  destruct (copy_all xs s1) as [s2 [ys|]] eqn:E2; apply IH in E2;
    intros [= <- <-]; rewrite ?stable_destroy; congruence.
Qed.

Lemma stable_move_all `{!ElemStable f} xs : ∀ s s' rs r, move_all xs s = (s', rs, r) → f s' = f s.
Proof.
  induction xs as [|x xs IH]; intros s s' rs r; cbn [move_all]; [by intros [= <- <- <-]|].
  destruct (elem.move_construct x s) as [[s1 x'] [y|]] eqn:E1;
    [|intros [= <- <- <-]; by eapply stable_move_construct_eq].
  apply stable_move_construct_eq in E1.
  destruct (move_all xs s1) as [[s2 rs'] [ys|]] eqn:E2; apply IH in E2;
    intros [= <- <- <-]; rewrite ?stable_destroy; congruence.
Qed.

Lemma stable_migrate_all `{!ElemStable f} xs s s' rs r : migrate_all xs s = (s', rs, r) → f s' = f s.
Proof.
  unfold migrate_all. destruct migrates_by_move; [apply stable_move_all|].
  destruct (copy_all xs s) as [s1 o] eqn:E. intros [= <- <- <-].
  by eapply stable_copy_all.
Qed.


End stable.

(** ** The allocator calls, the requests and the slots still available *)

Section measures.
Context {T A W : Type} `{!Allocator W} `{!Element T A W}.
Local Abbreviation state := (state T A W).
Implicit Types (xs ys ds rs : list T) (s : state) (v : Vector.t T).

Lemma allocator_calls_stable : ElemStable (allocator_calls (T := T) (A := A) (W := W)).
Proof.
  split; intros; unfold elem.value_init, elem.construct, elem.copy_construct,
    elem.move_construct, elem.copy_assign, elem.move_assign, elem.destroy;
    repeat case_match; done.
Qed.

Lemma requests_stable : ElemStable (requests (T := T) (A := A) (W := W)).
Proof.
  split; intros; unfold elem.value_init, elem.construct, elem.copy_construct,
    elem.move_construct, elem.copy_assign, elem.move_assign, elem.destroy;
    repeat case_match; done.
Qed.

Lemma available_stable free `{!Conserving T A W free} : ElemStable (available free).
Proof.
  split; intros; unfold available.
  - pose proof (free_value_init (world s)) as Hf. unfold elem.value_init.
    by destruct (value_init (world s)).
  - pose proof (free_construct a (world s)) as Hf. unfold elem.construct.
    by destruct (construct a (world s)).
  - pose proof (free_copy_construct x (world s)) as Hf. unfold elem.copy_construct.
    by destruct (copy_construct x (world s)).
  - pose proof (free_move_construct x (world s)) as Hf. unfold elem.move_construct.
    by destruct (move_construct x (world s)) as [[??]?].
  - pose proof (free_copy_assign d x (world s)) as Hf. unfold elem.copy_assign.
    by destruct (copy_assign d x (world s)) as [[??]?].
  - pose proof (free_move_assign d x (world s)) as Hf. unfold elem.move_assign.
    by destruct (move_assign d x (world s)) as [[[??]?]?].
  - apply free_destroy.
Qed.



Lemma requests_alloc n s s' ok :
  alloc n s = (s', ok) →
  requests s' = if decide (n = 0) then requests s else n :: requests s.
Proof.
  unfold alloc. destruct (decide (n = 0)) as [->|Hn].
  - rewrite decide_False by auto. by intros [= <- <-].
  - rewrite decide_True by done.
    destruct (operator_new n (world s)) as [w o]. by intros [= <- <-].
Qed.

Lemma requests_release n s : requests (release n s) = requests s.
Proof. unfold release, RawMemory.Deallocate. by destruct n. Qed.



End measures.

#[export] Hint Resolve allocator_calls_stable requests_stable available_stable
  : typeclass_instances.

(** ** Element access, failed assertions and appends that return *)

Section access.
Context {T A W : Type} `{!Allocator W} `{!Element T A W}.
Local Abbreviation state := (state T A W).
Implicit Types (xs ys ds rs : list T) (s : state) (v : Vector.t T).

Lemma load_repr xs cap i :
  load ((Some <$> xs) ++ replicate (cap - length xs) (@None T)) i = xs !! i.
Proof.
  unfold load. destruct (decide (i < length xs)) as [Hi|Hi].
  - rewrite lookup_app_l by (by rewrite length_fmap).
    rewrite list_lookup_fmap. by destruct (xs !! i).
  - rewrite (lookup_ge_None_2 xs) by lia.
    rewrite lookup_app_r by (rewrite length_fmap; lia).
    destruct (replicate _ _ !! _) as [o|] eqn:E; [|done].
    by apply lookup_replicate in E as [-> _].
Qed.

Lemma index_repr xs cap i :
  length xs ≤ cap → Vector.index (repr xs cap) i = xs !! i.
Proof.
  intros Hle. unfold Vector.index, RawMemory.index. simp_repr.
  destruct (decide (i < length xs)) as [Hi|Hi].
  - rewrite decide_True by lia. apply load_repr.
  - symmetry. apply lookup_ge_None_2. lia.
Qed.

Lemma PopBack_abort v s : Vector.size_ v = 0 → Vector.PopBack v s = (s, v, Abort).
Proof. intros Hs. unfold Vector.PopBack. by rewrite decide_False by lia. Qed.

Lemma Erase_abort p v s : Vector.size_ v ≤ p → Vector.Erase p v s = (s, v, Abort).
Proof. intros Hs. unfold Vector.Erase. by rewrite decide_False by lia. Qed.

Lemma Emplace_abort p a v s : Vector.size_ v < p → Vector.Emplace p a v s = (s, v, Abort).
Proof. intros Hs. unfold Vector.Emplace. by rewrite decide_False by lia. Qed.


End access.

(** ** Operations within the capacity *)

Section in_place.
Context {T A W : Type} `{!Allocator W} `{!Element T A W} {X : Type}.
Context (f : state T A W → X).
Local Abbreviation state := (state T A W).
Implicit Types (xs ys ds rs : list T) (s : state) (v r : Vector.t T).






End in_place.

Section one_request.
Context {T A W : Type} `{!Allocator W} `{!Element T A W}.
Local Abbreviation state := (state T A W).
Implicit Types (xs ys ds rs : list T) (s : state) (v r : Vector.t T).



End one_request.

(** ** Repeated appends *)

Section appends.
Context {T A W : Type} `{!Allocator W} `{!Element T A W}.
Local Abbreviation state := (state T A W).
Implicit Types (xs ys ds rs values : list T) (s : state) (v r : Vector.t T).

Lemma PushBack_all_app values1 values2 v s :
  PushBack_all (values1 ++ values2) v s
  = match PushBack_all values1 v s with
    | (s1, v1, Return _) => PushBack_all values2 v1 s1
    | r => r
    end.
Proof.
  revert v s. induction values1 as [|x values1 IH]; intros v s; cbn [PushBack_all app].
  - done.
  - destruct (Vector.PushBack x v s) as [[s1 v1] [[]| |]]; [apply IH|done..].
Qed.



Lemma PushBack_total `{!NeverThrows T A W} `{!ValueSemantics T A W} value xs cap s :
  length xs ≤ cap →
  ∃ s', Vector.PushBack value (repr xs cap) s
        = (s', repr (xs ++ [value]) (if decide (length xs < cap) then cap else grown cap),
           Return tt) ∧
    requests s' = if decide (length xs < cap) then requests s else grown cap :: requests s.
Proof.
  intros Hle. unfold Vector.PushBack. case_decide as Hlt.
  - rewrite EmplaceBackImpl_room by done.
    pose proof (emplace_succeeds (ConstRef value) s) as Hs.
    destruct (Vector.emplace (ConstRef value) s) as [s1 [x|]] eqn:Ee;
      [|by destruct Hs].
    pose proof Ee as Ev. apply emplace_value with (value := value) in Ev as ->; [|by left].
    apply (stable_emplace requests) in Ee. by exists s1.
  - assert (cap = length xs) as -> by lia. rewrite EmplaceBackImpl_full.
    pose proof (grown_gt (length xs)) as Hg.
    pose proof (alloc_succeeds (grown (length xs)) s) as Ha.
    destruct (alloc _ s) as [s1 ok] eqn:Ea. cbn in Ha. subst ok.
    apply requests_alloc in Ea. rewrite decide_False in Ea by lia.
    pose proof (emplace_succeeds (ConstRef value) s1) as Hs.
    destruct (Vector.emplace (ConstRef value) s1) as [s2 [x|]] eqn:Ee;
      [|by destruct Hs].
    pose proof Ee as Ev. apply emplace_value with (value := value) in Ev as ->; [|by left].
    apply (stable_emplace requests) in Ee.
    pose proof (migrate_all_succeeds xs s2) as Hm.
    destruct (migrate_all xs s2) as [[s3 rs] [ys|]] eqn:Em; [|by destruct Hm].
    pose proof Em as Ev. apply migrate_all_value in Ev as ->.
    apply (stable_migrate_all requests) in Em.
    eexists. split; [reflexivity|].
    rewrite requests_release, (stable_destroy_all requests). congruence.
Qed.

Lemma log2_up_succ_room n :
  1 ≤ n → n < 2 ^ Nat.log2_up n → Nat.log2_up (S n) = Nat.log2_up n.
Proof.
  intros Hn Hlt. apply Nat.le_antisymm.
  - apply Nat.log2_up_le_pow2; lia.
  - apply Nat.log2_up_le_mono. lia.
Qed.

Lemma log2_up_succ_full n :
  1 ≤ n → n = 2 ^ Nat.log2_up n → Nat.log2_up (S n) = S (Nat.log2_up n).
Proof.
  intros Hn Heq. set (k := Nat.log2_up n) in *. rewrite Heq.
  apply Nat.log2_up_succ_pow2. lia.
Qed.
End appends.

(** ** Constructor and destructor calls in balance *)

Section balance.
Context {T A W : Type} `{!Allocator W} `{!Element T A W}.
Local Abbreviation state := (state T A W).
Implicit Types (xs ys ds rs : list T) (s : state) (v : Vector.t T).
Local Open Scope Z_scope.

Lemma alive_log e s w : alive (elem.log e s w) = lifetime_change e + alive s.
Proof. done. Qed.

Lemma alive_value_init s s' r : elem.value_init s = (s', r) → alive s' = alive s + 1.
Proof.
  unfold elem.value_init. destruct (value_init (world s)) as [w o].
  intros [= <- <-]. rewrite alive_log. cbn. lia.
Qed.

Lemma alive_construct a s s' r : elem.construct a s = (s', r) → alive s' = alive s + 1.
Proof.
  unfold elem.construct. destruct (construct a (world s)) as [w o].
  intros [= <- <-]. rewrite alive_log. cbn. lia.
Qed.

Lemma alive_copy_construct x s s' r :
  elem.copy_construct x s = (s', r) → alive s' = alive s + 1.
Proof.
  unfold elem.copy_construct. destruct (copy_construct x (world s)) as [w o].
  intros [= <- <-]. rewrite alive_log. cbn. lia.
Qed.

Lemma alive_move_construct x s s' x' r :
  elem.move_construct x s = (s', x', r) → alive s' = alive s + 1.
Proof.
  unfold elem.move_construct. destruct (move_construct x (world s)) as [[w y] o].
  intros [= <- <- <-]. rewrite alive_log. cbn. lia.
Qed.

Lemma alive_copy_assign d x s s' d' ok :
  elem.copy_assign d x s = (s', d', ok) → alive s' = alive s.
Proof.
  unfold elem.copy_assign. destruct (copy_assign d x (world s)) as [[w y] o].
  intros [= <- <- <-]. rewrite alive_log. cbn. lia.
Qed.

Lemma alive_move_assign d x s s' d' x' ok :
  elem.move_assign d x s = (s', d', x', ok) → alive s' = alive s.
Proof.
  unfold elem.move_assign. destruct (move_assign d x (world s)) as [[[w y] z] o].
  intros [= <- <- <- <-]. rewrite alive_log. cbn. lia.
Qed.

Lemma alive_destroy x s : alive (elem.destroy x s) = alive s - 1.
Proof. unfold elem.destroy. rewrite alive_log. cbn. lia. Qed.

Lemma alive_emplace a s s' r : Vector.emplace a s = (s', r) → alive s' = alive s + 1.
Proof.
  destruct a as [a|value|value]; cbn [Vector.emplace].
  - apply alive_construct.
  - apply alive_copy_construct.
  - destruct (elem.move_construct value s) as [[s1 x'] o] eqn:E.
    intros [= <- <-]. by eapply alive_move_construct.
Qed.

Lemma alive_alloc n s s' ok : alloc n s = (s', ok) → alive s' = alive s.
Proof.
  unfold alloc. case_decide; [|by intros [= <- <-]].
  destruct (operator_new n (world s)) as [w o]. intros [= <- <-].
  rewrite alive_log. cbn. lia.
Qed.

Lemma alive_release n s : alive (release n s) = alive s.
Proof.
  unfold release, RawMemory.Deallocate. destruct n as [|n]; [done|].
  cbn [replicate]. rewrite alive_log. cbn. lia.
Qed.

Lemma alive_destroy_all xs : ∀ s, alive (destroy_all xs s) = alive s - Z.of_nat (length xs).
Proof.
  induction xs as [|x xs IH]; intros s; [cbn; lia|].
  rewrite destroy_all_cons, IH, alive_destroy. cbn [length]. lia.
Qed.

Lemma alive_init_all n : ∀ s s' ys, init_all n s = (s', Some ys) → alive s' = alive s + Z.of_nat n.
Proof.
  induction n as [|n IH]; intros s s' ys; cbn [init_all]; [intros [= <- <-]; lia|].
  destruct (elem.value_init s) as [s1 [y|]] eqn:E1; [|done].
  apply alive_value_init in E1.
  destruct (init_all n s1) as [s2 [zs|]] eqn:E2; [|done]. apply IH in E2.
  intros [= <- <-]. lia.
Qed.

Lemma alive_copy_all xs : ∀ s s' ys,
  copy_all xs s = (s', Some ys) → alive s' = alive s + Z.of_nat (length xs).
Proof.
  induction xs as [|x xs IH]; intros s s' ys; cbn [copy_all]; [intros [= <- <-]; cbn; lia|].
  destruct (elem.copy_construct x s) as [s1 [y|]] eqn:E1; [|done].
  apply alive_copy_construct in E1.
  destruct (copy_all xs s1) as [s2 [zs|]] eqn:E2; [|done]. apply IH in E2.
  intros [= <- <-]. cbn [length]. lia.
Qed.

Lemma alive_move_all xs : ∀ s s' rs ys,
  move_all xs s = (s', rs, Some ys) → alive s' = alive s + Z.of_nat (length xs).
Proof.
  induction xs as [|x xs IH]; intros s s' rs ys; cbn [move_all];
    [intros [= <- <- <-]; cbn; lia|].
  destruct (elem.move_construct x s) as [[s1 x'] [y|]] eqn:E1; [|done].
  apply alive_move_construct in E1.
  destruct (move_all xs s1) as [[s2 rs'] [zs|]] eqn:E2; [|done]. apply IH in E2.
  intros [= <- <- <-]. cbn [length]. lia.
Qed.

Lemma alive_migrate_all xs s s' rs ys :
  migrate_all xs s = (s', rs, Some ys) → alive s' = alive s + Z.of_nat (length xs).
Proof.
  unfold migrate_all. destruct migrates_by_move; [apply alive_move_all|].
  destruct (copy_all xs s) as [s1 o] eqn:E. intros [= <- <- ->].
  by eapply alive_copy_all.
Qed.

Lemma alive_assign_all ds : ∀ xs s s' ds' ok,
  assign_all ds xs s = (s', ds', ok) → alive s' = alive s.
Proof.
  induction ds as [|d ds IH]; intros [|x xs] s s' ds' ok; cbn [assign_all];
    try by intros [= <- <- <-].
  destruct (elem.copy_assign d x s) as [[s1 d1] [|]] eqn:E1;
    apply alive_copy_assign in E1; [|by intros [= <- <- <-]].
  destruct (assign_all ds xs s1) as [[s2 r] ok2] eqn:E2; apply IH in E2.
  intros [= <- <- <-]. congruence.
Qed.

Lemma alive_move_chain xs : ∀ d s s' vs ok,
  move_chain d xs s = (s', vs, ok) → alive s' = alive s.
Proof.
  induction xs as [|x xs IH]; intros d s s' vs ok; cbn [move_chain];
    [by intros [= <- <- <-]|].
  destruct (elem.move_assign d x s) as [[[s1 d1] x1] [|]] eqn:E1;
    apply alive_move_assign in E1; [|by intros [= <- <- <-]].
  destruct (move_chain x1 xs s1) as [[s2 r] ok2] eqn:E2; apply IH in E2.
  intros [= <- <- <-]. congruence.
Qed.
End balance.

(** ** The recorded history only grows *)

Section history.
Context {T A W : Type} `{!Allocator W} `{!Element T A W}.
Local Abbreviation state := (state T A W).
Implicit Types (xs ys ds rs : list T) (s : state) (v : Vector.t T).

Lemma history_log e s w : trace s `suffix_of` trace (elem.log e s w).
Proof. by apply suffix_cons_r. Qed.

Lemma history_destroy x s : trace s `suffix_of` trace (elem.destroy x s).
Proof. apply history_log. Qed.

Lemma history_release n s : trace s `suffix_of` trace (release n s).
Proof.
  unfold release, RawMemory.Deallocate. destruct n as [|n]; [done|]. apply history_log.
Qed.

Lemma history_copy_construct x s s' r :
  elem.copy_construct x s = (s', r) → trace s `suffix_of` trace s'.
Proof.
  unfold elem.copy_construct. destruct (copy_construct x (world s)) as [w o].
  intros [= <- <-]. apply history_log.
Qed.

Lemma history_move_construct x s s' x' r :
  elem.move_construct x s = (s', x', r) → trace s `suffix_of` trace s'.
Proof.
  unfold elem.move_construct. destruct (move_construct x (world s)) as [[w y] o].
  intros [= <- <- <-]. apply history_log.
Qed.

Lemma history_move_assign d x s s' d' x' ok :
  elem.move_assign d x s = (s', d', x', ok) → trace s `suffix_of` trace s'.
Proof.
  unfold elem.move_assign. destruct (move_assign d x (world s)) as [[[w y] z] o].
  intros [= <- <- <- <-]. apply history_log.
Qed.

Lemma history_destroy_all xs : ∀ s, trace s `suffix_of` trace (destroy_all xs s).
Proof.
  induction xs as [|x xs IH]; intros s; [done|].
  rewrite destroy_all_cons. etrans; [apply (history_destroy x)|apply IH].
Qed.

Lemma history_copy_all xs : ∀ s s' r,
  copy_all xs s = (s', r) → trace s `suffix_of` trace s'.
Proof.
  induction xs as [|x xs IH]; intros s s' r; cbn [copy_all]; [by intros [= <- <-]|].
  destruct (elem.copy_construct x s) as [s1 [y|]] eqn:E1;
    apply history_copy_construct in E1; [|by intros [= <- <-]].
  destruct (copy_all xs s1) as [s2 [ys|]] eqn:E2; apply IH in E2;
    intros [= <- <-]; [by etrans|].
  etrans; [done|]. etrans; [done|]. apply history_destroy.
Qed.

Lemma history_move_all xs : ∀ s s' rs r,
  move_all xs s = (s', rs, r) → trace s `suffix_of` trace s'.
Proof.
  induction xs as [|x xs IH]; intros s s' rs r; cbn [move_all];
    [by intros [= <- <- <-]|].
  destruct (elem.move_construct x s) as [[s1 x'] [y|]] eqn:E1;
    apply history_move_construct in E1; [|by intros [= <- <- <-]].
  destruct (move_all xs s1) as [[s2 rs'] [ys|]] eqn:E2; apply IH in E2;
    intros [= <- <- <-]; [by etrans|].
  etrans; [done|]. etrans; [done|]. apply history_destroy.
Qed.

Lemma history_migrate_all xs s s' rs r :
  migrate_all xs s = (s', rs, r) → trace s `suffix_of` trace s'.
Proof.
  unfold migrate_all. destruct migrates_by_move; [apply history_move_all|].
  destruct (copy_all xs s) as [s1 o] eqn:E. intros [= <- <- <-].
  by eapply history_copy_all.
Qed.

Lemma history_move_chain xs : ∀ d s s' vs ok,
  move_chain d xs s = (s', vs, ok) → trace s `suffix_of` trace s'.
Proof.
  induction xs as [|x xs IH]; intros d s s' vs ok; cbn [move_chain];
    [by intros [= <- <- <-]|].
  destruct (elem.move_assign d x s) as [[[s1 d1] x1] [|]] eqn:E1;
    apply history_move_assign in E1; [|by intros [= <- <- <-]].
  destruct (move_chain x1 xs s1) as [[s2 r] ok2] eqn:E2; apply IH in E2.
  intros [= <- <- <-]. by etrans.
Qed.

Lemma emplace_first a s s' r :
  Vector.emplace a s = (s', r) → trace s' = emplace_event a :: trace s.
Proof.
  destruct a as [a|value|value]; cbn [Vector.emplace emplace_event].
  - unfold elem.construct. destruct (construct a (world s)) as [w o].
    by intros [= <- <-].
  - unfold elem.copy_construct. destruct (copy_construct value (world s)) as [w o].
    by intros [= <- <-].
  - unfold elem.move_construct. destruct (move_construct value (world s)) as [[w y] o].
    by intros [= <- <-].
Qed.

Lemma alloc_first n s s' ok :
  n ≠ 0 → alloc n s = (s', ok) → trace s' = EvNew n :: trace s.
Proof.
  intros Hn. unfold alloc. rewrite decide_True by done.
  destruct (operator_new n (world s)) as [w o]. by intros [= <- <-].
Qed.
End history.

(** ** The probe allocator keeps count *)

Section probe_count.
Import probe.

End probe_count.

(** ** A vector left with an element past its size *)

Section torn.
Context {T : Type}.
Implicit Types (xs : list T).

End torn.

(** * The claims *)

Section claims.
Context {T A W : Type} `{!Allocator W} `{!Element T A W}.
Local Abbreviation state := (state T A W).
Implicit Types (xs ys ds rs : list T) (s : state) (v : Vector.t T).


(** C5.  When an append or an insert finds the vector full
    ([size_ = capacity]), the block it requests has
    [max(1, 2 * capacity)] slots, for every capacity including 0: the
    request is the first thing the call does, a refused request leaves the
    vector unchanged, and after a call that returns the capacity is
    [max(1, 2 * capacity)]; when nothing throws, the call returns.
    [PushBack], [EmplaceBack] and [Insert] are [EmplaceBackImpl] and
    [Emplace] at their argument packs. *)
Theorem growth_doubles v a pos s :
  invariant v → Vector.size_ v = Vector.Capacity v → pos ≤ Vector.size_ v →
  let cap := Vector.Capacity v in
  (NeverThrows T A W →
   ∃ s' v' s'' v'',
     Vector.EmplaceBackImpl a v s = (s', v', Return (Vector.size_ v)) ∧
     Vector.Emplace pos a v s = (s'', v'', Return pos)) ∧
  ∃ s1 ok, alloc (Nat.max 1 (2 * cap)) s = (s1, ok) ∧
    trace s1 = EvNew (Nat.max 1 (2 * cap)) :: trace s ∧
    if ok then
      (∀ s' v' i, Vector.EmplaceBackImpl a v s = (s', v', Return i) →
                  Vector.Capacity v' = Nat.max 1 (2 * cap)) ∧
      (∀ s' v' i, Vector.Emplace pos a v s = (s', v', Return i) →
                  Vector.Capacity v' = Nat.max 1 (2 * cap))
    else
      Vector.EmplaceBackImpl a v s = (s1, v, Throw) ∧
      Vector.Emplace pos a v s = (s1, v, Throw).
Proof.
  intros Hinv Hfull Hpos. cbv zeta.
  apply invariant_iff in Hinv as (xs & cap & Hle & ->).
  rewrite size_repr, Capacity_repr in *. subst cap.
  fold (grown (length xs)). split.
  { intros Hnt.
    destruct (EmplaceBackImpl_total xs (length xs) a s Hle) as (s' & v' & ->).
    destruct (Emplace_total xs (length xs) pos a s Hle Hpos) as (s'' & v'' & ->).
    by exists s', v', s'', v''. }
  destruct (alloc (grown (length xs)) s) as [s1 ok] eqn:Ea.
  exists s1, ok. split; [done|]. split.
  { unfold alloc in Ea. rewrite decide_True in Ea by (unfold grown; lia).
    destruct (operator_new _ _) as [w ok']. by injection Ea as <- <-. }
  rewrite EmplaceBackImpl_full, Emplace_full_at, Ea by done.
  destruct ok; [|done]. split.
  - intros s' v' i.
    destruct (Vector.emplace a s1) as [s2 [x|]]; [|done].
    destruct (migrate_all xs s2) as [[s3 rs] [ys|]]; [|done].
    by intros [= <- <- <-].
  - intros s' v' i.
    destruct (Vector.emplace a s1) as [s2 [x|]]; [|done].
    destruct (migrate_all (take pos xs) s2) as [[s3 ls] [ls'|]]; [|done].
    destruct (migrate_all (drop pos xs) s3) as [[s4 rs] [rs'|]]; [|done].
    by intros [= <- <- <-].
Qed.



End claims.

Section claims_store.
Context {T A W : Type} `{!Allocator W} `{!Element T A W}.
Local Abbreviation state := (state T A W).
Implicit Types (s : state) (v r : Vector.t T) (σ : gmap nat (Vector.t T)).

(** C7.  The move constructor hands the source's block and size to the new
    object and leaves the source with no block, capacity 0 and size 0; it
    is a function of the source alone, so it cannot throw and runs no
    operation of the element type.  The move assignment between two
    different objects always returns: the target takes over the source's
    block and size, the source is left with no block, capacity 0 and
    size 0, and the only effect on the state is the release of the
    target's former block: no element is constructed, assigned or
    destroyed. *)
Theorem move_leaves_source_empty this rhs σ v r s :
  σ !! this = Some v → σ !! rhs = Some r → this ≠ rhs →
  Vector.move_ctor r = (r, Vector.default) ∧
  Vector.size_ (@Vector.default T) = 0 ∧
  Vector.Capacity (@Vector.default T) = 0 ∧
  RawMemory.buffer_ (Vector.data_ (@Vector.default T)) = nullptr ∧
  Vector.move_assign this rhs σ s
  = (RawMemory.Deallocate (RawMemory.buffer_ (Vector.data_ v)) s,
     <[rhs := Vector.default]> (<[this := r]> σ), Return tt) ∧
  (trace (RawMemory.Deallocate (RawMemory.buffer_ (Vector.data_ v)) s) = trace s ∨
   trace (RawMemory.Deallocate (RawMemory.buffer_ (Vector.data_ v)) s)
   = EvDelete (live (RawMemory.buffer_ (Vector.data_ v))) :: trace s).
Proof.
  intros Hv Hr Hne. split_and!; try done.
  - by destruct r as [[buf cap] sz].
  - unfold Vector.move_assign. rewrite Hv, Hr, decide_True by done.
    rewrite move_assign_body_spec. by destruct r as [[buf cap] sz].
  - unfold RawMemory.Deallocate. destruct (RawMemory.buffer_ _); [by left|by right].
Qed.

(** C4.  Copy assignment [this = rhs] between two different objects, the
    target holding [ds] in a block of [cap] slots, the source holding
    [xs].  It reallocates exactly when [xs] is longer than [cap]: it
    requests a block for [xs], copy-constructs [xs] into it, and only then
    destroys [ds], releases the old block and adopts the copy; when the
    request or a copy throws, the target is unmodified.  Otherwise it works
    in place, in the same block: it assigns over the common prefix, then
    destroys the excess of [ds] (shrinking) or copy-constructs the rest of
    [xs] (growing); when an assignment or a copy throws here, the target is
    left valid in the same block with its old size, holding [ds'], the
    prefix as far as it was assigned.  In every case the source is
    untouched, the call never runs into undefined behaviour, the target
    satisfies the invariant afterwards, and when the call returns the
    target has the size and the element values of the source. *)
Theorem copy_assign_correct `{!ValueSemantics T A W} this rhs σ v r s :
  σ !! this = Some v → σ !! rhs = Some r → this ≠ rhs →
  invariant v → invariant r →
  let ds := elements v in
  let xs := elements r in
  let cap := Vector.Capacity v in
  (cap < length xs →
   ∃ s1 ok, alloc (length xs) s = (s1, ok) ∧
     if ok then
       ∃ s2 o, copy_all xs s1 = (s2, o) ∧
         match o with
         | Some _ =>
             Vector.copy_assign this rhs σ s
             = (release cap (destroy_all ds s2), <[this := repr xs (length xs)]> σ,
                Return tt)
         | None => Vector.copy_assign this rhs σ s = (release (length xs) s2, σ, Throw)
         end
     else Vector.copy_assign this rhs σ s = (s1, σ, Throw)) ∧
  (length xs ≤ cap → length xs < length ds →
   ∃ s1 ds' ok, assign_all (take (length xs) ds) xs s = (s1, ds', ok) ∧
     length ds' = length xs ∧
     if ok then
       Vector.copy_assign this rhs σ s
       = (destroy_all (drop (length xs) ds) s1, <[this := repr xs cap]> σ, Return tt)
     else
       Vector.copy_assign this rhs σ s
       = (s1, <[this := repr (ds' ++ drop (length xs) ds) cap]> σ, Throw)) ∧
  (length xs ≤ cap → length ds ≤ length xs →
   ∃ s1 ds' ok, assign_all ds (take (length ds) xs) s = (s1, ds', ok) ∧
     length ds' = length ds ∧
     if ok then
       ∃ s2 o, copy_all (drop (length ds) xs) s1 = (s2, o) ∧
         match o with
         | Some _ =>
             Vector.copy_assign this rhs σ s = (s2, <[this := repr xs cap]> σ, Return tt)
         | None =>
             Vector.copy_assign this rhs σ s
             = (s2, <[this := repr (take (length ds) xs) cap]> σ, Throw)
         end
     else Vector.copy_assign this rhs σ s = (s1, <[this := repr ds' cap]> σ, Throw)) ∧
  (∀ s' σ' o, Vector.copy_assign this rhs σ s = (s', σ', o) →
     o ≠ Abort ∧ σ' !! rhs = Some r ∧
     ∃ v', σ' = <[this := v']> σ ∧ invariant v' ∧
       (o = Return tt → elements v' = xs ∧ Vector.size_ v' = Vector.size_ r) ∧
       (o = Throw → cap < length xs → v' = v) ∧
       (o = Throw → length xs ≤ cap →
        Vector.Capacity v' = cap ∧ Vector.size_ v' = Vector.size_ v)).
Proof.
  intros Hv Hr Hne Hiv Hir. cbv zeta.
  apply invariant_iff in Hiv as (ds & cap & Hle & ->).
  apply invariant_iff in Hir as (xs & cap' & Hle' & ->).
  rewrite !elements_repr, Capacity_repr, !size_repr.
  rewrite (copy_assign_store _ _ _ _ _ _ Hv Hr Hne).
  assert (Hre : cap < length xs →
    ∃ s1 ok, alloc (length xs) s = (s1, ok) ∧
      if ok then
        ∃ s2 o, copy_all xs s1 = (s2, o) ∧
          match o with
          | Some _ =>
              Vector.copy_assign_body (repr ds cap) (repr xs cap') s
              = (release cap (destroy_all ds s2), repr xs (length xs), Return tt)
          | None =>
              Vector.copy_assign_body (repr ds cap) (repr xs cap') s
              = (release (length xs) s2, repr ds cap, Throw)
          end
      else Vector.copy_assign_body (repr ds cap) (repr xs cap') s
           = (s1, repr ds cap, Throw)).
  { intros Hlt. rewrite copy_assign_realloc by done.
    destruct (alloc (length xs) s) as [s1 ok] eqn:Ea. exists s1, ok. split; [done|].
    destruct ok; [|done].
    destruct (copy_all xs s1) as [s2 o] eqn:Ec. exists s2, o. split; [done|].
    destruct o as [ys|]; [|done]. by apply copy_all_value in Ec as ->. }
  assert (Hsh : length xs ≤ cap → length xs < length ds →
    ∃ s1 ds' ok, assign_all (take (length xs) ds) xs s = (s1, ds', ok) ∧
      length ds' = length xs ∧
      if ok then
        Vector.copy_assign_body (repr ds cap) (repr xs cap') s
        = (destroy_all (drop (length xs) ds) s1, repr xs cap, Return tt)
      else
        Vector.copy_assign_body (repr ds cap) (repr xs cap') s
        = (s1, repr (ds' ++ drop (length xs) ds) cap, Throw)).
  { intros Hc Hlt. rewrite copy_assign_shrink by done.
    destruct (assign_all (take (length xs) ds) xs s) as [[s1 ds'] ok] eqn:Ea.
    exists s1, ds', ok.
    pose proof (assign_all_length _ _ _ _ _ _ Ea) as Hl. rewrite length_take in Hl.
    split_and!; [done|lia|]. destruct ok; [|done].
    apply assign_all_value in Ea as ->; [done|]. rewrite length_take. lia. }
  assert (Hgr : length xs ≤ cap → length ds ≤ length xs →
    ∃ s1 ds' ok, assign_all ds (take (length ds) xs) s = (s1, ds', ok) ∧
      length ds' = length ds ∧
      if ok then
        ∃ s2 o, copy_all (drop (length ds) xs) s1 = (s2, o) ∧
          match o with
          | Some _ =>
              Vector.copy_assign_body (repr ds cap) (repr xs cap') s
              = (s2, repr xs cap, Return tt)
          | None =>
              Vector.copy_assign_body (repr ds cap) (repr xs cap') s
              = (s2, repr (take (length ds) xs) cap, Throw)
          end
      else Vector.copy_assign_body (repr ds cap) (repr xs cap') s
           = (s1, repr ds' cap, Throw)).
  { intros Hc Hlt. rewrite copy_assign_grow by done.
    destruct (assign_all ds (take (length ds) xs) s) as [[s1 ds'] ok] eqn:Ea.
    exists s1, ds', ok.
    pose proof (assign_all_length _ _ _ _ _ _ Ea) as Hl.
    split_and!; [done..|]. destruct ok; [|done].
    apply assign_all_value in Ea as ->; [|rewrite length_take; lia].
    destruct (copy_all (drop (length ds) xs) s1) as [s2 o] eqn:Ec.
    exists s2, o. split; [done|]. destruct o as [ys|]; [|done].
    apply copy_all_value in Ec as ->. by rewrite take_drop. }
  split_and!.
  - intros Hlt. destruct (Hre Hlt) as (s1 & ok & Ea & H1). exists s1, ok.
    split; [done|]. destruct ok.
    + destruct H1 as (s2 & o & Ec & H1). exists s2, o. split; [done|].
      destruct o; rewrite H1; [done|]. by rewrite insert_id.
    + rewrite H1. by rewrite insert_id.
  - intros Hc Hlt. destruct (Hsh Hc Hlt) as (s1 & ds' & ok & Ea & Hl & H1).
    exists s1, ds', ok. split_and!; [done..|]. by destruct ok; rewrite H1.
  - intros Hc Hlt. destruct (Hgr Hc Hlt) as (s1 & ds' & ok & Ea & Hl & H1).
    exists s1, ds', ok. split_and!; [done..|]. destruct ok.
    + destruct H1 as (s2 & o & Ec & H1). exists s2, o. split; [done|].
      by destruct o; rewrite H1.
    + by rewrite H1.
  - intros s' σ' o.
    destruct (Vector.copy_assign_body (repr ds cap) (repr xs cap') s)
      as [[s1 v1] o1] eqn:E.
    intros [= <- <- <-]. rewrite lookup_insert_ne by done.
    assert (o1 ≠ Abort ∧ invariant v1 ∧
      (o1 = Return tt → elements v1 = xs ∧ Vector.size_ v1 = length xs) ∧
      (o1 = Throw → cap < length xs → v1 = repr ds cap) ∧
      (o1 = Throw → length xs ≤ cap →
       Vector.Capacity v1 = cap ∧ Vector.size_ v1 = length ds)) as (? & ? & ? & ? & ?);
      [|by eauto 10].
    destruct (decide (cap < length xs)) as [Hlt|Hge].
    { destruct (Hre Hlt) as (s1' & ok & Ea & H1). destruct ok.
      - destruct H1 as (s2 & o & Ec & H1). 
        destruct o; injection H1 as -> -> ->.
        + rewrite elements_repr, size_repr.
          split_and!; [done|by apply invariant_repr|done|done|intros; lia].
        + split_and!; [done|by apply invariant_repr|done|done|intros; lia].
      - injection H1 as -> -> ->.
        split_and!; [done|by apply invariant_repr|done|done|intros; lia]. }
    destruct (decide (length xs < length ds)) as [Hlt|Hge'].
    { destruct (Hsh ltac:(lia) Hlt) as (s1' & ds' & ok & Ea & Hl & H1).
      destruct ok; injection H1 as -> -> ->.
      - rewrite elements_repr, size_repr.
        split_and!; [done|apply invariant_repr; lia|done|intros; lia|done].
      - assert (Hlen : length (ds' ++ drop (length xs) ds) = length ds)
          by (rewrite length_app, length_drop; lia).
        rewrite size_repr, Capacity_repr.
        split_and!; [done|apply invariant_repr; lia|done|intros; lia|done]. }
    destruct (Hgr ltac:(lia) ltac:(lia)) as (s1' & ds' & ok & Ea & Hl & H1).
    destruct ok.
    + destruct H1 as (s2 & o & Ec & H1). 
      destruct o; injection H1 as -> -> ->.
      * rewrite elements_repr, size_repr.
        split_and!; [done|apply invariant_repr; lia|done|intros; lia|done].
      * assert (Hlen : length (take (length ds) xs) = length ds)
          by (rewrite length_take; lia).
        rewrite size_repr, Capacity_repr.
        split_and!; [done|apply invariant_repr; lia|done|intros; lia|done].
    + injection H1 as -> -> ->.
      rewrite size_repr, Capacity_repr.
      split_and!; [done|apply invariant_repr; lia|done|intros; lia|done].
Qed.

(** C10.  Assigning an object to itself, by copy or by move, changes
    nothing: the store of objects and the state, hence the size, the
    capacity and the elements, are what they were, and no operation of the
    element type or of the allocator has run. *)
Theorem self_assignment_noop this σ v s :
  σ !! this = Some v →
  Vector.copy_assign this this σ s = (s, σ, Return tt) ∧
  Vector.move_assign this this σ s = (s, σ, Return tt).
Proof.
  intros Hv. unfold Vector.copy_assign, Vector.move_assign.
  rewrite Hv. by rewrite !decide_False by (intros H; by apply H).
Qed.
End claims_store.

(** * Further properties of the header *)

Section more.
Context {T A W : Type} `{!Allocator W} `{!Element T A W}.
Local Abbreviation state := (state T A W).
Implicit Types (xs ys ds rs : list T) (s : state) (v r : Vector.t T).



(** The destructor destroys the elements of [[0, size_)], front to back,
    and then releases the block, in which no element is left. *)
Theorem destructor_destroys_then_releases v s :
  invariant v →
  Vector.dtor v s
  = (release (Vector.Capacity v) (destroy_all (elements v) s), Return tt) ∧
  trace (release (Vector.Capacity v) (destroy_all (elements v) s))
  = (if decide (Vector.Capacity v = 0) then [] else [EvDelete []])
    ++ (EvDestroy <$> reverse (elements v)) ++ trace s.
Proof.
  intros Hv. apply invariant_iff in Hv as (xs & cap & Hle & ->).
  rewrite elements_repr, Capacity_repr. split; [by apply dtor_spec|].
  rewrite release_trace, destroy_all_trace. by case_decide.
Qed.



(** No operation other than the move assignment releases a block in which
    elements are still constructed: started on a vector that satisfies the
    invariant, in a state whose trace records no such release, each of them
    ends in a state whose trace records none either. *)
Theorem releases_leave_nothing_behind v r s :
  invariant v → invariant r → leak_free s →
  (∀ n s' v' o, Vector.Reserve n v s = (s', v', o) → leak_free s') ∧
  (∀ n s' v' o, Vector.Resize n v s = (s', v', o) → leak_free s') ∧
  (∀ a s' v' o, Vector.EmplaceBackImpl a v s = (s', v', o) → leak_free s') ∧
  (∀ p a, p ≤ Vector.size_ v →
   ∀ s' v' o, Vector.Emplace p a v s = (s', v', o) → leak_free s') ∧
  (∀ p, p < Vector.size_ v →
   ∀ s' v' o, Vector.Erase p v s = (s', v', o) → leak_free s') ∧
  (∀ s' v' o, Vector.copy_assign_body v r s = (s', v', o) → leak_free s') ∧
  (∀ s' o, Vector.dtor v s = (s', o) → leak_free s').
Proof.
  intros Hv Hr Hs.
  apply invariant_iff in Hv as (xs & cap & Hle & ->).
  apply invariant_iff in Hr as (zs & cap' & Hle' & ->).
  rewrite size_repr.
  assert (HR : ∀ n s' v' o, Vector.Reserve n (repr xs cap) s = (s', v', o) → leak_free s').
  { intros n s' v' o. destruct (decide (n ≤ cap)) as [Hn|Hn].
    - rewrite Reserve_noop by done. by intros [= <- <- <-].
    - rewrite Reserve_grow by lia.
      destruct (alloc n s) as [s1 [|]] eqn:Ea; [|intros [= <- <- <-]; eauto with leak].
      destruct (migrate_all xs s1) as [[s2 rs] [ys|]] eqn:Em; intros [= <- <- <-];
        eauto 6 with leak. }
  split_and!.
  - done.
  - intros n s' v' o. destruct (decide (n < length xs)) as [Hn|Hn].
    + rewrite Resize_shrink by done. intros [= <- <- <-]. eauto with leak.
    + rewrite Resize_grow by lia.
      destruct (Vector.Reserve n (repr xs cap) s) as [[s1 v1] o1] eqn:E.
      apply HR in E.
      destruct o1; [|by intros [= <- <- <-]..].
      destruct (init_all _ s1) as [s2 [ys|]] eqn:Ei; intros [= <- <- <-];
        eauto with leak.
  - intros a s' v' o. destruct (decide (length xs = cap)) as [<-|Hne].
    + rewrite EmplaceBackImpl_full.
      destruct (alloc _ s) as [s1 [|]] eqn:Ea; [|intros [= <- <- <-]; eauto with leak].
      destruct (Vector.emplace a s1) as [s2 [x|]] eqn:Ee;
        [|intros [= <- <- <-]; eauto 6 with leak].
      destruct (migrate_all xs s2) as [[s3 rs] [ys|]] eqn:Em; intros [= <- <- <-];
        eauto 8 with leak.
    + rewrite EmplaceBackImpl_room by lia.
      destruct (Vector.emplace a s) as [s1 [x|]] eqn:Ee; intros [= <- <- <-];
        eauto with leak.
  - intros p a Hp s' v' o. destruct (decide (length xs = cap)) as [<-|Hne].
    + rewrite Emplace_full_at by done.
      destruct (alloc _ s) as [s1 [|]] eqn:Ea; [|intros [= <- <- <-]; eauto with leak].
      destruct (Vector.emplace a s1) as [s2 [x|]] eqn:Ee;
        [|intros [= <- <- <-]; eauto 6 with leak].
      destruct (migrate_all (take p xs) s2) as [[s3 ls] [ls'|]] eqn:E1;
        [|intros [= <- <- <-]; eauto 8 with leak].
      destruct (migrate_all (drop p xs) s3) as [[s4 rs] [rs'|]] eqn:E2;
        intros [= <- <- <-]; eauto 10 with leak.
    + destruct (decide (p = length xs)) as [->|Hpne].
      * rewrite Emplace_end_room by lia.
        destruct (Vector.emplace a s) as [s1 [x|]] eqn:Ee; intros [= <- <- <-];
          eauto with leak.
      * destruct (split_last p xs) as (l & r & z & -> & <-); [lia|].
        rewrite Emplace_mid_room by lia.
        destruct (Vector.emplace a s) as [s1 [c|]] eqn:Ee;
          [|intros [= <- <- <-]; eauto with leak].
        destruct (elem.move_construct z s1) as [[s2 z'] [y|]] eqn:Ez;
          [|intros [= <- <- <-]; eauto 6 with leak].
        destruct (move_chain z' (rev r) s2) as [[s3 vs] [|]] eqn:Ec;
          [|intros [= <- <- <-]; eauto 8 with leak].
        destruct (elem.move_assign _ c s3) as [[[s4 d'] c'] [|]] eqn:Em;
          intros [= <- <- <-]; eauto 10 with leak.
  - intros p Hp s' v' o.
    destruct (split_at p xs Hp) as (l & d & r & -> & <-).
    rewrite Erase_spec by done.
    destruct (move_chain d r s) as [[s1 vs] [|]] eqn:Ec; intros [= <- <- <-];
      eauto with leak.
  - intros s' v' o. destruct (decide (cap < length zs)) as [Hlt|Hge].
    { rewrite copy_assign_realloc by done.
      destruct (alloc _ s) as [s1 [|]] eqn:Ea; [|intros [= <- <- <-]; eauto with leak].
      destruct (copy_all zs s1) as [s2 [ys|]] eqn:Ec; intros [= <- <- <-];
        eauto 8 with leak. }
    destruct (decide (length zs < length xs)) as [Hlt|Hge'].
    { rewrite copy_assign_shrink by done.
      destruct (assign_all _ zs s) as [[s1 ds'] [|]] eqn:Ea; intros [= <- <- <-];
        eauto with leak. }
    rewrite copy_assign_grow by lia.
    destruct (assign_all xs _ s) as [[s1 ds'] [|]] eqn:Ea;
      [|intros [= <- <- <-]; eauto with leak].
    destruct (copy_all _ s1) as [s2 [ys|]] eqn:Ec; intros [= <- <- <-];
      eauto 6 with leak.
  - intros s' o. rewrite dtor_spec by done. intros [= <- <-]. eauto with leak.
Qed.
End more.
(** * Element access, bounds and the operations at the end *)

Section reads.
Context {T A W : Type} `{!Allocator W} `{!Element T A W}.
Local Abbreviation state := (state T A W).
Implicit Types (xs ys ds rs : list T) (s : state) (v r : Vector.t T).

(** [operator[]] reads the elements: on a vector that satisfies the
    invariant, [v[i]] is the [i]-th of its elements for every [i < Size()],
    and for every other index the assert fails: no slot beyond the size is
    ever handed out, whatever the capacity. *)
Theorem subscript_reads_elements v i :
  invariant v →
  Vector.index v i = elements v !! i ∧
  (i < Vector.Size v → is_Some (Vector.index v i)) ∧
  (Vector.Size v ≤ i → Vector.index v i = None).
Proof.
  intros Hv. apply invariant_iff in Hv as (xs & cap & Hle & ->).
  unfold Vector.Size. rewrite elements_repr, size_repr, index_repr by done.
  split_and!; [done| |].
  - apply lookup_lt_is_Some_2.
  - apply lookup_ge_None_2.
Qed.

(** A traversal from [begin()] to [end()] reads exactly the elements, in
    order, and nothing else of the block: [end() - begin()] is the size,
    the two iterators are equal exactly for an empty vector (also one with
    spare capacity), and the [const] iterators are the same positions. *)
Theorem traversal_visits_elements v :
  invariant v →
  range (Vector.begin v) (Vector.end_ v) = Some <$> elements v ∧
  distance (Vector.begin v) (Vector.end_ v) = Vector.Size v ∧
  (Vector.begin v = Vector.end_ v ↔ Vector.Size v = 0) ∧
  Vector.cbegin v = Vector.begin v ∧ Vector.cend v = Vector.end_ v ∧
  Vector.begin_const v = Vector.begin v ∧ Vector.end_const v = Vector.end_ v.
Proof.
  intros Hv. apply invariant_iff in Hv as (xs & cap & Hle & ->).
  rewrite elements_repr.
  unfold range, distance, Vector.begin, Vector.end_, Vector.Size. simp_repr. cbn [fst snd].
  split_and!; try done.
  - rewrite Nat.sub_0_r. apply list_eq. intros i. rewrite !list_lookup_fmap.
    destruct (decide (i < length xs)) as [Hi|Hi].
    + rewrite lookup_seq_lt by done. cbn. rewrite load_repr.
      by destruct (lookup_lt_is_Some_2 xs i Hi) as [x ->].
    + rewrite lookup_seq_ge by lia. by rewrite lookup_ge_None_2 by lia.
  - lia.
  - split; [by intros [= <-]|by intros <-].
Qed.

(** The asserts fire exactly on the calls that are out of range.  On a
    vector that satisfies the invariant, [PopBack] fails its assert exactly
    when the vector is empty, [Erase] exactly for a position at or past
    [end()], [Emplace] (so [Insert]) exactly for a position past [end()],
    and [operator[]] exactly for an index at or past the size; a failed
    assert is reached before anything has been touched.  [RawMemory]
    accepts the offset one past the last slot in [operator+] but not in
    [operator[]]. *)
Theorem assertions_fail_exactly_out_of_range v s :
  invariant v →
  ((Vector.PopBack v s).2 = Abort ↔ Vector.Size v = 0) ∧
  (Vector.Size v = 0 → Vector.PopBack v s = (s, v, Abort)) ∧
  (∀ p, ((Vector.Erase p v s).2 = Abort ↔ Vector.Size v ≤ p) ∧
        (Vector.Size v ≤ p → Vector.Erase p v s = (s, v, Abort))) ∧
  (∀ p a, ((Vector.Emplace p a v s).2 = Abort ↔ Vector.Size v < p) ∧
          (Vector.Size v < p → Vector.Emplace p a v s = (s, v, Abort))) ∧
  (∀ i, Vector.index v i = None ↔ Vector.Size v ≤ i) ∧
  (∀ i, RawMemory.plus (Vector.data_ v) i = None ↔ Vector.Capacity v < i) ∧
  (∀ i, Vector.Capacity v ≤ i → RawMemory.index (Vector.data_ v) i = None).
Proof.
  intros Hv. unfold Vector.Size. split_and!.
  - split; [|by intros Hs; rewrite PopBack_abort].
    intros Ho. destruct (decide (Vector.size_ v = 0)) as [|Hne]; [done|].
    destruct (Vector.PopBack v s) as [[s' v'] o] eqn:E.
    apply PopBack_invariant in E as [-> _]; done.
  - apply PopBack_abort.
  - intros p. split; [|apply Erase_abort].
    split; [|by intros Hs; rewrite Erase_abort].
    intros Ho. destruct (decide (Vector.size_ v ≤ p)) as [|Hne]; [done|].
    destruct (Vector.Erase p v s) as [[s' v'] o] eqn:E.
    apply Erase_invariant in E as [Hna _]; [done..|lia].
  - intros p a. split; [|apply Emplace_abort].
    split; [|by intros Hs; rewrite Emplace_abort].
    intros Ho. destruct (decide (Vector.size_ v < p)) as [|Hne]; [done|].
    destruct (Vector.Emplace p a v s) as [[s' v'] o] eqn:E.
    apply Emplace_invariant in E as [Hna _]; [done..|lia].
  - intros i. apply invariant_iff in Hv as (xs & cap & Hle & ->).
    rewrite index_repr, size_repr by done. apply lookup_ge_None.
  - intros i. unfold RawMemory.plus, Vector.Capacity, RawMemory.Capacity.
    case_decide; split; (done || lia).
  - intros i Hi. unfold RawMemory.index, Vector.Capacity, RawMemory.Capacity in *.
    by rewrite decide_False by lia.
Qed.

(** The operations at the end of the vector agree.  An [Emplace] at
    [end()] does exactly what [EmplaceBackImpl] does: the same calls of the
    allocator and of the element type in the same order, the same vector,
    the same outcome, and the iterator returned points at the element the
    reference returned refers to; so [Insert] at [end()] is [PushBack].
    An [Erase] of the last element does exactly what [PopBack] does: it
    assigns nothing and destroys the last element. *)
Theorem operations_at_the_end_agree v a value s :
  invariant v →
  Vector.Emplace (Vector.Size v) a v s = Vector.EmplaceBackImpl a v s ∧
  Vector.PushBack value v s
  = (let '(s', v', o) := Vector.Insert (Vector.Size v) value v s in
     (s', v', match o with Return _ => Return tt | _ => propagate o end)) ∧
  (Vector.Size v ≠ 0 →
   ∃ s' v', Vector.PopBack v s = (s', v', Return tt) ∧
     Vector.Erase (Vector.Size v - 1) v s = (s', v', Return (Vector.Size v - 1))).
Proof.
  intros Hv. apply invariant_iff in Hv as (xs & cap & Hle & ->).
  unfold Vector.Size. rewrite size_repr.
  assert (Hend : ∀ a', Vector.Emplace (length xs) a' (repr xs cap) s
                       = Vector.EmplaceBackImpl a' (repr xs cap) s).
  { intros a'. destruct (decide (length xs < cap)) as [Hlt|Hge].
    - by rewrite Emplace_end_room, EmplaceBackImpl_room.
    - assert (cap = length xs) as -> by lia.
      rewrite Emplace_full_at, EmplaceBackImpl_full by done.
      rewrite take_ge, drop_ge by done.
      destruct (alloc _ s) as [s1 [|]]; [|done].
      destruct (Vector.emplace a' s1) as [s2 [x|]]; [|done].
      destruct (migrate_all xs s2) as [[s3 ls] [ls'|]]; [|by rewrite app_nil_r].
      assert (migrate_all (@nil T) s3 = (s3, [], Some [])) as ->.
      { unfold migrate_all. by destruct migrates_by_move. }
      by rewrite app_nil_r. }
  split_and!; [apply Hend| |].
  - unfold Vector.PushBack, Vector.Insert. by rewrite Hend.
  - intros Hne. destruct (exists_last (l := xs)) as (l & x & ->); [by intros ->|].
    rewrite length_app in *. cbn [length] in *.
    exists (elem.destroy x s), (repr l cap). rewrite PopBack_spec by lia.
    split; [done|].
    replace (length l + 1 - 1) with (length l) by lia.
    pose proof (Erase_spec l x [] cap s) as He. cbn [move_chain] in He.
    rewrite He by (rewrite length_app; cbn; lia). cbn. by rewrite app_nil_r.
Qed.
End reads.

(** * Capacity and the allocator *)

Section capacity.
Context {T A W : Type} `{!Allocator W} `{!Element T A W}.
Local Abbreviation state := (state T A W).
Implicit Types (xs ys ds rs : list T) (s : state) (v r : Vector.t T).

(** The capacity never shrinks.  Whether they return or throw, [Reserve],
    [Resize], [EmplaceBackImpl] (so [PushBack] and [EmplaceBack]),
    [Emplace] (so [Insert]) and the copy assignment leave a capacity at
    least as large as before, [PopBack] and [Erase] leave it as it is, and
    a [Reserve(n)] or [Resize(n)] that returns leaves a capacity of at
    least [n]. *)
Theorem capacity_never_shrinks v r s :
  invariant v → invariant r →
  (∀ n s' v' o, Vector.Reserve n v s = (s', v', o) →
     Vector.Capacity v ≤ Vector.Capacity v' ∧ (o = Return tt → n ≤ Vector.Capacity v')) ∧
  (∀ n s' v' o, Vector.Resize n v s = (s', v', o) →
     Vector.Capacity v ≤ Vector.Capacity v' ∧ (o = Return tt → n ≤ Vector.Capacity v')) ∧
  (∀ a s' v' o, Vector.EmplaceBackImpl a v s = (s', v', o) →
     Vector.Capacity v ≤ Vector.Capacity v') ∧
  (∀ s' v' o, Vector.PopBack v s = (s', v', o) → Vector.Capacity v' = Vector.Capacity v) ∧
  (∀ p s' v' o, Vector.Erase p v s = (s', v', o) → Vector.Capacity v' = Vector.Capacity v) ∧
  (∀ p a s' v' o, Vector.Emplace p a v s = (s', v', o) →
     Vector.Capacity v ≤ Vector.Capacity v') ∧
  (∀ s' v' o, Vector.copy_assign_body v r s = (s', v', o) →
     Vector.Capacity v ≤ Vector.Capacity v').
Proof.
  intros Hv Hr.
  apply invariant_iff in Hv as (xs & cap & Hle & ->).
  apply invariant_iff in Hr as (zs & cap' & Hle' & ->).
  rewrite Capacity_repr. pose proof (grown_gt (length xs)) as Hg.
  assert (HR : ∀ n s' v' o, Vector.Reserve n (repr xs cap) s = (s', v', o) →
    cap ≤ Vector.Capacity v' ∧ (o = Return tt → n ≤ Vector.Capacity v')).
  { intros n s' v' o E.
    apply Reserve_shape in E as (ys & c & _ & -> & [[-> ->]|[-> ->]]); [| |done];
      rewrite Capacity_repr; split; (done || lia). }
  split_and!.
  - done.
  - intros n s' v' o. destruct (decide (n < length xs)) as [Hn|Hn].
    + rewrite Resize_shrink by done. intros [= <- <- <-].
      rewrite Capacity_repr. split; lia.
    + rewrite Resize_grow by lia.
      destruct (Vector.Reserve n (repr xs cap) s) as [[s1 v1] o1] eqn:E.
      apply HR in E as [Hc Hn'].
      destruct o1 as [[]| |]; [|by intros [= <- <- <-]..].
      destruct (init_all _ s1) as [s2 [ys|]]; intros [= <- <- <-];
        rewrite ?Capacity_repr; split; auto with lia.
  - intros a s' v' o. destruct (decide (length xs = cap)) as [<-|Hne].
    + rewrite EmplaceBackImpl_full.
      destruct (alloc _ s) as [s1 [|]]; [|intros [= <- <- <-]; by rewrite Capacity_repr].
      destruct (Vector.emplace a s1) as [s2 [x|]];
        [|intros [= <- <- <-]; by rewrite Capacity_repr].
      destruct (migrate_all xs s2) as [[s3 rs] [ys|]]; intros [= <- <- <-];
        rewrite Capacity_repr; lia.
    + rewrite EmplaceBackImpl_room by lia.
      destruct (Vector.emplace a s) as [s1 [x|]]; intros [= <- <- <-];
        by rewrite Capacity_repr.
  - intros s' v' o. destruct (decide (length xs = 0)) as [Hz|Hnz].
    + rewrite PopBack_abort by (by rewrite size_repr). intros [= <- <- <-].
      by rewrite Capacity_repr.
    + destruct (exists_last (l := xs)) as (l & x & ->); [by intros ->|].
      rewrite length_app in Hle. cbn in Hle.
      rewrite PopBack_spec by lia. intros [= <- <- <-]. by rewrite Capacity_repr.
  - intros p s' v' o. destruct (decide (p < length xs)) as [Hp|Hp].
    + destruct (split_at p xs Hp) as (l & d & r & -> & <-).
      rewrite Erase_spec by done.
      destruct (move_chain d r s) as [[s1 vs] [|]]; intros [= <- <- <-];
        by rewrite Capacity_repr.
    + rewrite Erase_abort by (rewrite size_repr; lia). intros [= <- <- <-].
      by rewrite Capacity_repr.
  - intros p a s' v' o. destruct (decide (p ≤ length xs)) as [Hp|Hp];
      [|rewrite Emplace_abort by (rewrite size_repr; lia); intros [= <- <- <-];
        by rewrite Capacity_repr].
    destruct (decide (length xs = cap)) as [<-|Hne].
    + rewrite Emplace_full_at by done.
      destruct (alloc _ s) as [s1 [|]]; [|intros [= <- <- <-]; by rewrite Capacity_repr].
      destruct (Vector.emplace a s1) as [s2 [x|]];
        [|intros [= <- <- <-]; by rewrite Capacity_repr].
      destruct (migrate_all (take p xs) s2) as [[s3 ls] [ls'|]];
        [|intros [= <- <- <-]; by rewrite Capacity_repr].
      destruct (migrate_all (drop p xs) s3) as [[s4 rs] [rs'|]];
        intros [= <- <- <-]; rewrite Capacity_repr; lia.
    + destruct (decide (p = length xs)) as [->|Hpne].
      * rewrite Emplace_end_room by lia.
        destruct (Vector.emplace a s) as [s1 [x|]]; intros [= <- <- <-];
          by rewrite Capacity_repr.
      * destruct (split_last p xs) as (l & r & z & -> & <-); [lia|].
        rewrite Emplace_mid_room by lia.
        destruct (Vector.emplace a s) as [s1 [c|]];
          [|intros [= <- <- <-]; by rewrite Capacity_repr].
        destruct (elem.move_construct z s1) as [[s2 z'] [y|]];
          [|intros [= <- <- <-]; by rewrite Capacity_repr].
        destruct (move_chain z' (rev r) s2) as [[s3 vs] [|]];
          [|intros [= <- <- <-]; by rewrite Capacity_repr].
        destruct (elem.move_assign _ c s3) as [[[s4 d'] c'] [|]];
          intros [= <- <- <-]; [by rewrite Capacity_repr|done].
  - intros s' v' o. destruct (decide (cap < length zs)) as [Hlt|Hge].
    { rewrite copy_assign_realloc by done.
      destruct (alloc _ s) as [s1 [|]]; [|intros [= <- <- <-]; by rewrite Capacity_repr].
      destruct (copy_all zs s1) as [s2 [ys|]]; intros [= <- <- <-];
        rewrite Capacity_repr; lia. }
    destruct (decide (length zs < length xs)) as [Hlt|Hge'].
    { rewrite copy_assign_shrink by done.
      destruct (assign_all _ zs s) as [[s1 ds'] [|]]; intros [= <- <- <-];
        by rewrite Capacity_repr. }
    rewrite copy_assign_grow by lia.
    destruct (assign_all xs _ s) as [[s1 ds'] [|]];
      [|intros [= <- <- <-]; by rewrite Capacity_repr].
    destruct (copy_all _ s1) as [s2 [ys|]]; intros [= <- <- <-];
      by rewrite Capacity_repr.
Qed.
End capacity.

Section conservation.
Context {T A W : Type} `{!Allocator W} `{!Element T A W}.
Context (free : W → nat).
Local Abbreviation state := (state T A W).
Implicit Types (xs ys ds rs : list T) (s : state) (v r : Vector.t T).

End conservation.

Section allocator.
Context {T A W : Type} `{!Allocator W} `{!Element T A W}.
Local Abbreviation state := (state T A W).
Implicit Types (xs ys ds rs : list T) (s : state) (v r : Vector.t T).

End allocator.

Section appends.
Context {T A W : Type} `{!Allocator W} `{!Element T A W}.
Local Abbreviation state := (state T A W).
Implicit Types (xs ys ds rs values : list T) (s : state) (v r : Vector.t T).

(** Appending [n] values to an empty vector, one [PushBack] at a time,
    with an element type and an allocator that do not throw: every call
    returns, the vector ends up holding exactly the values appended, in
    order, its capacity is the smallest power of two that is at least [n]
    (0 for no value), and the blocks requested on the way had 1, 2, 4, ...
    slots: one request for each doubling, so [log2 n] rounded up, plus
    one, in all. *)
Theorem repeated_PushBack_doubles `{!NeverThrows T A W} `{!ValueSemantics T A W} values s :
  ∃ s' v',
    PushBack_all values Vector.default s = (s', v', Return tt) ∧
    invariant v' ∧ elements v' = values ∧
    Vector.Capacity v'
    = (if decide (values = []) then 0 else 2 ^ Nat.log2_up (length values)) ∧
    requests s'
    = (if decide (values = []) then []
       else reverse ((λ k, 2 ^ k) <$> seq 0 (S (Nat.log2_up (length values)))))
      ++ requests s.
Proof.
  induction values as [|x values IH] using rev_ind.
  - exists s, Vector.default. cbn. split_and!; try done.
    apply (invariant_repr [] 0). cbn. lia.
  - destruct IH as (s1 & v1 & E1 & Hinv & Hel & Hcap & Hreq).
    apply invariant_inv in Hinv as (Hv1 & Hlen & Hle). rewrite Hel in *.
    rewrite PushBack_all_app, E1. cbn [PushBack_all]. rewrite Hv1.
    destruct (PushBack_total x values (Vector.Capacity v1) s1) as (s2 & E2 & Hreq2);
      [lia|].
    rewrite E2. eexists s2, _. split; [done|].
    rewrite elements_repr, Capacity_repr, length_app. cbn [length].
    rewrite Nat.add_1_r. rewrite !(decide_False (P := values ++ [x] = []))
      by (by destruct values).
    rewrite Hreq2, Hreq, Hcap. clear E1 E2 Hreq Hreq2 Hv1.
    destruct (decide (values = [])) as [->|Hne].
    + rewrite !decide_False by (cbn; lia).
      split_and!; try reflexivity. apply invariant_repr. cbn. unfold grown. lia.
    + assert (1 ≤ length values) as Hpos by (destruct values; [done|cbn; lia]).
      rewrite Hcap in Hle. case_decide as Hroom.
      * rewrite (log2_up_succ_room (length values)) by lia.
        split_and!; try done. apply invariant_repr. rewrite length_app. cbn. lia.
      * assert (length values = 2 ^ Nat.log2_up (length values)) as Hfull by lia.
        rewrite (log2_up_succ_full (length values)) by lia.
        assert (grown (2 ^ Nat.log2_up (length values))
                = 2 ^ S (Nat.log2_up (length values))) as ->.
        { unfold grown. rewrite Nat.pow_succ_r'. lia. }
        split_and!; try done.
        -- apply invariant_repr. rewrite length_app, Nat.pow_succ_r'. cbn. lia.
        -- rewrite (seq_S (S _)), fmap_app, reverse_app. done.
Qed.

End appends.

Section guarantees.
Context {T A W : Type} `{!Allocator W} `{!Element T A W}.
Local Abbreviation state := (state T A W).
Implicit Types (xs ys ds rs : list T) (s : state) (v r : Vector.t T).


End guarantees.

(** * Objects in the store and their blocks *)

Section store.
Context {T : Type}.
Implicit Types (v r : Vector.t T) (σ : gmap nat (Vector.t T)).

(** [Swap] exchanges two vectors: afterwards each object holds the block,
    the size and the capacity (so the elements) the other one held, every
    other object is untouched, a second [Swap] of the same two restores the
    store, and swapping an object with itself changes nothing.  No
    operation of the element type or of the allocator takes part. *)
Theorem Swap_exchanges this other σ v r :
  σ !! this = Some v → σ !! other = Some r →
  ∃ σ', Vector.Swap_at this other σ = Some σ' ∧
    σ' !! this = Some r ∧ σ' !! other = Some v ∧
    (∀ k, k ≠ this → k ≠ other → σ' !! k = σ !! k) ∧
    Vector.Swap_at this other σ' = Some σ ∧
    (this = other → σ' = σ).
Proof.
  intros Hthis Hother.
  assert (HS : ∀ a b : Vector.t T, Vector.Swap a b = (b, a)).
  { by intros [[??]?] [[??]?]. }
  assert (Hsame : this = other → v = r) by (intros ->; congruence).
  assert (H1 : (<[other := v]> (<[this := r]> σ)) !! this = Some r).
  { destruct (decide (this = other)) as [He|Hne].
    - rewrite (Hsame He), He. apply lookup_insert_eq.
    - rewrite lookup_insert_ne by done. apply lookup_insert_eq. }
  assert (H2 : (<[other := v]> (<[this := r]> σ)) !! other = Some v)
    by apply lookup_insert_eq.
  exists (<[other := v]> (<[this := r]> σ)).
  unfold Vector.Swap_at. rewrite Hthis, Hother, HS, H1, H2, HS.
  split_and!; try done.
  - intros k Hk1 Hk2. by rewrite !lookup_insert_ne.
  - f_equal. apply map_eq. intros k.
    destruct (decide (k = other)) as [->|Hk2]; [by rewrite lookup_insert_eq|].
    rewrite lookup_insert_ne by done.
    destruct (decide (k = this)) as [->|Hk1]; [by rewrite lookup_insert_eq|].
    by rewrite !lookup_insert_ne.
  - intros He. rewrite <- (Hsame He), <- He, insert_insert_eq.
    by apply insert_id.
Qed.
End store.

Section ownership.
Context {T A W : Type} `{!Allocator W} `{!Element T A W}.
Context (free : W → nat).
Local Abbreviation state := (state T A W).
Implicit Types (s : state) (a b m : RawMemory.t T).

End ownership.

(** * Lifetimes of the elements *)

Section lifetimes.
Context {T A W : Type} `{!Allocator W} `{!Element T A W}.
Local Abbreviation state := (state T A W).
Implicit Types (xs ys ds rs : list T) (s : state) (v r : Vector.t T).

(** Constructor and destructor calls are in balance with the size.  In
    every call that returns, the number of constructor calls minus the
    number of destructor calls is the change of the size: 0 for [Reserve],
    [n - size] for [Resize(n)], 1 for an append or an insert (the
    temporary an insert in place makes is destroyed again), -1 for
    [PopBack] and [Erase], the difference of the two sizes for the copy
    assignment, [-size] for the destructor, and the size of the new vector
    for [Vector(n)] and the copy constructor. *)
Theorem returning_calls_balance_lifetimes v r s :
  invariant v → invariant r →
  (∀ n s' v', Vector.Reserve n v s = (s', v', Return tt) → alive s' = alive s) ∧
  (∀ n s' v', Vector.Resize n v s = (s', v', Return tt) →
     (alive s' - alive s = Z.of_nat n - Z.of_nat (Vector.Size v))%Z) ∧
  (∀ a s' v' i, Vector.EmplaceBackImpl a v s = (s', v', Return i) →
     (alive s' = alive s + 1)%Z) ∧
  (∀ s' v', Vector.PopBack v s = (s', v', Return tt) → (alive s' = alive s - 1)%Z) ∧
  (∀ p s' v' i, Vector.Erase p v s = (s', v', Return i) → (alive s' = alive s - 1)%Z) ∧
  (∀ p a s' v' i, Vector.Emplace p a v s = (s', v', Return i) →
     (alive s' = alive s + 1)%Z) ∧
  (∀ s' v', Vector.copy_assign_body v r s = (s', v', Return tt) →
     (alive s' - alive s = Z.of_nat (Vector.Size r) - Z.of_nat (Vector.Size v))%Z) ∧
  (∀ s', Vector.dtor v s = (s', Return tt) →
     (alive s' = alive s - Z.of_nat (Vector.Size v))%Z) ∧
  (∀ n s' v', Vector.make n s = (s', Return v') → (alive s' = alive s + Z.of_nat n)%Z) ∧
  (∀ s' v', Vector.copy_ctor r s = (s', Return v') →
     (alive s' = alive s + Z.of_nat (Vector.Size r))%Z).
Proof.
  intros Hv Hr.
  apply invariant_iff in Hv as (xs & cap & Hle & ->).
  apply invariant_iff in Hr as (zs & cap' & Hle' & ->).
  unfold Vector.Size. rewrite !size_repr.
  assert (HR : ∀ n s' v', Vector.Reserve n (repr xs cap) s = (s', v', Return tt) →
    alive s' = alive s ∧
    ∃ ys c, v' = repr ys c ∧ length ys = length xs ∧ length xs ≤ c).
  { intros n s' v'. destruct (decide (n ≤ cap)) as [Hn|Hn].
    - rewrite Reserve_noop by (by rewrite Capacity_repr). intros [= <- <-].
      split; [done|]. by exists xs, cap.
    - rewrite Reserve_grow by lia.
      destruct (alloc n s) as [s1 [|]] eqn:Ea; [|done]. apply alive_alloc in Ea.
      destruct (migrate_all xs s1) as [[s2 rs] [ys|]] eqn:Em; [|done].
      pose proof (migrate_all_length _ _ _ _ _ Em) as [Hrs Hys].
      apply alive_migrate_all in Em. intros [= <- <-].
      rewrite alive_release, alive_destroy_all.
      split; [lia|]. exists ys, n. split_and!; [done|by apply Hys|lia]. }
  split_and!.
  - intros n s' v' E. by apply HR in E as [? _].
  - intros n s' v'. destruct (decide (n < length xs)) as [Hn|Hn].
    + rewrite Resize_shrink by done. intros [= <- <-].
      rewrite alive_destroy_all, length_drop. lia.
    + rewrite Resize_grow by lia.
      destruct (Vector.Reserve n (repr xs cap) s) as [[s1 v1] [[]| |]] eqn:E; [|done..].
      apply HR in E as (Ha & ys & c & -> & Hys & Hc).
      destruct (init_all _ s1) as [s2 [ws|]] eqn:Ei; [|done].
      apply alive_init_all in Ei. intros [= <- <-]. lia.
  - intros a s' v' i. destruct (decide (length xs = cap)) as [<-|Hne].
    + rewrite EmplaceBackImpl_full.
      destruct (alloc _ s) as [s1 [|]] eqn:Ea; [|done]. apply alive_alloc in Ea.
      destruct (Vector.emplace a s1) as [s2 [x|]] eqn:Ee; [|done].
      apply alive_emplace in Ee.
      destruct (migrate_all xs s2) as [[s3 rs] [ys|]] eqn:Em; [|done].
      pose proof (migrate_all_length _ _ _ _ _ Em) as [Hrs _].
      apply alive_migrate_all in Em. intros [= <- <- <-].
      rewrite alive_release, alive_destroy_all. lia.
    + rewrite EmplaceBackImpl_room by lia.
      destruct (Vector.emplace a s) as [s1 [x|]] eqn:Ee; [|done].
      apply alive_emplace in Ee. by intros [= <- <- <-].
  - intros s' v'. destruct (decide (length xs = 0)) as [Hz|Hnz].
    + by rewrite PopBack_abort by (by rewrite size_repr).
    + destruct (exists_last (l := xs)) as (l & x & ->); [by intros ->|].
      rewrite length_app in Hle. cbn in Hle.
      rewrite PopBack_spec by lia. intros [= <- <-]. apply alive_destroy.
  - intros p s' v' i. destruct (decide (p < length xs)) as [Hp|Hp].
    + destruct (split_at p xs Hp) as (l & d & r & -> & <-).
      rewrite Erase_spec by done.
      destruct (move_chain d r s) as [[s1 vs] [|]] eqn:Ec; [|done].
      apply alive_move_chain in Ec. intros [= <- <- <-].
      rewrite alive_destroy. lia.
    + by rewrite Erase_abort by (rewrite size_repr; lia).
  - intros p a s' v' i. destruct (decide (p ≤ length xs)) as [Hp|Hp];
      [|by rewrite Emplace_abort by (rewrite size_repr; lia)].
    destruct (decide (length xs = cap)) as [<-|Hne].
    + rewrite Emplace_full_at by done.
      destruct (alloc _ s) as [s1 [|]] eqn:Ea; [|done]. apply alive_alloc in Ea.
      destruct (Vector.emplace a s1) as [s2 [x|]] eqn:Ee; [|done].
      apply alive_emplace in Ee.
      destruct (migrate_all (take p xs) s2) as [[s3 ls] [ls'|]] eqn:E1; [|done].
      pose proof (migrate_all_length _ _ _ _ _ E1) as [Hls _].
      apply alive_migrate_all in E1.
      destruct (migrate_all (drop p xs) s3) as [[s4 rs] [rs'|]] eqn:E2; [|done].
      pose proof (migrate_all_length _ _ _ _ _ E2) as [Hrs _].
      apply alive_migrate_all in E2. intros [= <- <- <-].
      rewrite alive_release, alive_destroy_all, length_app. lia.
    + destruct (decide (p = length xs)) as [->|Hpne].
      * rewrite Emplace_end_room by lia.
        destruct (Vector.emplace a s) as [s1 [x|]] eqn:Ee; [|done].
        apply alive_emplace in Ee. by intros [= <- <- <-].
      * destruct (split_last p xs) as (l & r & z & -> & <-); [lia|].
        rewrite Emplace_mid_room by lia.
        destruct (Vector.emplace a s) as [s1 [c|]] eqn:Ee; [|done].
        apply alive_emplace in Ee.
        destruct (elem.move_construct z s1) as [[s2 z'] [y|]] eqn:Ez; [|done].
        apply alive_move_construct in Ez.
        destruct (move_chain z' (rev r) s2) as [[s3 vs] [|]] eqn:Ec; [|done].
        apply alive_move_chain in Ec.
        destruct (elem.move_assign _ c s3) as [[[s4 d'] c'] [|]] eqn:Em; [|done].
        apply alive_move_assign in Em. intros [= <- <- <-].
        rewrite alive_destroy. lia.
  - intros s' v'. destruct (decide (cap < length zs)) as [Hlt|Hge].
    { rewrite copy_assign_realloc by done.
      destruct (alloc _ s) as [s1 [|]] eqn:Ea; [|done]. apply alive_alloc in Ea.
      destruct (copy_all zs s1) as [s2 [ys|]] eqn:Ec; [|done].
      apply alive_copy_all in Ec. intros [= <- <-].
      rewrite alive_release, alive_destroy_all. lia. }
    destruct (decide (length zs < length xs)) as [Hlt|Hge'].
    { rewrite copy_assign_shrink by done.
      destruct (assign_all _ zs s) as [[s1 ds'] [|]] eqn:Ea; [|done].
      apply alive_assign_all in Ea. intros [= <- <-].
      rewrite alive_destroy_all, length_drop. lia. }
    rewrite copy_assign_grow by lia.
    destruct (assign_all xs _ s) as [[s1 ds'] [|]] eqn:Ea; [|done].
    apply alive_assign_all in Ea.
    destruct (copy_all _ s1) as [s2 [ys|]] eqn:Ec; [|done].
    apply alive_copy_all in Ec. intros [= <- <-]. rewrite length_drop in Ec. lia.
  - intros s'. rewrite dtor_spec by done. intros [= <-].
    rewrite alive_release, alive_destroy_all. lia.
  - intros n s' v'. rewrite Vector_make_spec.
    destruct (alloc n s) as [s1 [|]] eqn:Ea; [|done]. apply alive_alloc in Ea.
    destruct (init_all n s1) as [s2 [ys|]] eqn:Ei; [|done].
    apply alive_init_all in Ei. intros [= <- <-]. lia.
  - intros s' v'. rewrite copy_ctor_spec.
    destruct (alloc _ s) as [s1 [|]] eqn:Ea; [|done]. apply alive_alloc in Ea.
    destruct (copy_all zs s1) as [s2 [ys|]] eqn:Ec; [|done].
    apply alive_copy_all in Ec. intros [= <- <-]. lia.
Qed.
End lifetimes.

Section order.
Context {T A W : Type} `{!Allocator W} `{!Element T A W}.
Local Abbreviation state := (state T A W).
Implicit Types (xs ys ds rs : list T) (s : state) (v r : Vector.t T).

(** The new element is constructed before any element of the vector is
    touched.  In an append or an insert, the construction from the
    arguments is the first call made of the element type: into a vector
    with a spare slot it is the first call at all, and when the vector has
    to grow it directly follows the request for the new block, before any
    element is moved, copied, assigned or destroyed. *)
Theorem new_element_is_constructed_first v p a s :
  invariant v → p ≤ Vector.Size v →
  (∀ s' v' o, Vector.EmplaceBackImpl a v s = (s', v', o) ∨
              Vector.Emplace p a v s = (s', v', o) →
     if decide (Vector.Size v < Vector.Capacity v) then
       ∃ tr, trace s' = tr ++ emplace_event a :: trace s
     else
       (o = Throw ∧ v' = v ∧ trace s' = EvNew (grown (Vector.Capacity v)) :: trace s) ∨
       ∃ tr, trace s'
             = tr ++ emplace_event a :: EvNew (grown (Vector.Capacity v)) :: trace s).
Proof.
  intros Hv. apply invariant_iff in Hv as (xs & cap & Hle & ->).
  unfold Vector.Size. rewrite size_repr, Capacity_repr. intros Hp s' v' o.
  assert (Hfin : ∀ (e : event T A) (k : list (event T A)) s0 s1,
    trace s0 = e :: k → trace s0 `suffix_of` trace s1 → ∃ tr, trace s1 = tr ++ e :: k).
  { intros e k s0 s1 He [tr Htr]. exists tr. by rewrite Htr, He. }
  case_decide as Hroom.
  - intros [E|E].
    + rewrite EmplaceBackImpl_room in E by done.
      destruct (Vector.emplace a s) as [s1 [x|]] eqn:Ee; apply emplace_first in Ee;
        injection E as <- <- <-; by exists [].
    + destruct (decide (p = length xs)) as [->|Hpne].
      * rewrite Emplace_end_room in E by done.
        destruct (Vector.emplace a s) as [s1 [x|]] eqn:Ee; apply emplace_first in Ee;
          injection E as <- <- <-; by exists [].
      * destruct (split_last p xs) as (l & r & z & -> & <-); [lia|].
        rewrite Emplace_mid_room in E by lia.
        destruct (Vector.emplace a s) as [s1 [c|]] eqn:Ee; apply emplace_first in Ee;
          [|injection E as <- <- <-; by exists []].
        destruct (elem.move_construct z s1) as [[s2 z'] [y|]] eqn:Ez;
          apply history_move_construct in Ez;
          [|injection E as <- <- <-; apply (Hfin _ _ s1); [done|];
            etrans; [done|apply history_destroy]].
        destruct (move_chain z' (rev r) s2) as [[s3 vs] [|]] eqn:Ec;
          apply history_move_chain in Ec;
          [|injection E as <- <- <-; apply (Hfin _ _ s1); [done|];
            etrans; [done|]; etrans; [done|];
            etrans; [apply history_destroy|apply history_destroy]].
        destruct (elem.move_assign _ c s3) as [[[s4 d'] c'] [|]] eqn:Em;
          apply history_move_assign in Em; injection E as <- <- <-;
          (apply (Hfin _ _ s1); [done|]);
          (etrans; [done|]); (etrans; [done|]); (etrans; [done|]);
          apply history_destroy.
  - assert (cap = length xs) as -> by lia. pose proof (grown_gt (length xs)) as Hg.
    intros [E|E].
    + rewrite EmplaceBackImpl_full in E.
      destruct (alloc _ s) as [s1 [|]] eqn:Ea; apply alloc_first in Ea; try lia;
        [|injection E as <- <- <-; by left].
      right.
      destruct (Vector.emplace a s1) as [s2 [x|]] eqn:Ee; apply emplace_first in Ee;
        rewrite Ea in Ee;
        [|injection E as <- <- <-; apply (Hfin _ _ s2); [done|apply history_release]].
      destruct (migrate_all xs s2) as [[s3 rs] [ys|]] eqn:Em;
        apply history_migrate_all in Em; injection E as <- <- <-;
        (apply (Hfin _ _ s2); [done|]); (etrans; [done|]);
        (etrans; [|apply history_release]);
        [apply history_destroy_all|apply history_destroy].
    + rewrite Emplace_full_at in E by done.
      destruct (alloc _ s) as [s1 [|]] eqn:Ea; apply alloc_first in Ea; try lia;
        [|injection E as <- <- <-; by left].
      right.
      destruct (Vector.emplace a s1) as [s2 [x|]] eqn:Ee; apply emplace_first in Ee;
        rewrite Ea in Ee;
        [|injection E as <- <- <-; apply (Hfin _ _ s2); [done|apply history_release]].
      destruct (migrate_all (take p xs) s2) as [[s3 ls] [ls'|]] eqn:E1;
        apply history_migrate_all in E1;
        [|injection E as <- <- <-; apply (Hfin _ _ s2); [done|]; etrans; [done|];
          etrans; [apply history_destroy|apply history_release]].
      destruct (migrate_all (drop p xs) s3) as [[s4 rs] [rs'|]] eqn:E2;
        apply history_migrate_all in E2; injection E as <- <- <-;
        (apply (Hfin _ _ s2); [done|]); (etrans; [done|]); (etrans; [done|]);
        (etrans; [apply history_destroy_all|apply history_release]).
Qed.
End order.

Section totality.
Context {T A W : Type} `{!Allocator W} `{!Element T A W}.
Local Abbreviation state := (state T A W).
Implicit Types (xs ys ds rs : list T) (s : state) (v r : Vector.t T).

End totality.

Section shifts.
Context {T A W : Type} `{!Allocator W} `{!Element T A W}.
Local Abbreviation state := (state T A W).
Implicit Types (xs ys ds rs : list T) (s : state) (v r : Vector.t T).

(** [PopBack] removes the last element and nothing else: on a non-empty
    vector it returns, its one call is the destructor of the last element,
    and it leaves the elements before it, in the same block. *)
Theorem PopBack_removes_last v s :
  invariant v → Vector.Size v ≠ 0 →
  ∃ x, last (elements v) = Some x ∧
    Vector.PopBack v s
    = (elem.destroy x s, repr (removelast (elements v)) (Vector.Capacity v), Return tt) ∧
    trace (elem.destroy x s) = EvDestroy x :: trace s.
Proof.
  intros Hv Hne. apply invariant_iff in Hv as (xs & cap & Hle & ->).
  unfold Vector.Size in Hne. rewrite size_repr in Hne.
  rewrite elements_repr, Capacity_repr.
  destruct (exists_last (l := xs)) as (l & x & ->); [by intros ->|].
  rewrite length_app in Hle. cbn in Hle.
  exists x. rewrite last_snoc, removelast_last, PopBack_spec by lia. done.
Qed.

End shifts.

(** * The claims at concrete inputs *)

Section concrete.
Import probe.
Local Abbreviation oracle_state := (state nat nat oracle).

(** C1, where the code breaks it.  A vector with the element [1] in a
    block of two slots; the element type has a move assignment that
    throws.  [Emplace(begin(), 9)] has room, is not at the end, builds the
    temporary [copy], move-constructs the last element into slot 1 and
    shifts nothing; then [*pos_it = std::move(copy)] throws.  That
    statement stands after the [try] block, so nothing destroys slot 1:
    the call leaves size 1 with a constructed element in slot 1, outside
    [[0, size)], and the invariant no longer holds. *)
Theorem Emplace_throw_leaves_live_slot :
  invariant (vec [1] 2) ∧
  Vector.Emplace (Allocator0 := allocator) (Element0 := element false true)
    0 (Forward 9) (vec [1] 2) (start 3 0)
  = (State (Oracle 0 0) [EvDestroy 9; EvMoveAssign 0 9; EvMove 1; EvConstruct 9],
     torn [0] 1 2, Throw) ∧
  ¬ invariant (torn [0] 1 2).
Proof.
  split_and!.
  - apply (invariant_repr [1] 2). cbn. lia.
  - reflexivity.
  - apply not_invariant_torn.
Qed.

(** C9, where the code breaks it.  Move assignment over a vector that
    holds [1; 2]: the target's block is released while both elements are
    still constructed, and no destructor has run ([EvDelete [1; 2]] is the
    only event). *)
Theorem move_assign_releases_live_elements :
  Vector.move_assign (Allocator0 := allocator)
    0 1 (<[1 := vec [7] 1]> {[0 := vec [1; 2] 2]}) (start 0 0)
  = (State (Oracle 0 2) [EvDelete [1; 2]],
     <[1 := Vector.default]> (<[0 := vec [7] 1]> (<[1 := vec [7] 1]> {[0 := vec [1; 2] 2]})),
     Return tt).
Proof. reflexivity. Qed.



(** The in-place path of the copy assignment gives the basic guarantee
    only: assigning [7; 8] over [1; 2] with the second assignment throwing
    leaves [7; 2]. *)
Example copy_assign_partial_update :
  Vector.copy_assign (Allocator0 := allocator) (Element0 := element true true)
    0 1 (<[1 := vec [7; 8] 2]> {[0 := vec [1; 2] 2]}) (start 2 0)
  = (State (Oracle 0 0) [EvCopyAssign 2 8; EvCopyAssign 1 7],
     <[0 := vec [7; 2] 2]> (<[1 := vec [7; 8] 2]> {[0 := vec [1; 2] 2]}),
     Throw).
Proof. reflexivity. Qed.

(** The spec's example: [Resize(3)], [PushBack(5)], [Erase(begin() + 1)]. *)
Example resize_push_erase :
  let '(s1, v1, _) := Vector.Resize (Element0 := plain) 3 Vector.default plain_start in
  let '(s2, v2, _) := Vector.PushBack (Element0 := plain) 5 v1 s1 in
  let '(s3, v3, o) := Vector.Erase (Element0 := plain) 1 v2 s2 in
  elements v1 = [0; 0; 0] ∧ Vector.Capacity v1 = 3 ∧
  elements v2 = [0; 0; 0; 5] ∧ Vector.Capacity v2 = 6 ∧
  elements v3 = [0; 0; 5] ∧ Vector.size_ v3 = 3 ∧ o = Return 1.
Proof. cbn. done. Qed.

(** Growth from capacity 0 asks for one slot. *)
Example growth_from_empty :
  Vector.EmplaceBack (Allocator0 := allocator) (Element0 := element true true)
    9 Vector.default (start 0 100)
  = (State (Oracle 0 99) [EvConstruct 9; EvNew 1], vec [9] 1, Return 0).
Proof. reflexivity. Qed.

(** ** Witnesses *)


Lemma growth_doubles_witness :
  invariant (vec [1; 2] 2) ∧
  Vector.size_ (vec [1; 2] 2) = Vector.Capacity (vec [1; 2] 2) ∧
  1 ≤ Vector.size_ (vec [1; 2] 2) ∧
  ∃ s' v' i,
    Vector.EmplaceBackImpl (Allocator0 := allocator) (Element0 := element true true)
      (Forward 9) (vec [1; 2] 2) (start 0 100) = (s', v', Return i) ∧
    Vector.Capacity v' = 4.
Proof.
  assert (Hinv : invariant (vec [1; 2] 2))
    by (apply (invariant_repr [1; 2] 2); cbn; lia).
  split_and!; [exact Hinv|done|cbn; lia|].
  destruct (growth_doubles (Allocator0 := allocator) (Element0 := element true true)
              (vec [1; 2] 2) (Forward 9) 1 (start 0 100) Hinv eq_refl
              ltac:(cbn; lia)) as (_ & s1 & ok & Ha & _ & H).
  vm_compute in Ha. injection Ha as <- <-. destruct H as [H _].
  eexists _, _, _. split; [reflexivity|].
  eapply H. reflexivity.
Defined.




Lemma copy_assign_correct_witness :
  (<[1 := vec [7; 8] 2]> {[0 := vec [1; 2] 2]} : gmap nat (Vector.t nat)) !! 0
    = Some (vec [1; 2] 2) ∧
  (<[1 := vec [7; 8] 2]> {[0 := vec [1; 2] 2]} : gmap nat (Vector.t nat)) !! 1
    = Some (vec [7; 8] 2) ∧
  0 ≠ 1 ∧ invariant (vec [1; 2] 2) ∧ invariant (vec [7; 8] 2) ∧
  ∃ s' σ',
    Vector.copy_assign (Allocator0 := allocator) (Element0 := element true true)
      0 1 (<[1 := vec [7; 8] 2]> {[0 := vec [1; 2] 2]}) (start 0 0)
    = (s', σ', Return tt) ∧
    σ' !! 1 = Some (vec [7; 8] 2) ∧
    ∃ v', σ' = <[0 := v']> (<[1 := vec [7; 8] 2]> {[0 := vec [1; 2] 2]}) ∧
          elements v' = [7; 8].
Proof.
  assert (Hv : invariant (vec [1; 2] 2)) by (apply (invariant_repr [1; 2] 2); cbn; lia).
  assert (Hr : invariant (vec [7; 8] 2)) by (apply (invariant_repr [7; 8] 2); cbn; lia).
  assert (H0 : (<[1 := vec [7; 8] 2]> {[0 := vec [1; 2] 2]} : gmap nat (Vector.t nat)) !! 0
               = Some (vec [1; 2] 2)) by reflexivity.
  assert (H1 : (<[1 := vec [7; 8] 2]> {[0 := vec [1; 2] 2]} : gmap nat (Vector.t nat)) !! 1
               = Some (vec [7; 8] 2)) by reflexivity.
  split_and!; [exact H0|exact H1|lia|exact Hv|exact Hr|].
  eexists _, _. split; [reflexivity|].
  destruct (copy_assign_correct (ValueSemantics0 := probe_value_semantics true true)
              0 1 (<[1 := vec [7; 8] 2]> {[0 := vec [1; 2] 2]})
              (vec [1; 2] 2) (vec [7; 8] 2) (start 0 0)
              H0 H1 ltac:(lia) Hv Hr) as (_ & _ & _ & H).
  destruct (H _ _ _ eq_refl) as (_ & Hrhs & v' & Hσ & _ & Hret & _).
  split; [exact Hrhs|]. exists v'. split; [exact Hσ|]. by apply Hret.
Defined.

Lemma move_leaves_source_empty_witness :
  (<[1 := vec [7] 1]> {[0 := vec [1; 2] 2]} : gmap nat (Vector.t nat)) !! 0
    = Some (vec [1; 2] 2) ∧
  (<[1 := vec [7] 1]> {[0 := vec [1; 2] 2]} : gmap nat (Vector.t nat)) !! 1
    = Some (vec [7] 1) ∧
  0 ≠ 1 ∧
  Vector.move_ctor (vec [7] 1) = (vec [7] 1, Vector.default).
Proof.
  assert (H0 : (<[1 := vec [7] 1]> {[0 := vec [1; 2] 2]} : gmap nat (Vector.t nat)) !! 0
               = Some (vec [1; 2] 2)) by reflexivity.
  assert (H1 : (<[1 := vec [7] 1]> {[0 := vec [1; 2] 2]} : gmap nat (Vector.t nat)) !! 1
               = Some (vec [7] 1)) by reflexivity.
  split_and!; [exact H0|exact H1|lia|].
  apply (move_leaves_source_empty (Allocator0 := allocator) (A := nat)
           0 1 (<[1 := vec [7] 1]> {[0 := vec [1; 2] 2]})
           (vec [1; 2] 2) (vec [7] 1) (start 0 0) H0 H1 ltac:(lia)).
Defined.

Lemma self_assignment_noop_witness :
  ({[0 := vec [1; 2] 2]} : gmap nat (Vector.t nat)) !! 0 = Some (vec [1; 2] 2) ∧
  Vector.copy_assign (Allocator0 := allocator) (Element0 := element true true)
    0 0 {[0 := vec [1; 2] 2]} (start 1 0)
  = (start 1 0, {[0 := vec [1; 2] 2]}, Return tt).
Proof.
  assert (H0 : ({[0 := vec [1; 2] 2]} : gmap nat (Vector.t nat)) !! 0
               = Some (vec [1; 2] 2)) by reflexivity.
  split; [exact H0|].
  apply (self_assignment_noop (Allocator0 := allocator) (Element0 := element true true)
           0 {[0 := vec [1; 2] 2]} (vec [1; 2] 2) (start 1 0) H0).
Defined.


Lemma destructor_destroys_then_releases_witness :
  invariant (vec [1; 2] 3) ∧
  Vector.dtor (Allocator0 := allocator) (Element0 := element false true)
    (vec [1; 2] 3) (start 0 100)
  = (State (Oracle 0 103) [EvDelete []; EvDestroy 2; EvDestroy 1], Return tt).
Proof.
  assert (Hv : invariant (vec [1; 2] 3)) by (apply (invariant_repr [1; 2] 3); cbn; lia).
  split; [exact Hv|].
  destruct (destructor_destroys_then_releases (Allocator0 := allocator)
              (Element0 := element false true)
              (vec [1; 2] 3) (start 0 100) Hv) as [H _].
  exact (eq_trans H eq_refl).
Defined.



Lemma releases_leave_nothing_behind_witness :
  invariant (vec [1; 2] 2) ∧ invariant (vec [7; 8; 9] 3) ∧ leak_free (start 0 100) ∧
  ∀ s' v' o,
    Vector.copy_assign_body (Allocator0 := allocator) (Element0 := element false true)
      (vec [1; 2] 2) (vec [7; 8; 9] 3) (start 0 100) = (s', v', o) →
    leak_free s'.
Proof.
  assert (Hv : invariant (vec [1; 2] 2)) by (apply (invariant_repr [1; 2] 2); cbn; lia).
  assert (Hr : invariant (vec [7; 8; 9] 3))
    by (apply (invariant_repr [7; 8; 9] 3); cbn; lia).
  assert (Hs : leak_free (start 0 100)) by (apply Forall_nil_2).
  destruct (releases_leave_nothing_behind (Allocator0 := allocator)
              (Element0 := element false true)
              (vec [1; 2] 2) (vec [7; 8; 9] 3) (start 0 100) Hv Hr Hs)
    as (_ & _ & _ & _ & _ & Hc & _).
  split_and!; [exact Hv|exact Hr|exact Hs|exact Hc].
Defined.
Lemma subscript_reads_elements_witness :
  invariant (vec [4; 5; 6] 4) ∧
  Vector.index (vec [4; 5; 6] 4) 1 = Some 5 ∧
  Vector.index (vec [4; 5; 6] 4) 3 = None.
Proof.
  assert (Hinv : invariant (vec [4; 5; 6] 4))
    by (apply (invariant_repr [4; 5; 6] 4); cbn; lia).
  split_and!; [exact Hinv| |].
  - exact (eq_trans (proj1 (subscript_reads_elements (vec [4; 5; 6] 4) 1 Hinv)) eq_refl).
  - apply (subscript_reads_elements (vec [4; 5; 6] 4) 3 Hinv). cbn. lia.
Defined.

Lemma traversal_visits_elements_witness :
  invariant (vec [4; 5; 6] 5) ∧
  range (Vector.begin (vec [4; 5; 6] 5)) (Vector.end_ (vec [4; 5; 6] 5))
  = [Some 4; Some 5; Some 6].
Proof.
  assert (Hinv : invariant (vec [4; 5; 6] 5))
    by (apply (invariant_repr [4; 5; 6] 5); cbn; lia).
  split; [exact Hinv|].
  exact (eq_trans (proj1 (traversal_visits_elements (vec [4; 5; 6] 5) Hinv)) eq_refl).
Defined.

Lemma assertions_fail_exactly_out_of_range_witness :
  invariant (vec [4; 5] 3) ∧
  Vector.Erase (Element0 := element false true) 2 (vec [4; 5] 3) (start 0 0)
  = (start 0 0, vec [4; 5] 3, Abort) ∧
  Vector.Emplace (Allocator0 := allocator) (Element0 := element false true)
    3 (Forward 9) (vec [4; 5] 3) (start 0 0)
  = (start 0 0, vec [4; 5] 3, Abort).
Proof.
  assert (Hinv : invariant (vec [4; 5] 3))
    by (apply (invariant_repr [4; 5] 3); cbn; lia).
  destruct (assertions_fail_exactly_out_of_range (Allocator0 := allocator)
              (Element0 := element false true) (vec [4; 5] 3) (start 0 0) Hinv)
    as (_ & _ & He & Hm & _).
  split_and!; [exact Hinv| |].
  - apply (He 2). cbn. lia.
  - apply (Hm 3 (Forward 9)). cbn. lia.
Defined.

Lemma operations_at_the_end_agree_witness :
  invariant (vec [1; 2] 2) ∧
  Vector.Emplace (Allocator0 := allocator) (Element0 := element false true)
    2 (Forward 9) (vec [1; 2] 2) (start 0 100)
  = Vector.EmplaceBackImpl (Allocator0 := allocator) (Element0 := element false true)
      (Forward 9) (vec [1; 2] 2) (start 0 100).
Proof.
  assert (Hinv : invariant (vec [1; 2] 2))
    by (apply (invariant_repr [1; 2] 2); cbn; lia).
  split; [exact Hinv|].
  exact (proj1 (operations_at_the_end_agree (Allocator0 := allocator)
                  (Element0 := element false true)
                  (vec [1; 2] 2) (Forward 9) 0 (start 0 100) Hinv)).
Defined.

Lemma capacity_never_shrinks_witness :
  invariant (vec [1; 2] 2) ∧ invariant (vec [7] 1) ∧
  ∃ s' v',
    Vector.Reserve (Allocator0 := allocator) (Element0 := element false true)
      5 (vec [1; 2] 2) (start 0 100) = (s', v', Return tt) ∧
    Vector.Capacity (vec [1; 2] 2) ≤ Vector.Capacity v' ∧ 5 ≤ Vector.Capacity v'.
Proof.
  assert (Hv : invariant (vec [1; 2] 2)) by (apply (invariant_repr [1; 2] 2); cbn; lia).
  assert (Hr : invariant (vec [7] 1)) by (apply (invariant_repr [7] 1); cbn; lia).
  split_and!; [exact Hv|exact Hr|].
  destruct (capacity_never_shrinks (Allocator0 := allocator)
              (Element0 := element false true)
              (vec [1; 2] 2) (vec [7] 1) (start 0 100) Hv Hr) as (HR & _).
  eexists _, _. split; [reflexivity|].
  destruct (HR 5 _ _ _ eq_refl) as [Hc Hn]. split; [exact Hc|exact (Hn eq_refl)].
Defined.



Lemma repeated_PushBack_doubles_witness :
  ∃ s' v',
    PushBack_all (Allocator0 := plain_allocator) (Element0 := plain)
      [7; 8; 9] Vector.default plain_start = (s', v', Return tt) ∧
    elements v' = [7; 8; 9] ∧ Vector.Capacity v' = 4 ∧ requests s' = [4; 2; 1].
Proof.
  destruct (repeated_PushBack_doubles (Allocator0 := plain_allocator) (Element0 := plain)
              (NeverThrows0 := plain_never_throws)
              (ValueSemantics0 := plain_value_semantics)
              [7; 8; 9] plain_start) as (s' & v' & E & _ & Hel & Hcap & Hreq).
  exists s', v'. split_and!; [exact E|exact Hel| |].
  - exact (eq_trans Hcap eq_refl).
  - exact (eq_trans Hreq eq_refl).
Defined.




Lemma Swap_exchanges_witness :
  (<[1 := vec [7] 1]> {[0 := vec [1; 2] 2]} : gmap nat (Vector.t nat)) !! 0
    = Some (vec [1; 2] 2) ∧
  (<[1 := vec [7] 1]> {[0 := vec [1; 2] 2]} : gmap nat (Vector.t nat)) !! 1
    = Some (vec [7] 1) ∧
  ∃ σ', Vector.Swap_at 0 1 (<[1 := vec [7] 1]> {[0 := vec [1; 2] 2]}) = Some σ' ∧
    σ' !! 0 = Some (vec [7] 1) ∧ σ' !! 1 = Some (vec [1; 2] 2).
Proof.
  assert (H0 : (<[1 := vec [7] 1]> {[0 := vec [1; 2] 2]} : gmap nat (Vector.t nat)) !! 0
               = Some (vec [1; 2] 2)) by reflexivity.
  assert (H1 : (<[1 := vec [7] 1]> {[0 := vec [1; 2] 2]} : gmap nat (Vector.t nat)) !! 1
               = Some (vec [7] 1)) by reflexivity.
  split_and!; [exact H0|exact H1|].
  destruct (Swap_exchanges 0 1 _ _ _ H0 H1) as (σ' & E & Ha & Hb & _).
  exists σ'. split_and!; [exact E|exact Ha|exact Hb].
Defined.


Lemma returning_calls_balance_lifetimes_witness :
  invariant (vec [1; 2; 3] 4) ∧ invariant (vec [7] 1) ∧
  ∃ s' v' i,
    Vector.Emplace (Allocator0 := allocator) (Element0 := element false true)
      1 (Forward 9) (vec [1; 2; 3] 4) (start 0 100) = (s', v', Return i) ∧
    (alive s' = alive (start 0 100) + 1)%Z.
Proof.
  assert (Hv : invariant (vec [1; 2; 3] 4))
    by (apply (invariant_repr [1; 2; 3] 4); cbn; lia).
  assert (Hr : invariant (vec [7] 1)) by (apply (invariant_repr [7] 1); cbn; lia).
  split_and!; [exact Hv|exact Hr|].
  destruct (returning_calls_balance_lifetimes (Allocator0 := allocator)
              (Element0 := element false true)
              (vec [1; 2; 3] 4) (vec [7] 1) (start 0 100) Hv Hr)
    as (_ & _ & _ & _ & _ & HE & _).
  eexists _, _, _. split; [reflexivity|].
  exact (HE 1 (Forward 9) _ _ _ eq_refl).
Defined.

Lemma new_element_is_constructed_first_witness :
  invariant (vec [1; 2] 2) ∧ 0 ≤ Vector.Size (vec [1; 2] 2) ∧
  ∃ s' v' o,
    Vector.Emplace (Allocator0 := allocator) (Element0 := element false true)
      0 (Forward 9) (vec [1; 2] 2) (start 0 100) = (s', v', o) ∧
    ((o = Throw ∧ v' = vec [1; 2] 2 ∧
      trace s' = EvNew (grown (Vector.Capacity (vec [1; 2] 2))) :: trace (start 0 100)) ∨
     ∃ tr, trace s'
           = tr ++ emplace_event (Forward 9)
               :: EvNew (grown (Vector.Capacity (vec [1; 2] 2))) :: trace (start 0 100)).
Proof.
  assert (Hv : invariant (vec [1; 2] 2)) by (apply (invariant_repr [1; 2] 2); cbn; lia).
  assert (Hp : 0 ≤ Vector.Size (vec [1; 2] 2)) by (cbn; lia).
  split_and!; [exact Hv|exact Hp|].
  eexists _, _, _. split; [reflexivity|].
  pose proof (new_element_is_constructed_first (Allocator0 := allocator)
                (Element0 := element false true)
                (vec [1; 2] 2) 0 (Forward 9) (start 0 100) Hv Hp _ _ _
                (or_intror eq_refl)) as H.
  rewrite decide_False in H by (cbn; lia). exact H.
Defined.
Lemma PopBack_removes_last_witness :
  invariant (vec [4; 5; 6] 4) ∧ Vector.Size (vec [4; 5; 6] 4) ≠ 0 ∧
  Vector.PopBack (Element0 := element false true) (vec [4; 5; 6] 4) (start 0 0)
  = (State (Oracle 0 0) [EvDestroy 6], vec [4; 5] 4, Return tt).
Proof.
  assert (Hv : invariant (vec [4; 5; 6] 4))
    by (apply (invariant_repr [4; 5; 6] 4); cbn; lia).
  assert (Hne : Vector.Size (vec [4; 5; 6] 4) ≠ 0) by (cbn; lia).
  split_and!; [exact Hv|exact Hne|].
  destruct (PopBack_removes_last (Element0 := element false true)
              (vec [4; 5; 6] 4) (start 0 0) Hv Hne) as (x & Hx & E & _).
  injection Hx as <-. exact (eq_trans E eq_refl).
Defined.

End concrete.
